(** * Entropic Gromov-Wasserstein with a linear cost term (GW_adjusted.py)

    A shallow embedding of [GW_adjusted.py] and the properties its
    specification states about it.

    Modelling conventions.
    - Float64 has two models here.  The drivers, the KL builder and the
      barycenter updates are embedded over the real numbers ([R]): a 1-D
      array is a [list R], a 2-D array a list of rows, and each float64
      operation is the real operation of the same name.  What is proved
      over [R] is the control flow and the structure of what is computed:
      which operations are applied to which arrays and in which order,
      which calls are made, which exceptions end a call.  The square-loss
      tensor builders, whose specification is about signs and an exact
      minimum, are embedded a second time over IEEE 754 binary64
      ([float]), where a product can overflow to an infinity and
      [inf - inf] is nan.
    - Arrays are assumed to have the shapes the docstrings document; on
      arrays of other shapes NumPy raises or broadcasts, which the list
      operations do not reproduce.
    - What Python raises is a value: [Exc e] in the type [res].  The faults
      modelled are the ones the code can meet on arrays of floats: a
      reduction over an array with no entry (ValueError), a read of a local
      that was never bound (UnboundLocalError), an index past the end of a
      list (IndexError), a subscript on a bool (TypeError) and, when NumPy
      is configured with [np.seterr(all='raise')], a division by zero, a
      logarithm outside its domain or an exponential out of the range of
      float64 (FloatingPointError).  Under that setting NumPy also raises
      when a product, a sum or a quotient overflows or underflows; over
      [R] these faults do not exist, and what is stated about that error
      state is about the faults listed.
    - The solver [ot.bregman.sinkhorn] is external: a parameter of the
      development.
    - Each driver also records the calls it makes in a trace, a ghost field
      that no computation reads. *)

From Stdlib Require Import Floats String Reals Lra Lia ZArith Bool List.
Import ListNotations.

Set Warnings "-inexact-float".

Open Scope R_scope.

(** ** Faults and results *)

Inductive exn : Type :=
| ValueError
| FloatingPointError
| UnboundLocalError
| TypeError
| IndexError.

Inductive res (A : Type) : Type :=
| Ok (a : A)
| Exc (e : exn).

Arguments Ok {A} a.
Arguments Exc {A} e.

Definition bind {A B : Type} (r : res A) (k : A -> res B) : res B :=
  match r with
  | Ok a => k a
  | Exc e => Exc e
  end.

Notation "x <- r ;; k" := (bind r (fun x => k))
  (at level 61, r at next level, right associativity).


Fixpoint mapM {A B : Type} (f : A -> res B) (l : list A) : res (list B) :=
  match l with
  | [] => Ok []
  | a :: l' => b <- f a ;; bs <- mapM f l' ;; Ok (b :: bs)
  end.

(** NumPy's floating-point error state ([np.seterr]): by default a division
    by zero or an invalid operation only warns and yields a non-finite
    value; under ['raise'] it raises FloatingPointError. *)
Inductive errmode : Type := ErrWarn | ErrRaise.

(** ** Arrays *)

Definition vec := list R.
Definition matrix := list (list R).

Definition shape (r c : nat) (M : matrix) : Prop :=
  length M = r /\ Forall (fun row => length row = c) M.

Definition entries (M : matrix) : list R := concat M.

Definition mmap (f : R -> R) (M : matrix) : matrix := map (map f) M.

Fixpoint zip_with (f : R -> R -> R) (a b : list R) : list R :=
  match a, b with
  | x :: a', y :: b' => f x y :: zip_with f a' b'
  | _, _ => []
  end.

Fixpoint mzip_with (f : R -> R -> R) (A B : matrix) : matrix :=
  match A, B with
  | a :: A', b :: B' => zip_with f a b :: mzip_with f A' B'
  | _, _ => []
  end.

(** [-M], [M + N], [M - N], [np.multiply(M, N)], [x * M], [M * x]. *)
Definition mneg (M : matrix) : matrix := mmap Ropp M.
Definition madd (A B : matrix) : matrix := mzip_with Rplus A B.
Definition msub (A B : matrix) : matrix := mzip_with Rminus A B.
Definition mmul (A B : matrix) : matrix := mzip_with Rmult A B.
Definition mscale_l (x : R) (M : matrix) : matrix := mmap (fun y => x * y) M.
Definition mscale_r (M : matrix) (x : R) : matrix := mmap (fun y => y * x) M.
Definition msub_scalar (M : matrix) (x : R) : matrix := mmap (fun y => y - x) M.

(** [np.outer(p, q)]. *)
Definition outer (p q : vec) : matrix :=
  map (fun a => map (fun b => a * b) q) p.

Definition ncols (M : matrix) : nat :=
  match M with
  | [] => 0%nat
  | row :: _ => length row
  end.

Definition col (j : nat) (M : matrix) : vec := map (fun row => nth j row 0) M.

(** [M.T]. *)
Definition transpose (M : matrix) : matrix :=
  map (fun j => col j M) (seq 0 (ncols M)).

Definition vdot (a b : vec) : R := fold_right Rplus 0 (zip_with Rmult a b).

(** [np.dot(A, B)] on 2-D arrays: entry (i, j) is the sum over k of
    [A[i][k] * B[k][j]]. *)
Definition dot (A B : matrix) : matrix :=
  map (fun a => map (fun j => vdot a (col j B)) (seq 0 (ncols B))) A.

(** [M.min()] and [M.max()]: the reduction over every entry; on an array
    with no entry NumPy raises ValueError. *)
Definition amin (M : matrix) : res R :=
  match entries M with
  | [] => Exc ValueError
  | x :: l => Ok (fold_left Rmin l x)
  end.

Definition amax (M : matrix) : res R :=
  match entries M with
  | [] => Exc ValueError
  | x :: l => Ok (fold_left Rmax l x)
  end.

(** [np.linalg.norm(M)]: the Frobenius norm. *)
Definition linalg_norm (M : matrix) : R :=
  sqrt (fold_right Rplus 0 (map (fun x => x * x) (entries M))).

(** ** Loss functions *)

Definition square_loss_mine (a b : R) : R := 0.5 * (a - b) ^ 2.

(** ** Tensor builders *)

(** Over [R], as the drivers call them: their traces and costs are read
    off these.  The square-loss builders are embedded again over binary64
    in the module [Float64] below, for what depends on the values. *)

(** The local helpers [f1], [f2], [h1], [h2] of the two square-loss
    builders; only [h1] and [h2] are called. *)
Module SquareLoss.
Definition f1 (a : matrix) : matrix := mmap (fun x => x ^ 2 / 2) a.
Definition f2 (b : matrix) : matrix := mmap (fun x => x ^ 2 / 2) b.
Definition h1 (a : matrix) : matrix := a.
Definition h2 (b : matrix) : matrix := b.
End SquareLoss.

(** [tens = -np.dot(h1(C1), T).dot(h2(C2).T); tens -= tens.min()]. *)
Definition tensor_square_loss_mine (C1 C2 T : matrix) : res matrix :=
  let tens := mneg (dot (dot (SquareLoss.h1 C1) T) (transpose (SquareLoss.h2 C2))) in
  m <- amin tens ;;
  Ok (msub_scalar tens m).

(** [temp_here_nonlinear = np.dot(h1(C1), T).dot(h2(C2).T)],
    [temp_here_linear = np.multiply(cost_mat, T) * temp_here_nonlinear.max()],
    [tens = -temp_here_nonlinear - alpha_linear * temp_here_linear],
    [tens -= tens.min()]. *)
Definition tensor_square_loss_mine_combined
  (C1 C2 T cost_mat : matrix) (alpha_linear : R) : res matrix :=
  let temp_here_nonlinear :=
    dot (dot (SquareLoss.h1 C1) T) (transpose (SquareLoss.h2 C2)) in
  mx <- amax temp_here_nonlinear ;;
  let temp_here_linear := mscale_r (mmul cost_mat T) mx in
  let tens := msub (mneg temp_here_nonlinear) (mscale_l alpha_linear temp_here_linear) in
  m <- amin tens ;;
  Ok (msub_scalar tens m).

(** The additive floor inside every logarithm of the KL builder. *)
Definition log_floor : R := 1e-15.

(** ** Operations that depend on NumPy's error state *)

Section ErrorState.

Variable seterr : errmode.

(** [x / y] on float64 values.  NumPy does not raise on a zero divisor
    unless it was set to: under the default error state it emits a
    RuntimeWarning and the quotient is inf, -inf or nan; under
    [np.seterr(all='raise')] it raises FloatingPointError.  [R] has no
    such values: in the first case the model answers the unspecified real
    [x / 0], and nothing below depends on its value. *)
Definition np_div (x y : R) : res R :=
  if Req_dec_T y 0 then
    match seterr with
    | ErrRaise => Exc FloatingPointError
    | ErrWarn => Ok (x / y)
    end
  else Ok (x / y).

(** [np.log(x)]: outside the domain ([x <= 0]) NumPy answers -inf or nan
    with a warning, or raises under ['raise']; as for [np_div], the value
    the model answers there is not meaningful. *)
Definition np_log (x : R) : res R :=
  if Rlt_dec 0 x then Ok (ln x)
  else
    match seterr with
    | ErrRaise => Exc FloatingPointError
    | ErrWarn => Ok (ln x)
    end.

Definition mlog (M : matrix) : res matrix := mapM (mapM np_log) M.

(** [np.exp(x)] rounds to float64: the result overflows when [exp x] is at
    least [2^1024 - 2^970], halfway between the largest float64 and
    [2^1024], and underflows when it is below the least normal number
    [2^-1022].  Under the default error state NumPy warns and answers inf,
    a subnormal number or 0; under ['raise'] it raises. *)
Definition np_exp (x : R) : res R :=
  match seterr with
  | ErrRaise =>
      if Rle_dec (2 ^ 1024 - 2 ^ 970) (exp x) then Exc FloatingPointError
      else if Rlt_dec (exp x) (/ 2 ^ 1022) then Exc FloatingPointError
      else Ok (exp x)
  | ErrWarn => Ok (exp x)
  end.

Definition mexp (M : matrix) : res matrix := mapM (mapM np_exp) M.

(** [M / x] for an array [M] and a scalar [x]. *)
Definition mdiv_scalar (M : matrix) (x : R) : res matrix :=
  mapM (mapM (fun y => np_div y x)) M.

Fixpoint zip_withM (f : R -> R -> res R) (a b : list R) : res (list R) :=
  match a, b with
  | x :: a', y :: b' => z <- f x y ;; zs <- zip_withM f a' b' ;; Ok (z :: zs)
  | _, _ => Ok []
  end.

Fixpoint mzip_withM (f : R -> R -> res R) (A B : matrix) : res matrix :=
  match A, B with
  | a :: A', b :: B' => r <- zip_withM f a b ;; rs <- mzip_withM f A' B' ;; Ok (r :: rs)
  | _, _ => Ok []
  end.

(** [L(a,b) = a*log(a/b) - a + b]. *)
Definition kl_loss_mine1 (a b : R) : res R :=
  d <- np_div a b ;;
  l <- np_log d ;;
  Ok (a * l - a + b).

(** The local helpers of [tensor_kl_loss_mine]; only [h1] and [h2] are
    called. *)
Definition kl_f1 (a : matrix) : res matrix :=
  l <- mlog (mmap (fun x => x + log_floor) a) ;;
  Ok (msub (mmul a l) a).
Definition kl_f2 (b : matrix) : matrix := b.
Definition kl_h1 (a : matrix) : matrix := a.
Definition kl_h2 (b : matrix) : res matrix := mlog (mmap (fun x => x + log_floor) b).

(** [tens = -np.dot(h1(C1), T).dot(h2(C2).T); tens -= tens.min()]. *)
Definition tensor_kl_loss_mine (C1 C2 T : matrix) : res matrix :=
  let C1T := dot (kl_h1 C1) T in
  L <- kl_h2 C2 ;;
  let tens := mneg (dot C1T (transpose L)) in
  m <- amin tens ;;
  Ok (msub_scalar tens m).

(** *** Barycenter updates *)

(** [l[s]] on a Python list. *)
Definition index {A : Type} (l : list A) (s : nat) : res A :=
  match nth_error l s with
  | Some a => Ok a
  | None => Exc IndexError
  end.

(** What Python's [sum] holds: the int 0 it starts from, or an array. *)
Inductive pysum : Type :=
| SumZero
| SumArr (M : matrix).

(** [acc + M]: from the start value, [0 + M] adds 0 to every entry. *)
Definition pysum_add (acc : pysum) (M : matrix) : pysum :=
  match acc with
  | SumZero => SumArr (mmap (fun y => 0 + y) M)
  | SumArr A => SumArr (madd A M)
  end.

Definition py_sum (l : list matrix) : pysum := fold_left pysum_add l SumZero.

(** [np.divide(tmpsum, ppt)]; the scalar 0 broadcasts over [ppt]. *)
Definition np_divide (a : pysum) (B : matrix) : res matrix :=
  match a with
  | SumZero => mapM (mapM (fun d => np_div 0 d)) B
  | SumArr A => mzip_withM np_div A B
  end.

(** [tmpsum = sum([lambdas[s] * np.dot(T[s].T, Cs[s]).dot(T[s])
                   for s in range(len(T))])],
    [ppt = np.outer(p, p)], [return np.divide(tmpsum, ppt)]. *)
Definition update_square_loss_mine
  (p : vec) (lambdas : list R) (T Cs : list matrix) : res matrix :=
  terms <- mapM (fun s =>
                   lam <- index lambdas s ;;
                   Ts <- index T s ;;
                   C <- index Cs s ;;
                   Ts' <- index T s ;;
                   Ok (mscale_l lam (dot (dot (transpose Ts) C) Ts')))
                (seq 0 (length T)) ;;
  let tmpsum := py_sum terms in
  let ppt := outer p p in
  np_divide tmpsum ppt.

(** The same two assignments, then
    [return np.exp(np.divide(tmpsum, ppt))]. *)
Definition update_kl_loss_mine
  (p : vec) (lambdas : list R) (T Cs : list matrix) : res matrix :=
  terms <- mapM (fun s =>
                   lam <- index lambdas s ;;
                   Ts <- index T s ;;
                   C <- index Cs s ;;
                   Ts' <- index T s ;;
                   Ok (mscale_l lam (dot (dot (transpose Ts) C) Ts')))
                (seq 0 (length T)) ;;
  let tmpsum := py_sum terms in
  let ppt := outer p p in
  q <- np_divide tmpsum ppt ;;
  mexp q.

End ErrorState.

(** *** The numerator of the updates, entry by entry

    What the specification writes [sum_s lambdas[s] * T[s]^T . Cs[s] . T[s]],
    spelled out for one entry, with the operations in the order the code
    makes them: the weight times the entry of the product
    [(T[s]^T . Cs[s]) . T[s]], added to the running sum that Python's
    [sum] starts at 0. *)

Definition entry (M : matrix) (i j : nat) : R := nth j (nth i M []) 0.

Definition sum_of (l : list R) : R := fold_right Rplus 0 l.

Definition spec_term (Ts C : matrix) (i j : nat) : R :=
  sum_of (map (fun l =>
                 sum_of (map (fun k => entry Ts k i * entry C k l)
                           (seq 0 (length Ts)))
                 * entry Ts l j)
            (seq 0 (length Ts))).

Definition spec_numerator (lambdas : list R) (T Cs : list matrix) (i j : nat) : R :=
  fold_left (fun acc s =>
               acc + nth s lambdas 0 * spec_term (nth s T []) (nth s Cs []) i j)
    (seq 0 (length T)) 0.


(** ** The fixed-point drivers *)

(** The [log] argument: a falsy value ([False], [None], an empty dict), the
    bool [True] the docstring names, or a dict whose ['err'] entry is a
    list. *)
Inductive pylog : Type :=
| LogOff
| LogTrue
| LogDict (err : list R).

Definition truthy (l : pylog) : bool :=
  match l with
  | LogOff => false
  | LogTrue => true
  | LogDict _ => true
  end.

(** The calls a driver makes, in order. *)
Inductive event : Type :=
| EvSquareLoss (T : matrix)      (* tensor_square_loss_mine(C1, C2, T) *)
| EvCombinedLoss (T : matrix)    (* tensor_square_loss_mine_combined(C1, C2, T, cost_mat, alpha_linear) *)
| EvKLLoss (T : matrix)          (* tensor_kl_loss_mine(C1, C2, T) *)
| EvSinkhorn (M : matrix)        (* sinkhorn(p, q, M, epsilon) *)
| EvError (cpt : Z) (err : R)    (* err = np.linalg.norm(T - Tprev) *)
| EvHeader                       (* the table header printed *)
| EvRow (cpt : Z) (err : R).     (* one progress row printed *)

(** The locals of a driver: [tens] is unbound until its first assignment. *)
Record state : Type := mkState {
  st_T : matrix;
  st_cpt : Z;
  st_err : R;
  st_tens : option matrix;
  st_log : pylog;
  st_trace : list event
}.

Definition set_T (s : state) (T : matrix) : state :=
  mkState T (st_cpt s) (st_err s) (st_tens s) (st_log s) (st_trace s).
Definition set_cpt (s : state) (c : Z) : state :=
  mkState (st_T s) c (st_err s) (st_tens s) (st_log s) (st_trace s).
Definition set_err (s : state) (e : R) : state :=
  mkState (st_T s) (st_cpt s) e (st_tens s) (st_log s) (st_trace s).
Definition set_tens (s : state) (t : matrix) : state :=
  mkState (st_T s) (st_cpt s) (st_err s) (Some t) (st_log s) (st_trace s).
Definition set_log (s : state) (l : pylog) : state :=
  mkState (st_T s) (st_cpt s) (st_err s) (st_tens s) l (st_trace s).
Definition emit (e : event) (s : state) : state :=
  mkState (st_T s) (st_cpt s) (st_err s) (st_tens s) (st_log s) (st_trace s ++ [e]).

(** How a run of driver code ends: normally, by an exception (with the
    locals at that point), or, for the loop model only, because its fuel ran
    out before the loop condition turned false. *)
Inductive outcome : Type :=
| Done (s : state)
| Fault (e : exn) (s : state)
| NoFuel.

Definition andThen (o : outcome) (k : state -> outcome) : outcome :=
  match o with
  | Done s => k s
  | Fault e s => Fault e s
  | NoFuel => NoFuel
  end.

(** Run an array operation in state [s]: its exception ends the run. *)
Definition attempt (A : Type) (s : state) (r : res A) (k : A -> outcome) : outcome :=
  match r with
  | Ok a => k a
  | Exc e => Fault e s
  end.
Arguments attempt {A} s r k.

(** What the caller gets: [T], or the pair [(T, log)]. *)
Inductive retval : Type :=
| RetT (T : matrix)
| RetTLog (T : matrix) (log : pylog).

(** [if log: return T, log / else: return T]. *)
Definition finish (s : state) : retval :=
  if truthy (st_log s) then RetTLog (st_T s) (st_log s) else RetT (st_T s).

Definition returned (o : outcome) : option retval :=
  match o with
  | Done s => Some (finish s)
  | _ => None
  end.

Definition Rltb (x y : R) : bool := if Rlt_dec x y then true else false.

Section Drivers.

Variable seterr : errmode.
Variable sinkhorn : vec -> vec -> matrix -> R -> matrix.

Variables cost_mat C1 C2 : matrix.
Variable alpha_linear : R.
Variables p q : vec.
Variable loss_fun : string.
Variable epsilon : R.
Variable max_iter : Z.
Variable tol : R.
Variable verbose : bool.
Variable log : pylog.

(** [T = np.outer(p, q); cpt = 0; err = 1]. *)
Definition init_state : state := mkState (outer p q) 0 1 None log [].

(** [cost_mat / cost_mat.max()]. *)
Definition normalize : res matrix :=
  cm <- amax cost_mat ;;
  mdiv_scalar seterr cost_mat cm.

(** [while (err > tol and cpt < max_iter): body]. *)
Definition loop_cond (s : state) : bool :=
  Rltb tol (st_err s) && (st_cpt s <? max_iter)%Z.

Fixpoint while_loop (body : state -> outcome) (fuel : nat) (s : state) : outcome :=
  if loop_cond s then
    match fuel with
    | O => NoFuel
    | S fuel' => andThen (body s) (while_loop body fuel')
    end
  else Done s.

(** [if loss_fun == 'square_loss': tens = tensor_square_loss_mine(C1, C2, T)]. *)
Definition dispatch_square (s : state) : outcome :=
  if String.eqb loss_fun "square_loss" then
    let s := emit (EvSquareLoss (st_T s)) s in
    attempt s (tensor_square_loss_mine C1 C2 (st_T s)) (fun tens =>
    Done (set_tens s tens))
  else Done s.

(** [if loss_fun == 'square_loss':
       tens = tensor_square_loss_mine_combined(C1, C2, T, cost_mat, alpha_linear)]. *)
Definition dispatch_combined (s : state) : outcome :=
  if String.eqb loss_fun "square_loss" then
    let s := emit (EvCombinedLoss (st_T s)) s in
    attempt s (tensor_square_loss_mine_combined C1 C2 (st_T s) cost_mat alpha_linear) (fun tens =>
    Done (set_tens s tens))
  else Done s.

(** A read of the local [tens]. *)
Definition read_tens (s : state) : res matrix :=
  match st_tens s with
  | Some t => Ok t
  | None => Exc UnboundLocalError
  end.

(** [T = sinkhorn(p, q, M, epsilon)]. *)
Definition call_sinkhorn (M : matrix) (s : state) : state :=
  set_T (emit (EvSinkhorn M) s) (sinkhorn p q M epsilon).

(** [log['err'].append(err)] under [if log:]. *)
Definition log_append (err : R) (s : state) : outcome :=
  match st_log s with
  | LogOff => Done s
  | LogTrue => Fault TypeError s
  | LogDict l => Done (set_log s (LogDict (l ++ [err])))
  end.

(** The [if verbose:] block.  In [gromov_wasserstein_adjusted_norm] the
    row is printed inside [if cpt % 200 == 0:], in the other two drivers
    after it. *)
Definition progress (row_under_header : bool) (s : state) : state :=
  if verbose then
    let header := (st_cpt s mod 200 =? 0)%Z in
    let s1 := if header then emit EvHeader s else s in
    if row_under_header && negb header then s1
    else emit (EvRow (st_cpt s) (st_err s)) s1
  else s.

(** The [if cpt % 10 == 0:] block. *)
Definition convergence_check (row_under_header : bool) (Tprev : matrix) (s : state) : outcome :=
  if (st_cpt s mod 10 =? 0)%Z then
    let err := linalg_norm (msub (st_T s) Tprev) in
    let s := emit (EvError (st_cpt s) err) (set_err s err) in
    andThen (log_append err s) (fun s =>
    Done (progress row_under_header s))
  else Done s.

(** [cpt += 1]. *)
Definition incr_cpt (s : state) : state := set_cpt s (st_cpt s + 1)%Z.

(** *** [gromov_wasserstein_adjusted] *)

Definition adjusted_body (cost_mat1 : matrix) (s : state) : outcome :=
  let Tprev := st_T s in
  andThen (dispatch_square s) (fun s =>
  attempt s (read_tens s) (fun tens =>
  attempt s (amax tens) (fun mx =>
  let cost_mat2 := mscale_r cost_mat1 mx in
  let tens := madd tens (mscale_l alpha_linear cost_mat2) in
  let s := call_sinkhorn tens (set_tens s tens) in
  andThen (convergence_check false Tprev s) (fun s =>
  Done (incr_cpt s))))).

Definition adjusted_run (fuel : nat) : outcome :=
  let s := init_state in
  attempt s normalize (fun cost_mat1 =>
  while_loop (adjusted_body cost_mat1) fuel s).

(** *** [gromov_wasserstein_adjusted_norm] *)

Definition norm_body (cost_mat_norm : matrix) (s : state) : outcome :=
  let Tprev := st_T s in
  andThen (dispatch_square s) (fun s =>
  attempt s (read_tens s) (fun tens =>
  let tens_all :=
    madd (mscale_l (1 - alpha_linear) tens) (mscale_l alpha_linear cost_mat_norm) in
  let s := call_sinkhorn tens_all s in
  andThen (convergence_check true Tprev s) (fun s =>
  Done (incr_cpt s)))).

(** [try: cost_mat_norm = cost_mat / cost_mat.max()]
    [except: cost_mat_norm = cost_mat]. *)
Definition cost_mat_norm : matrix :=
  match normalize with
  | Ok M => M
  | Exc _ => cost_mat
  end.

Definition norm_run (fuel : nat) : outcome :=
  let s := init_state in
  if Req_dec_T alpha_linear 1 then Done (call_sinkhorn cost_mat_norm s)
  else while_loop (norm_body cost_mat_norm) fuel s.

(** *** [gromov_wasserstein_adjusted_combined] *)

Definition combined_body (s : state) : outcome :=
  let Tprev := st_T s in
  andThen (dispatch_combined s) (fun s =>
  attempt s (read_tens s) (fun tens =>
  let s := call_sinkhorn tens s in
  andThen (convergence_check false Tprev s) (fun s =>
  Done (incr_cpt s)))).

Definition combined_run (fuel : nat) : outcome :=
  let s := init_state in
  attempt s normalize (fun cost_mat1 =>
  while_loop combined_body fuel s).

(** [gromov_wasserstein_adjusted_combined] with the assignment
    [cost_mat1 = cost_mat / cost_mat.max()] removed and nothing else
    changed: the driver the equivalence claim compares with. *)
Definition combined_run_without_normalization (fuel : nat) : outcome :=
  let s := init_state in
  while_loop combined_body fuel s.

(** The drivers proper: the loop runs with fuel [max_iter], which is
    enough for every call. *)
Definition gromov_wasserstein_adjusted : outcome :=
  adjusted_run (Z.to_nat max_iter).
Definition gromov_wasserstein_adjusted_norm : outcome :=
  norm_run (Z.to_nat max_iter).
Definition gromov_wasserstein_adjusted_combined : outcome :=
  combined_run (Z.to_nat max_iter).
Definition gromov_wasserstein_adjusted_combined_without_normalization : outcome :=
  combined_run_without_normalization (Z.to_nat max_iter).

End Drivers.

(** ** Reading a trace *)

Definition is_print (ev : event) : bool :=
  match ev with
  | EvHeader => true
  | EvRow _ _ => true
  | _ => false
  end.

Definition is_sinkhorn (ev : event) : bool :=
  match ev with
  | EvSinkhorn _ => true
  | _ => false
  end.

Definition is_builder (ev : event) : bool :=
  match ev with
  | EvSquareLoss _ => true
  | EvCombinedLoss _ => true
  | EvKLLoss _ => true
  | _ => false
  end.

(** The errors computed along a trace, in order. *)
Fixpoint errors (tr : list event) : list R :=
  match tr with
  | [] => []
  | EvError _ e :: tr' => e :: errors tr'
  | _ :: tr' => errors tr'
  end.

Definition solver_calls (tr : list event) : nat := length (filter is_sinkhorn tr).

(** The log after the errors [errs] were appended to it. *)
Definition log_after (l : pylog) (errs : list R) : pylog :=
  match l with
  | LogDict l0 => LogDict (l0 ++ errs)
  | _ => l
  end.

Section Observers.

Variable sinkhorn : vec -> vec -> matrix -> R -> matrix.
Variables p q : vec.
Variable epsilon : R.

(** The coupling a driver holds after the calls of a trace, from [T0]:
    the output of the last solver call. *)
Fixpoint replay (T0 : matrix) (tr : list event) : matrix :=
  match tr with
  | [] => T0
  | EvSinkhorn M :: tr' => replay (sinkhorn p q M epsilon) tr'
  | _ :: tr' => replay T0 tr'
  end.

(** A trace in which every solver call got a cost related by [cost_rel] to
    the coupling held at that point, every error was computed at a counter
    divisible by 10, and the KL builder was never called. *)
Fixpoint trace_ok (cost_rel : matrix -> matrix -> Prop) (T0 : matrix)
  (tr : list event) : Prop :=
  match tr with
  | [] => True
  | EvSinkhorn M :: tr' =>
      cost_rel T0 M /\ trace_ok cost_rel (sinkhorn p q M epsilon) tr'
  | EvError c _ :: tr' => (c mod 10 = 0)%Z /\ trace_ok cost_rel T0 tr'
  | EvKLLoss _ :: _ => False
  | _ :: tr' => trace_ok cost_rel T0 tr'
  end.

(** One full iteration of a driver loop, from [s] to [s'], with builder
    call [tev] and solver cost [M]. *)
Definition step_done (tev : event) (M : matrix) (s s' : state) : Prop :=
  st_T s' = sinkhorn p q M epsilon /\
  st_cpt s' = (st_cpt s + 1)%Z /\
  (((st_cpt s mod 10 = 0)%Z /\
    st_err s' = linalg_norm (msub (sinkhorn p q M epsilon) (st_T s)) /\
    st_log s <> LogTrue /\
    st_log s' =
      log_after (st_log s) [linalg_norm (msub (sinkhorn p q M epsilon) (st_T s))] /\
    exists prints,
      forallb is_print prints = true /\
      st_trace s' =
        st_trace s ++
        tev :: EvSinkhorn M ::
        EvError (st_cpt s) (linalg_norm (msub (sinkhorn p q M epsilon) (st_T s))) ::
        prints)
   \/
   ((st_cpt s mod 10 <> 0)%Z /\
    st_err s' = st_err s /\
    st_log s' = st_log s /\
    st_trace s' = st_trace s ++ [tev; EvSinkhorn M])).

(** An iteration cut short by an exception: before the builder call, after
    it, or at the append to the log. *)
Definition step_fault (cost_rel : matrix -> matrix -> Prop) (tev : event)
  (s s' : state) : Prop :=
  st_cpt s' = st_cpt s /\
  (st_trace s' = st_trace s \/
   st_trace s' = st_trace s ++ [tev] \/
   exists M err,
     cost_rel (st_T s) M /\ (st_cpt s mod 10 = 0)%Z /\
     st_trace s' = st_trace s ++ [tev; EvSinkhorn M; EvError (st_cpt s) err]).

(** What holds of the locals at the head of a driver loop, for a call
    with arguments [max_iter] and [log]. *)
Definition loop_inv (cost_rel : matrix -> matrix -> Prop) (max_iter : Z)
  (log : pylog) (s : state) : Prop :=
  (0 <= st_cpt s <= Z.max 0 max_iter)%Z /\
  st_T s = replay (outer p q) (st_trace s) /\
  trace_ok cost_rel (outer p q) (st_trace s) /\
  Z.of_nat (length (errors (st_trace s))) = ((st_cpt s + 9) / 10)%Z /\
  st_log s = log_after log (errors (st_trace s)) /\
  st_err s = last (errors (st_trace s)) 1 /\
  Z.of_nat (solver_calls (st_trace s)) = st_cpt s.

(** What holds of the locals when an exception leaves a driver loop. *)
Definition fault_inv (cost_rel : matrix -> matrix -> Prop) (max_iter : Z)
  (s : state) : Prop :=
  (0 <= st_cpt s < max_iter)%Z /\
  trace_ok cost_rel (outer p q) (st_trace s) /\
  (Z.of_nat (solver_calls (st_trace s)) <= st_cpt s + 1)%Z.

End Observers.

(** The cost each driver hands to the solver, as a relation between the
    coupling at the start of the iteration and that cost. *)
Definition adjusted_cost (C1 C2 cost_mat1 : matrix) (alpha_linear : R)
  (T M : matrix) : Prop :=
  exists tens mx,
    tensor_square_loss_mine C1 C2 T = Ok tens /\
    amax tens = Ok mx /\
    M = madd tens (mscale_l alpha_linear (mscale_r cost_mat1 mx)).

Definition norm_cost (C1 C2 cost_mat_norm : matrix) (alpha_linear : R)
  (T M : matrix) : Prop :=
  exists tens,
    tensor_square_loss_mine C1 C2 T = Ok tens /\
    M = madd (mscale_l (1 - alpha_linear) tens) (mscale_l alpha_linear cost_mat_norm).

Definition combined_cost (C1 C2 cost_mat : matrix) (alpha_linear : R)
  (T M : matrix) : Prop :=
  tensor_square_loss_mine_combined C1 C2 T cost_mat alpha_linear = Ok M.

(** [tens] is bound only by the ['square_loss'] branch of a loop body. *)
Definition tens_unbound_unless_square (loss_fun : string) (s : state) : Prop :=
  String.eqb loss_fun "square_loss" = false -> st_tens s = None.

(** The locals a run ended with, by a return or by an exception. *)
Definition final (o : outcome) : option state :=
  match o with
  | Done s => Some s
  | Fault _ s => Some s
  | NoFuel => None
  end.

(** [run], a driver as a function of the fuel of its loop model, ends
    within [max_iter] iterations: fuel [max_iter] is enough and more fuel
    changes nothing; a run that returns made at most [max_iter] iterations
    and solver calls, left the loop because [err <= tol] or because the
    counter reached [max_iter] (or took [shortcut], never entering it), and
    returns the coupling of the last solver call, alone or paired with the
    log as [log] alone decides; a run that raises does so inside an
    iteration, before the counter reaches [max_iter]. *)
Definition bounded_run (sinkhorn : vec -> vec -> matrix -> R -> matrix)
  (p q : vec) (epsilon : R) (max_iter : Z) (tol : R) (log : pylog)
  (shortcut : Prop) (run : nat -> outcome) : Prop :=
  (forall fuel, (Z.to_nat max_iter <= fuel)%nat ->
     run fuel = run (Z.to_nat max_iter)) /\
  run (Z.to_nat max_iter) <> NoFuel /\
  (forall s, run (Z.to_nat max_iter) = Done s ->
     (0 <= st_cpt s <= max_iter)%Z /\
     (Z.of_nat (solver_calls (st_trace s)) <= max_iter)%Z /\
     (st_err s <= tol \/ st_cpt s = max_iter \/ shortcut) /\
     st_T s = replay sinkhorn p q epsilon (outer p q) (st_trace s) /\
     returned (Done s) =
       Some (if truthy log then RetTLog (st_T s) (st_log s) else RetT (st_T s))) /\
  (forall e s, run (Z.to_nat max_iter) = Fault e s ->
     (0 <= st_cpt s < max_iter)%Z).

(** In a run that returned, every error was computed at a counter
    divisible by 10; [err], which the loop condition reads, is the last of
    them (or the initial 1); the returned log is the caller's with exactly
    these errors appended; and they are at most [max_iter / 10 + 1]. *)
Definition checked_every_tenth (max_iter : Z) (log : pylog) (o : outcome) : Prop :=
  forall s, o = Done s ->
    (forall c e, In (EvError c e) (st_trace s) -> (c mod 10 = 0)%Z) /\
    st_err s = last (errors (st_trace s)) 1 /\
    st_log s = log_after log (errors (st_trace s)) /\
    (Z.of_nat (length (errors (st_trace s))) <= max_iter / 10 + 1)%Z /\
    (forall errs, log = LogDict [] -> st_log s = LogDict errs ->
       (Z.of_nat (length errs) <= max_iter / 10 + 1)%Z).

(** ** Reading what a run printed *)

(** A run with what it printed left out of its trace. *)
Definition silent (tr : list event) : list event :=
  filter (fun ev => negb (is_print ev)) tr.

Definition quiet (s : state) : state :=
  mkState (st_T s) (st_cpt s) (st_err s) (st_tens s) (st_log s) (silent (st_trace s)).

Definition quiet_outcome (o : outcome) : outcome :=
  match o with
  | Done s => Done (quiet s)
  | Fault e s => Fault e (quiet s)
  | NoFuel => NoFuel
  end.

(** The progress rows printed, and the error checks made, along a trace:
    each with the iteration counter and the error. *)
Fixpoint rows (tr : list event) : list (Z * R) :=
  match tr with
  | [] => []
  | EvRow c e :: tr' => (c, e) :: rows tr'
  | _ :: tr' => rows tr'
  end.

Fixpoint checks (tr : list event) : list (Z * R) :=
  match tr with
  | [] => []
  | EvError c e :: tr' => (c, e) :: checks tr'
  | _ :: tr' => checks tr'
  end.

Definition on_header_line (ce : Z * R) : bool := (fst ce mod 200 =? 0)%Z.

(** The rows a driver prints for the checks [cs]: all of them, or, when
    the row is printed under the header test, those on a header line. *)
Definition rows_shown (verbose under_header : bool) (cs : list (Z * R)) : list (Z * R) :=
  if verbose then if under_header then filter on_header_line cs else cs else [].

(** At the head of a loop [err] is fresh: it was recomputed in the
    iteration just run, or it still exceeds [tol], as the test before that
    iteration found it. *)
Definition err_fresh (tol : R) (s : state) : Prop :=
  (st_cpt s mod 10 = 1)%Z \/ tol < st_err s.

(** ** The tensor builders in float64

    The properties of the builders that depend on the values computed
    (signs, a minimum of exactly 0) are stated over IEEE 754 binary64, the
    arithmetic of the arrays [np.asarray(..., dtype=np.float64)] makes: a
    product can overflow to an infinity, and [inf - inf] is nan.  [np.dot]
    is NumPy's routine and its summation order is not fixed by the source:
    the builders take it as a parameter, and [Float64.dot] is the
    row-by-column instance the examples run. *)

Definition fvec := list float.
Definition fmatrix := list (list float).

Module Float64.

Definition shape (r c : nat) (M : fmatrix) : Prop :=
  length M = r /\ Forall (fun row => length row = c) M.

Definition entries (M : fmatrix) : list float := concat M.

Definition mmap (f : float -> float) (M : fmatrix) : fmatrix := map (map f) M.

Fixpoint zip_with (f : float -> float -> float) (a b : fvec) : fvec :=
  match a, b with
  | x :: a', y :: b' => f x y :: zip_with f a' b'
  | _, _ => []
  end.

Fixpoint mzip_with (f : float -> float -> float) (A B : fmatrix) : fmatrix :=
  match A, B with
  | a :: A', b :: B' => zip_with f a b :: mzip_with f A' B'
  | _, _ => []
  end.

Definition mneg (M : fmatrix) : fmatrix := mmap (fun x => (- x)%float) M.
Definition msub (A B : fmatrix) : fmatrix := mzip_with PrimFloat.sub A B.
Definition mmul (A B : fmatrix) : fmatrix := mzip_with PrimFloat.mul A B.
Definition mscale_l (x : float) (M : fmatrix) : fmatrix := mmap (fun y => (x * y)%float) M.
Definition mscale_r (M : fmatrix) (x : float) : fmatrix := mmap (fun y => (y * x)%float) M.
Definition msub_scalar (M : fmatrix) (x : float) : fmatrix := mmap (fun y => (y - x)%float) M.

Definition ncols (M : fmatrix) : nat :=
  match M with
  | [] => 0%nat
  | row :: _ => length row
  end.

Definition col (j : nat) (M : fmatrix) : fvec := map (fun row => nth j row 0%float) M.

(** [M.T]. *)
Definition transpose (M : fmatrix) : fmatrix :=
  map (fun j => col j M) (seq 0 (ncols M)).

(** One entry of a product: the products summed from the left. *)
Definition vdot (a b : fvec) : float :=
  fold_left PrimFloat.add (zip_with PrimFloat.mul a b) 0%float.

Definition dot (A B : fmatrix) : fmatrix :=
  map (fun a => map (fun j => vdot a (col j B)) (seq 0 (ncols B))) A.

(** The scalar steps of NumPy's [minimum] and [maximum] reductions: a nan
    on the left stays, a nan on the right wins every comparison's else
    branch.  The reduction is taken from left to right; on numbers any
    order finds the same minimum, up to the sign of a zero. *)
Definition scalar_min (a b : float) : float :=
  if (a <=? b)%float || is_nan a then a else b.

Definition scalar_max (a b : float) : float :=
  if (b <=? a)%float || is_nan a then a else b.

(** [M.min()] and [M.max()]; ValueError on an array with no entry. *)
Definition amin (M : fmatrix) : res float :=
  match entries M with
  | [] => Exc ValueError
  | x :: l => Ok (fold_left scalar_min l x)
  end.

Definition amax (M : fmatrix) : res float :=
  match entries M with
  | [] => Exc ValueError
  | x :: l => Ok (fold_left scalar_max l x)
  end.

(** The helpers [h1] and [h2] of the square-loss builders ([f1] and [f2]
    are never called). *)
Definition h1 (a : fmatrix) : fmatrix := a.
Definition h2 (b : fmatrix) : fmatrix := b.

Section Builders.

Variable np_dot : fmatrix -> fmatrix -> fmatrix.

(** [tens = -np.dot(h1(C1), T).dot(h2(C2).T); tens -= tens.min()]. *)
Definition tensor_square_loss_mine (C1 C2 T : fmatrix) : res fmatrix :=
  let tens := mneg (np_dot (np_dot (h1 C1) T) (transpose (h2 C2))) in
  m <- amin tens ;;
  Ok (msub_scalar tens m).

(** [temp_here_nonlinear = np.dot(h1(C1), T).dot(h2(C2).T)],
    [temp_here_linear = np.multiply(cost_mat, T) * temp_here_nonlinear.max()],
    [tens = -temp_here_nonlinear - alpha_linear * temp_here_linear],
    [tens -= tens.min()]. *)
Definition tensor_square_loss_mine_combined
  (C1 C2 T cost_mat : fmatrix) (alpha_linear : float) : res fmatrix :=
  let temp_here_nonlinear := np_dot (np_dot (h1 C1) T) (transpose (h2 C2)) in
  mx <- amax temp_here_nonlinear ;;
  let temp_here_linear := mscale_r (mmul cost_mat T) mx in
  let tens := msub (mneg temp_here_nonlinear) (mscale_l alpha_linear temp_here_linear) in
  m <- amin tens ;;
  Ok (msub_scalar tens m).

End Builders.

(** Whether every entry is a number, neither nan nor an infinity. *)
Definition all_finite (M : fmatrix) : bool := forallb is_finite (entries M).

(** The place of a binary64 number on the line, in units of [2^-1074]
    (0 for what is not a number). *)
Definition ord (x : spec_float) : Z :=
  match x with
  | S754_finite s m e => cond_Zopp s (Zpos m * 2 ^ (e + 1074))
  | _ => 0%Z
  end.

(** The binary64 values that are numbers, and those that are at least 0
    (either zero, a positive number, or +inf). *)
Definition sf_finite (x : spec_float) : bool :=
  match x with
  | S754_zero _ | S754_finite _ _ _ => true
  | _ => false
  end.

Definition sf_nonneg (x : spec_float) : bool :=
  match x with
  | S754_zero _ | S754_finite false _ _ | S754_infinity false => true
  | _ => false
  end.

Definition sf_zero (x : spec_float) : bool :=
  match x with
  | S754_zero _ => true
  | _ => false
  end.

End Float64.

(** ** Example data *)

(** Two stand-ins for the external solver: one answers the independent
    coupling, the other a fixed coupling [T]. *)
Definition independent_solver (p q : vec) (M : matrix) (eps : R) : matrix :=
  outer p q.

Definition fixed_solver (T : matrix) (p q : vec) (M : matrix) (eps : R) : matrix :=
  T.

(** * Properties *)

(** ** Reductions and shapes *)


Section Reductions.

Lemma fold_min_le_init (l : list R) (x : R) : fold_left Rmin l x <= x.
Proof.
  revert x; induction l as [|y l IH]; intros x; simpl.
  - lra.
  - eapply Rle_trans; [apply IH | apply Rmin_l].
Qed.

Lemma fold_min_le_in (l : list R) (x y : R) :
  In y l -> fold_left Rmin l x <= y.
Proof.
  revert x; induction l as [|z l IH]; intros x Hin; simpl in *.
  - contradiction.
  - destruct Hin as [-> | Hin].
    + eapply Rle_trans; [apply fold_min_le_init | apply Rmin_r].
    + now apply IH.
Qed.

Lemma fold_min_shift (l : list R) (x m : R) :
  fold_left Rmin (map (fun y => y - m) l) (x - m) = fold_left Rmin l x - m.
Proof.
  revert x; induction l as [|y l IH]; intros x; simpl.
  - reflexivity.
  - rewrite <- IH. f_equal.
    unfold Rmin. destruct (Rle_dec (x - m) (y - m)), (Rle_dec x y); lra.
Qed.

Lemma entries_mmap (f : R -> R) (M : matrix) :
  entries (mmap f M) = map f (entries M).
Proof.
  unfold entries, mmap. now rewrite concat_map.
Qed.

Lemma amin_le (M : matrix) (m x : R) :
  amin M = Ok m -> In x (entries M) -> m <= x.
Proof.
  unfold amin. destruct (entries M) as [|y l]; [discriminate|].
  intros [= <-] [-> | Hin].
  - apply fold_min_le_init.
  - now apply fold_min_le_in.
Qed.

(** Subtracting its own minimum from an array leaves minimum zero. *)
Lemma amin_shift (M : matrix) (m : R) :
  amin M = Ok m -> amin (msub_scalar M m) = Ok 0.
Proof.
  unfold amin, msub_scalar. rewrite entries_mmap.
  destruct (entries M) as [|y l]; [discriminate|].
  intros [= <-]. simpl. rewrite fold_min_shift. f_equal. lra.
Qed.

End Reductions.

Section Shapes.

Lemma shape_mmap (f : R -> R) (r c : nat) (M : matrix) :
  shape r c M -> shape r c (mmap f M).
Proof.
  intros [Hr Hc]. split.
  - unfold mmap. now rewrite length_map.
  - unfold mmap. apply Forall_map.
    eapply Forall_impl; [|exact Hc]. intros row H. now rewrite length_map.
Qed.

Lemma shape_dot (r c : nat) (A B : matrix) :
  length A = r -> ncols B = c -> shape r c (dot A B).
Proof.
  intros Hr Hc. split.
  - unfold dot. now rewrite length_map.
  - unfold dot. apply Forall_map, Forall_forall. intros a _.
    now rewrite length_map, length_seq.
Qed.

Lemma ncols_shape (r c : nat) (M : matrix) :
  (1 <= r)%nat -> shape r c M -> ncols M = c.
Proof.
  intros Hr [Hlen Hall]. destruct M as [|row M]; simpl in *; [lia|].
  now inversion Hall.
Qed.

Lemma shape_transpose (r c : nat) (M : matrix) :
  (1 <= r)%nat -> shape r c M -> shape c r (transpose M).
Proof.
  intros Hr HM. pose proof (ncols_shape _ _ _ Hr HM) as Hc.
  destruct HM as [Hlen _]. split.
  - unfold transpose. now rewrite length_map, length_seq.
  - unfold transpose. apply Forall_map, Forall_forall. intros j _.
    unfold col. now rewrite length_map.
Qed.

Lemma shape_entries_nonempty (r c : nat) (M : matrix) :
  (1 <= r)%nat -> (1 <= c)%nat -> shape r c M -> entries M <> [].
Proof.
  intros Hr Hc [Hlen Hall]. destruct M as [|row M]; simpl in *; [lia|].
  inversion Hall as [|? ? Hrow _]; subst.
  destruct row; simpl in *; [lia | discriminate].
Qed.

Lemma amin_defined (r c : nat) (M : matrix) :
  (1 <= r)%nat -> (1 <= c)%nat -> shape r c M -> exists m, amin M = Ok m.
Proof.
  intros Hr Hc HM. pose proof (shape_entries_nonempty _ _ _ Hr Hc HM) as Hne.
  unfold amin. destruct (entries M); [congruence | eauto].
Qed.

End Shapes.

(** ** The KL builder *)

Section KLBuilder.

Variable seterr : errmode.

Lemma np_log_positive (x : R) : 0 < x -> np_log seterr x = Ok (ln x).
Proof.
  intros Hx. unfold np_log. destruct (Rlt_dec 0 x); [reflexivity | contradiction].
Qed.

Lemma mapM_np_log (l : list R) :
  (forall x, In x l -> 0 < x) -> mapM (np_log seterr) l = Ok (map ln l).
Proof.
  induction l as [|x l IH]; intros Hpos; simpl.
  - reflexivity.
  - rewrite np_log_positive by (apply Hpos; now left). simpl.
    rewrite IH by (intros y Hy; apply Hpos; now right). reflexivity.
Qed.

Lemma mlog_positive (M : matrix) :
  (forall row x, In row M -> In x row -> 0 < x) ->
  mlog seterr M = Ok (mmap ln M).
Proof.
  unfold mlog, mmap. induction M as [|row M IH]; intros Hpos; simpl.
  - reflexivity.
  - rewrite mapM_np_log by (intros x Hx; apply (Hpos row); [now left | exact Hx]).
    simpl. rewrite IH by (intros r x Hr Hx; apply (Hpos r); [now right | exact Hx]).
    reflexivity.
Qed.

Lemma kl_h2_floor (C2 : matrix) :
  (forall row x, In row C2 -> In x row -> - log_floor < x) ->
  kl_h2 seterr C2 = Ok (mmap (fun b => ln (b + log_floor)) C2).
Proof.
  intros Hfloor. unfold kl_h2. rewrite mlog_positive.
  - f_equal. unfold mmap. rewrite map_map. apply map_ext. intros row.
    now rewrite map_map.
  - intros row x Hrow Hx. unfold mmap in Hrow.
    apply in_map_iff in Hrow. destruct Hrow as [row0 [<- Hrow0]].
    apply in_map_iff in Hx. destruct Hx as [b [<- Hb]].
    specialize (Hfloor row0 b Hrow0 Hb). lra.
Qed.

Lemma amin_only_value_error (M : matrix) (e : exn) :
  amin M = Exc e -> e = ValueError.
Proof.
  unfold amin. destruct (entries M); [intros [= <-]; reflexivity | discriminate].
Qed.

(** C7. When every entry of C2 is above minus the floor, so in particular
    when C2 holds exact zeros (C1 is free), [tensor_kl_loss_mine] raises
    no domain fault, whatever NumPy's error state: the only logarithms
    taken are [ln (b + 1e-15)] for the entries [b] of C2, the result is
    [-(C1 . T) . log(C2 + 1e-15)^T] with its global minimum subtracted, and
    on arrays of the documented shapes it is returned, with minimum 0. *)
Theorem tensor_kl_loss_mine_floor (C1 C2 T : matrix) :
  (forall row x, In row C2 -> In x row -> - log_floor < x) ->
  kl_h2 seterr C2 = Ok (mmap (fun b => ln (b + log_floor)) C2) /\
  tensor_kl_loss_mine seterr C1 C2 T =
    (m <- amin (mneg (dot (dot C1 T)
                 (transpose (mmap (fun b => ln (b + log_floor)) C2)))) ;;
     Ok (msub_scalar
           (mneg (dot (dot C1 T)
              (transpose (mmap (fun b => ln (b + log_floor)) C2)))) m)) /\
  tensor_kl_loss_mine seterr C1 C2 T <> Exc FloatingPointError /\
  (forall ns nt : nat,
     (1 <= ns)%nat -> (1 <= nt)%nat ->
     shape ns ns C1 -> shape nt nt C2 -> shape ns nt T ->
     exists m tens,
       tensor_kl_loss_mine seterr C1 C2 T = Ok tens /\
       tens = msub_scalar
                (mneg (dot (dot C1 T)
                   (transpose (mmap (fun b => ln (b + log_floor)) C2)))) m /\
       (forall x, In x (entries tens) -> 0 <= x) /\
       amin tens = Ok 0).
Proof.
  intros Hfloor. pose proof (kl_h2_floor C2 Hfloor) as Hh2.
  assert (Hdef : tensor_kl_loss_mine seterr C1 C2 T =
    (m <- amin (mneg (dot (dot C1 T)
                 (transpose (mmap (fun b => ln (b + log_floor)) C2)))) ;;
     Ok (msub_scalar
           (mneg (dot (dot C1 T)
              (transpose (mmap (fun b => ln (b + log_floor)) C2)))) m))).
  { unfold tensor_kl_loss_mine, kl_h1. rewrite Hh2. reflexivity. }
  split; [exact Hh2|]. split; [exact Hdef|]. split.
  - rewrite Hdef.
    destruct (amin _) as [m|e] eqn:Hmin; simpl; [discriminate|].
    apply amin_only_value_error in Hmin. subst e. discriminate.
  - intros ns nt Hns Hnt HC1 HC2 HT.
    assert (Hraw : shape ns nt (mneg (dot (dot C1 T)
                 (transpose (mmap (fun b => ln (b + log_floor)) C2))))).
    { apply shape_mmap, shape_dot.
      - unfold dot. rewrite length_map. apply HC1.
      - apply (ncols_shape nt nt); [lia|].
        apply shape_transpose; [lia|]. now apply shape_mmap. }
    destruct (amin_defined _ _ _ Hns Hnt Hraw) as [m Hm].
    exists m. eexists. rewrite Hdef, Hm. simpl.
    split; [reflexivity|]. split; [reflexivity|]. split.
    + intros x Hx. unfold msub_scalar in Hx. rewrite entries_mmap in Hx.
      apply in_map_iff in Hx. destruct Hx as [y [<- Hy]].
      pose proof (amin_le _ _ _ Hm Hy). lra.
    + now apply amin_shift.
Qed.

End KLBuilder.


(** ** Traces *)

Section TraceFacts.

Variable sinkhorn : vec -> vec -> matrix -> R -> matrix.
Variables p q : vec.
Variable epsilon : R.
Variable cost_rel : matrix -> matrix -> Prop.

Local Abbreviation replay' := (replay sinkhorn p q epsilon).
Local Abbreviation ok := (trace_ok sinkhorn p q epsilon cost_rel).

Lemma replay_app (a b : list event) (T : matrix) :
  replay' T (a ++ b) = replay' (replay' T a) b.
Proof.
  revert T; induction a as [|ev a IH]; intros T; simpl; [reflexivity|].
  destruct ev; apply IH.
Qed.

Lemma trace_ok_app (a b : list event) (T : matrix) :
  ok T (a ++ b) <-> ok T a /\ ok (replay' T a) b.
Proof.
  revert T; induction a as [|ev a IH]; intros T; simpl.
  - tauto.
  - destruct ev; try apply IH.
    + tauto.
    + rewrite IH. tauto.
    + rewrite IH. tauto.
Qed.

Lemma errors_app (a b : list event) : errors (a ++ b) = errors a ++ errors b.
Proof.
  induction a as [|ev a IH]; simpl; [reflexivity|].
  destruct ev; simpl; now rewrite ?IH.
Qed.

Lemma solver_calls_app (a b : list event) :
  solver_calls (a ++ b) = (solver_calls a + solver_calls b)%nat.
Proof.
  unfold solver_calls. now rewrite filter_app, length_app.
Qed.

Lemma prints_neutral (l : list event) (T : matrix) :
  forallb is_print l = true ->
  replay' T l = T /\ ok T l /\ errors l = [] /\ solver_calls l = 0%nat.
Proof.
  induction l as [|ev l IH]; simpl; intros H.
  - repeat split.
  - apply andb_prop in H. destruct H as [Hev Hl].
    destruct (IH Hl) as (H1 & H2 & H3 & H4).
    destruct ev; try discriminate; repeat split; assumption.
Qed.

Lemma trace_ok_no_kl (tr : list event) (T X : matrix) :
  ok T tr -> ~ In (EvKLLoss X) tr.
Proof.
  revert T; induction tr as [|ev tr IH]; intros T Hok Hin; simpl in *.
  - contradiction.
  - destruct Hin as [-> | Hin]; [exact Hok|].
    destruct ev; simpl in Hok; try contradiction;
      try (destruct Hok as [_ Hok]); eapply IH; eauto.
Qed.

Lemma trace_ok_error (tr : list event) (T : matrix) (c : Z) (e : R) :
  ok T tr -> In (EvError c e) tr -> (c mod 10 = 0)%Z.
Proof.
  revert T; induction tr as [|ev tr IH]; intros T Hok Hin; simpl in *.
  - contradiction.
  - destruct Hin as [-> | Hin]; [apply Hok|].
    destruct ev; simpl in Hok; try contradiction;
      try (destruct Hok as [_ Hok]); eapply IH; eauto.
Qed.

Lemma trace_ok_solver (pre post : list event) (T M : matrix) :
  ok T (pre ++ EvSinkhorn M :: post) -> cost_rel (replay' T pre) M.
Proof.
  intros H. apply trace_ok_app in H. simpl in H. tauto.
Qed.

Lemma log_after_app (l : pylog) (a b : list R) :
  log_after (log_after l a) b = log_after l (a ++ b).
Proof.
  destruct l; simpl; try reflexivity. now rewrite app_assoc.
Qed.

Lemma truthy_log_after (l : pylog) (a : list R) : truthy (log_after l a) = truthy l.
Proof. now destruct l. Qed.

End TraceFacts.

(** ** One iteration *)

Section Iteration.

Variable sinkhorn : vec -> vec -> matrix -> R -> matrix.
Variables cost_mat C1 C2 : matrix.
Variable alpha_linear : R.
Variables p q : vec.
Variable loss_fun : string.
Variable epsilon : R.
Variable verbose : bool.

Local Abbreviation step := (step_done sinkhorn p q epsilon).
Local Abbreviation solve := (call_sinkhorn sinkhorn p q epsilon).

Lemma progress_prints (b : bool) (s : state) :
  exists prints,
    forallb is_print prints = true /\
    progress verbose b s =
      mkState (st_T s) (st_cpt s) (st_err s) (st_tens s) (st_log s)
        (st_trace s ++ prints).
Proof.
  unfold progress. destruct verbose.
  - destruct (st_cpt s mod 200 =? 0)%Z; destruct b; simpl.
    + exists [EvHeader; EvRow (st_cpt s) (st_err s)]. split; [reflexivity|].
      unfold emit; simpl. now rewrite <- app_assoc.
    + exists [EvHeader; EvRow (st_cpt s) (st_err s)]. split; [reflexivity|].
      unfold emit; simpl. now rewrite <- app_assoc.
    + exists []. split; [reflexivity|]. rewrite app_nil_r. now destruct s.
    + exists [EvRow (st_cpt s) (st_err s)]. split; [reflexivity|]. reflexivity.
  - exists []. split; [reflexivity|]. rewrite app_nil_r. now destruct s.
Qed.

(** The [if cpt % 10 == 0:] block either computes, records and logs the
    error, or leaves every local as it was. *)
Lemma convergence_check_done (b : bool) (Tprev : matrix) (s s' : state) :
  convergence_check verbose b Tprev s = Done s' ->
  ((st_cpt s mod 10 = 0)%Z /\
   st_log s <> LogTrue /\
   exists prints,
     forallb is_print prints = true /\
     s' = mkState (st_T s) (st_cpt s) (linalg_norm (msub (st_T s) Tprev))
            (st_tens s) (log_after (st_log s) [linalg_norm (msub (st_T s) Tprev)])
            (st_trace s ++
               EvError (st_cpt s) (linalg_norm (msub (st_T s) Tprev)) :: prints))
  \/ ((st_cpt s mod 10 <> 0)%Z /\ s' = s).
Proof.
  unfold convergence_check.
  destruct (st_cpt s mod 10 =? 0)%Z eqn:Hmod.
  - apply Z.eqb_eq in Hmod. intros H. left. split; [exact Hmod|].
    unfold log_append in H. simpl in H.
    destruct (st_log s) as [| |l] eqn:Hlog; simpl in H; try discriminate.
    + split; [discriminate|]. injection H as <-.
      match goal with |- context [progress _ _ ?s0] =>
        destruct (progress_prints b s0) as [prints [Hp ->]] end.
      exists prints. split; [exact Hp|]. simpl. rewrite Hlog.
      now rewrite <- app_assoc.
    + split; [discriminate|]. injection H as <-.
      match goal with |- context [progress _ _ ?s0] =>
        destruct (progress_prints b s0) as [prints [Hp ->]] end.
      exists prints. split; [exact Hp|]. simpl.
      now rewrite <- app_assoc.
  - apply Z.eqb_neq in Hmod. intros [= <-]. now right.
Qed.

Lemma convergence_check_fault (b : bool) (Tprev : matrix) (s s' : state) (e : exn) :
  convergence_check verbose b Tprev s = Fault e s' ->
  e = TypeError /\ st_log s = LogTrue /\ (st_cpt s mod 10 = 0)%Z /\
  st_cpt s' = st_cpt s /\
  st_trace s' =
    st_trace s ++ [EvError (st_cpt s) (linalg_norm (msub (st_T s) Tprev))].
Proof.
  unfold convergence_check.
  destruct (st_cpt s mod 10 =? 0)%Z eqn:Hmod; [|discriminate].
  apply Z.eqb_eq in Hmod. unfold log_append. simpl.
  destruct (st_log s); simpl; try discriminate.
  intros [= <- <-]. simpl. repeat split; assumption.
Qed.

Lemma convergence_check_fuel (b : bool) (Tprev : matrix) (s : state) :
  convergence_check verbose b Tprev s <> NoFuel.
Proof.
  unfold convergence_check. destruct (st_cpt s mod 10 =? 0)%Z; [|discriminate].
  unfold log_append. simpl. destruct (st_log s); simpl; discriminate.
Qed.

(** The tail every loop body ends with: solver call, convergence check,
    counter increment. *)
Lemma solve_check_incr_done (b : bool) (tev : event) (M : matrix) (s0 s s' : state) :
  st_T s = st_T s0 -> st_cpt s = st_cpt s0 -> st_err s = st_err s0 ->
  st_log s = st_log s0 -> st_trace s = st_trace s0 ++ [tev] ->
  andThen (convergence_check verbose b (st_T s0) (solve M s))
    (fun s1 => Done (incr_cpt s1)) = Done s' ->
  step tev M s0 s'.
Proof.
  intros HT Hc He Hl Htr H.
  destruct (convergence_check verbose b (st_T s0) (solve M s))
    as [s1| |] eqn:Hcc; simpl in H; try discriminate.
  injection H as <-.
  apply convergence_check_done in Hcc. simpl in Hcc.
  unfold step_done.
  destruct Hcc as [(Hmod & Hlog & prints & Hp & ->) | (Hmod & ->)]; simpl.
  - split; [reflexivity|]. split; [now rewrite Hc|]. left.
    rewrite <- Hc, <- Hl. split; [exact Hmod|]. split; [reflexivity|].
    split; [exact Hlog|]. split; [reflexivity|].
    exists prints. split; [exact Hp|].
    rewrite Htr. now rewrite <- !app_assoc.
  - split; [reflexivity|]. split; [now rewrite Hc|]. right.
    rewrite <- Hc. split; [exact Hmod|]. split; [exact He|].
    split; [exact Hl|]. rewrite Htr. now rewrite <- app_assoc.
Qed.

Lemma solve_check_incr_fault (b : bool) (tev : event) (M : matrix)
  (s0 s s' : state) (e : exn) :
  st_T s = st_T s0 -> st_cpt s = st_cpt s0 ->
  st_trace s = st_trace s0 ++ [tev] ->
  andThen (convergence_check verbose b (st_T s0) (solve M s))
    (fun s1 => Done (incr_cpt s1)) = Fault e s' ->
  e = TypeError /\ st_cpt s' = st_cpt s0 /\ (st_cpt s0 mod 10 = 0)%Z /\
  exists err, st_trace s' = st_trace s0 ++ [tev; EvSinkhorn M; EvError (st_cpt s0) err].
Proof.
  intros HT Hc Htr H.
  destruct (convergence_check verbose b (st_T s0) (solve M s))
    as [s1|e1 s1|] eqn:Hcc; simpl in H; try discriminate.
  injection H as <- <-.
  apply convergence_check_fault in Hcc. simpl in Hcc.
  destruct Hcc as (-> & _ & Hmod & Hcpt & Htr').
  rewrite Hc in *. repeat split; try assumption.
  eexists. rewrite Htr', Htr, <- !app_assoc. reflexivity.
Qed.

Lemma solve_check_incr_fuel (b : bool) (Tprev M : matrix) (s : state) :
  andThen (convergence_check verbose b Tprev (solve M s))
    (fun s1 => Done (incr_cpt s1)) <> NoFuel.
Proof.
  pose proof (convergence_check_fuel b Tprev (solve M s)) as H.
  destruct (convergence_check verbose b Tprev (solve M s)); simpl;
    [discriminate | discriminate | contradiction].
Qed.

Local Abbreviation tens_inv := (tens_unbound_unless_square loss_fun).

Local Abbreviation adjusted := (adjusted_body sinkhorn C1 C2 alpha_linear p q loss_fun epsilon verbose).
Local Abbreviation normb := (norm_body sinkhorn C1 C2 alpha_linear p q loss_fun epsilon verbose).
Local Abbreviation combined := (combined_body sinkhorn cost_mat C1 C2 alpha_linear p q loss_fun epsilon verbose).

(** With any other [loss_fun] the first read of [tens] fails, before any
    call is made. *)
Lemma bodies_unbound (cm : matrix) (s : state) :
  String.eqb loss_fun "square_loss" = false -> st_tens s = None ->
  adjusted cm s = Fault UnboundLocalError s /\
  normb cm s = Fault UnboundLocalError s /\
  combined s = Fault UnboundLocalError s.
Proof.
  intros Hneq Hnone.
  unfold adjusted_body, norm_body, combined_body, dispatch_square, dispatch_combined.
  rewrite Hneq. simpl. unfold read_tens. rewrite Hnone. simpl. auto.
Qed.

Lemma adjusted_body_done (cm : matrix) (s s' : state) :
  tens_inv s ->
  adjusted cm s = Done s' ->
  tens_inv s' /\
  exists M, adjusted_cost C1 C2 cm alpha_linear (st_T s) M /\
            step (EvSquareLoss (st_T s)) M s s'.
Proof.
  intros HJ H. unfold adjusted_body, dispatch_square in H.
  destruct (String.eqb loss_fun "square_loss") eqn:Heq.
  - split; [intros Hf; congruence|].
    cbn [andThen attempt] in H.
    destruct (tensor_square_loss_mine C1 C2 (st_T (emit (EvSquareLoss (st_T s)) s)))
      as [tens|e] eqn:Hb; cbn [andThen attempt] in H; [|discriminate].
    cbn [read_tens st_tens set_tens attempt] in H.
    destruct (amax tens) as [mx|e] eqn:Hmx; cbn [attempt] in H; [|discriminate].
    eexists. split.
    + exists tens, mx. repeat split; [exact Hb | exact Hmx].
    + eapply solve_check_incr_done; [| | | | | exact H]; reflexivity.
  - exfalso. cbn [andThen attempt] in H. unfold read_tens in H.
    rewrite (HJ Heq) in H. discriminate.
Qed.

Lemma adjusted_body_fault (cm : matrix) (s s' : state) (e : exn) :
  tens_inv s ->
  adjusted cm s = Fault e s' ->
  step_fault (adjusted_cost C1 C2 cm alpha_linear) (EvSquareLoss (st_T s)) s s'.
Proof.
  intros HJ H. unfold step_fault.
  destruct (String.eqb loss_fun "square_loss") eqn:Heq.
  - unfold adjusted_body, dispatch_square in H. rewrite Heq in H.
    cbn [andThen attempt] in H.
    destruct (tensor_square_loss_mine C1 C2 (st_T (emit (EvSquareLoss (st_T s)) s)))
      as [tens|e0] eqn:Hb; cbn [andThen attempt] in H.
    + cbn [read_tens st_tens set_tens attempt] in H.
      destruct (amax tens) as [mx|e1] eqn:Hmx; cbn [attempt] in H.
      * eapply solve_check_incr_fault in H; try reflexivity.
        destruct H as (_ & Hc & Hmod & err & Htr).
        split; [exact Hc|]. right; right.
        eexists; exists err. split; [|split; [exact Hmod | exact Htr]].
        exists tens, mx. repeat split; [exact Hb | exact Hmx].
      * injection H as <- <-. simpl. auto.
    + injection H as <- <-. simpl. auto.
  - destruct (bodies_unbound cm s Heq (HJ Heq)) as (Ha & _ & _).
    rewrite Ha in H. injection H as <- <-. auto.
Qed.

Lemma norm_body_done (cm : matrix) (s s' : state) :
  tens_inv s ->
  normb cm s = Done s' ->
  tens_inv s' /\
  exists M, norm_cost C1 C2 cm alpha_linear (st_T s) M /\
            step (EvSquareLoss (st_T s)) M s s'.
Proof.
  intros HJ H.
  destruct (String.eqb loss_fun "square_loss") eqn:Heq.
  - split; [intros Hf; congruence|].
    unfold norm_body, dispatch_square in H. rewrite Heq in H.
    cbn [andThen attempt] in H.
    destruct (tensor_square_loss_mine C1 C2 (st_T (emit (EvSquareLoss (st_T s)) s)))
      as [tens|e] eqn:Hb; cbn [andThen attempt] in H; [|discriminate].
    cbn [read_tens st_tens set_tens attempt] in H.
    eexists. split.
    + exists tens. split; [exact Hb | reflexivity].
    + eapply solve_check_incr_done; [| | | | | exact H]; reflexivity.
  - destruct (bodies_unbound cm s Heq (HJ Heq)) as (_ & Hn & _).
    rewrite Hn in H. discriminate.
Qed.

Lemma norm_body_fault (cm : matrix) (s s' : state) (e : exn) :
  tens_inv s ->
  normb cm s = Fault e s' ->
  step_fault (norm_cost C1 C2 cm alpha_linear) (EvSquareLoss (st_T s)) s s'.
Proof.
  intros HJ H. unfold step_fault.
  destruct (String.eqb loss_fun "square_loss") eqn:Heq.
  - unfold norm_body, dispatch_square in H. rewrite Heq in H.
    cbn [andThen attempt] in H.
    destruct (tensor_square_loss_mine C1 C2 (st_T (emit (EvSquareLoss (st_T s)) s)))
      as [tens|e0] eqn:Hb; cbn [andThen attempt] in H.
    + cbn [read_tens st_tens set_tens attempt] in H.
      eapply solve_check_incr_fault in H; try reflexivity.
      destruct H as (_ & Hc & Hmod & err & Htr).
      split; [exact Hc|]. right; right.
      eexists; exists err. split; [|split; [exact Hmod | exact Htr]].
      exists tens. split; [exact Hb | reflexivity].
    + injection H as <- <-. simpl. auto.
  - destruct (bodies_unbound cm s Heq (HJ Heq)) as (_ & Hn & _).
    rewrite Hn in H. injection H as <- <-. auto.
Qed.

Lemma combined_body_done (s s' : state) :
  tens_inv s ->
  combined s = Done s' ->
  tens_inv s' /\
  exists M, combined_cost C1 C2 cost_mat alpha_linear (st_T s) M /\
            step (EvCombinedLoss (st_T s)) M s s'.
Proof.
  intros HJ H.
  destruct (String.eqb loss_fun "square_loss") eqn:Heq.
  - split; [intros Hf; congruence|].
    unfold combined_body, dispatch_combined in H. rewrite Heq in H.
    cbn [andThen attempt] in H.
    destruct (tensor_square_loss_mine_combined C1 C2
                (st_T (emit (EvCombinedLoss (st_T s)) s)) cost_mat alpha_linear)
      as [tens|e] eqn:Hb; cbn [andThen attempt] in H; [|discriminate].
    cbn [read_tens st_tens set_tens attempt] in H.
    exists tens. split.
    + exact Hb.
    + eapply solve_check_incr_done; [| | | | | exact H]; reflexivity.
  - destruct (bodies_unbound [] s Heq (HJ Heq)) as (_ & _ & Hc).
    rewrite Hc in H. discriminate.
Qed.

Lemma combined_body_fault (s s' : state) (e : exn) :
  tens_inv s ->
  combined s = Fault e s' ->
  step_fault (combined_cost C1 C2 cost_mat alpha_linear)
    (EvCombinedLoss (st_T s)) s s'.
Proof.
  intros HJ H. unfold step_fault.
  destruct (String.eqb loss_fun "square_loss") eqn:Heq.
  - unfold combined_body, dispatch_combined in H. rewrite Heq in H.
    cbn [andThen attempt] in H.
    destruct (tensor_square_loss_mine_combined C1 C2
                (st_T (emit (EvCombinedLoss (st_T s)) s)) cost_mat alpha_linear)
      as [tens|e0] eqn:Hb; cbn [andThen attempt] in H.
    + cbn [read_tens st_tens set_tens attempt] in H.
      eapply solve_check_incr_fault in H; try reflexivity.
      destruct H as (_ & Hc & Hmod & err & Htr).
      split; [exact Hc|]. right; right.
      exists tens, err. split; [exact Hb|]. split; [exact Hmod | exact Htr].
    + injection H as <- <-. simpl. auto.
  - destruct (bodies_unbound [] s Heq (HJ Heq)) as (_ & _ & Hc).
    rewrite Hc in H. injection H as <- <-. auto.
Qed.

Lemma bodies_fuel (cm : matrix) (s : state) :
  adjusted cm s <> NoFuel /\ normb cm s <> NoFuel /\ combined s <> NoFuel.
Proof.
  unfold adjusted_body, norm_body, combined_body, dispatch_square, dispatch_combined.
  destruct (String.eqb loss_fun "square_loss"); cbn [andThen attempt].
  - destruct (tensor_square_loss_mine C1 C2 _);
      destruct (tensor_square_loss_mine_combined C1 C2 _ cost_mat alpha_linear);
      cbn [andThen attempt read_tens st_tens set_tens];
      repeat split; try discriminate; try apply solve_check_incr_fuel;
      destruct (amax _); cbn [attempt]; try discriminate; apply solve_check_incr_fuel.
  - unfold read_tens. destruct (st_tens s); cbn [attempt];
      repeat split; try discriminate; try apply solve_check_incr_fuel;
      destruct (amax _); cbn [attempt]; try discriminate; apply solve_check_incr_fuel.
Qed.

End Iteration.

(** ** The loop *)

Section Loop.

Variable sinkhorn : vec -> vec -> matrix -> R -> matrix.
Variables p q : vec.
Variable epsilon : R.
Variable max_iter : Z.
Variable tol : R.
Variable log : pylog.

Variable cost_rel : matrix -> matrix -> Prop.
Variable tev : matrix -> event.
Variable J : state -> Prop.
Variable body : state -> outcome.

Hypothesis tev_builder :
  forall T, tev T = EvSquareLoss T \/ tev T = EvCombinedLoss T.
Hypothesis body_done :
  forall s s', J s -> body s = Done s' ->
  J s' /\
  exists M, cost_rel (st_T s) M /\
            step_done sinkhorn p q epsilon (tev (st_T s)) M s s'.
Hypothesis body_fault :
  forall s e s', J s -> body s = Fault e s' ->
  step_fault cost_rel (tev (st_T s)) s s'.
Hypothesis body_fuel : forall s, body s <> NoFuel.

Local Abbreviation inv := (loop_inv sinkhorn p q epsilon cost_rel max_iter log).
Local Abbreviation finv := (fault_inv sinkhorn p q epsilon cost_rel max_iter).
Local Abbreviation loop := (while_loop max_iter tol body).
Local Abbreviation cond := (loop_cond max_iter tol).
Local Abbreviation rp := (replay sinkhorn p q epsilon).
Local Abbreviation ok := (trace_ok sinkhorn p q epsilon cost_rel).

Lemma loop_cond_true (s : state) :
  cond s = true -> tol < st_err s /\ (st_cpt s < max_iter)%Z.
Proof.
  unfold loop_cond, Rltb. intros H. apply andb_prop in H. destruct H as [H1 H2].
  split.
  - destruct (Rlt_dec tol (st_err s)); [assumption | discriminate].
  - now apply Z.ltb_lt.
Qed.

Lemma loop_cond_false (s : state) :
  cond s = false -> st_err s <= tol \/ (max_iter <= st_cpt s)%Z.
Proof.
  unfold loop_cond, Rltb. intros H. apply andb_false_iff in H. destruct H as [H | H].
  - left. destruct (Rlt_dec tol (st_err s)); [discriminate | lra].
  - right. apply Z.ltb_ge in H. exact H.
Qed.

Lemma inv_init : inv (init_state p q log).
Proof.
  unfold loop_inv, init_state; simpl. repeat split; try lia.
  destruct log; simpl; try reflexivity. now rewrite app_nil_r.
Qed.

Lemma ceil10_check (c : Z) :
  (0 <= c)%Z -> (c mod 10 = 0)%Z -> ((c + 1 + 9) / 10 = (c + 9) / 10 + 1)%Z.
Proof. intros. Z.to_euclidean_division_equations. lia. Qed.

Lemma ceil10_skip (c : Z) :
  (0 <= c)%Z -> (c mod 10 <> 0)%Z -> ((c + 1 + 9) / 10 = (c + 9) / 10)%Z.
Proof. intros. Z.to_euclidean_division_equations. lia. Qed.

Lemma inv_step (s s' : state) :
  inv s -> J s -> cond s = true -> body s = Done s' -> inv s' /\ J s'.
Proof.
  intros (Hc & HT & Hok & Hn & Hl & He & Hs) HJ Hcond Hb.
  apply loop_cond_true in Hcond. destruct Hcond as [_ Hlt].
  destruct (body_done _ _ HJ Hb) as (HJ' & M & Hrel & HT' & Hc' & Hstep).
  split; [|exact HJ'].
  assert (Hback : forall l, rp (outer p q) (st_trace s ++ tev (st_T s) :: EvSinkhorn M :: l)
                            = rp (sinkhorn p q M epsilon) l).
  { intros l. rewrite replay_app. destruct (tev_builder (st_T s)) as [-> | ->]; reflexivity. }
  assert (Hokk : forall l, ok (sinkhorn p q M epsilon) l ->
                           ok (outer p q) (st_trace s ++ tev (st_T s) :: EvSinkhorn M :: l)).
  { intros l Hl'. apply trace_ok_app. split; [exact Hok|].
    rewrite <- HT.
    destruct (tev_builder (st_T s)) as [-> | ->]; simpl; auto. }
  assert (Herr : forall l, errors (st_trace s ++ tev (st_T s) :: EvSinkhorn M :: l)
                           = errors (st_trace s) ++ errors l).
  { intros l. rewrite errors_app.
    destruct (tev_builder (st_T s)) as [-> | ->]; reflexivity. }
  assert (Hsol : forall l, solver_calls (st_trace s ++ tev (st_T s) :: EvSinkhorn M :: l)
                           = (solver_calls (st_trace s) + S (solver_calls l))%nat).
  { intros l. rewrite solver_calls_app.
    destruct (tev_builder (st_T s)) as [-> | ->]; reflexivity. }
  unfold loop_inv.
  destruct Hstep as [(Hmod & He' & _ & Hl' & prints & Hp & Htr) | (Hmod & He' & Hl' & Htr)].
  - destruct (prints_neutral sinkhorn p q epsilon cost_rel prints
                (sinkhorn p q M epsilon) Hp) as (P1 & P2 & P3 & P4).
    set (err := linalg_norm (msub (sinkhorn p q M epsilon) (st_T s))) in *.
    assert (E1 : errors (EvError (st_cpt s) err :: prints) = [err])
      by (simpl; now rewrite P3).
    assert (E2 : solver_calls (EvError (st_cpt s) err :: prints) = 0%nat)
      by exact P4.
    assert (E3 : rp (sinkhorn p q M epsilon) (EvError (st_cpt s) err :: prints)
                 = sinkhorn p q M epsilon) by exact P1.
    rewrite Htr, Hc'.
    rewrite Hback, Herr, Hsol, E1, E2, E3.
    repeat split; try lia.
    + exact HT'.
    + apply Hokk. simpl. auto.
    + rewrite length_app, Nat2Z.inj_add, Hn. simpl.
      rewrite ceil10_check by lia. lia.
    + rewrite Hl', Hl. apply log_after_app.
    + rewrite He'. now rewrite last_last.
  - rewrite Htr, Hc'.
    rewrite Hback, Herr, Hsol. cbn [errors replay]. rewrite app_nil_r.
    change (solver_calls []) with 0%nat.
    repeat split; try lia.
    + exact HT'.
    + apply Hokk. simpl. exact I.
    + rewrite Hn. rewrite ceil10_skip by lia. reflexivity.
    + now rewrite Hl'.
    + now rewrite He'.
Qed.

Lemma fault_step (s s' : state) (e : exn) :
  inv s -> J s -> cond s = true -> body s = Fault e s' -> finv s'.
Proof.
  intros (Hc & HT & Hok & Hn & Hl & He & Hs) HJ Hcond Hb.
  apply loop_cond_true in Hcond. destruct Hcond as [_ Hlt].
  destruct (body_fault _ _ _ HJ Hb) as (Hc' & Htr).
  unfold fault_inv. rewrite Hc'.
  destruct Htr as [Htr | [Htr | (M & err & Hrel & Hmod & Htr)]]; rewrite Htr.
  - repeat split; try lia. exact Hok.
  - rewrite solver_calls_app. repeat split; try lia.
    + apply trace_ok_app. split; [exact Hok|].
      destruct (tev_builder (st_T s)) as [-> | ->]; exact I.
    + unfold solver_calls in *.
      destruct (tev_builder (st_T s)) as [-> | ->]; simpl; lia.
  - rewrite solver_calls_app. repeat split; try lia.
    + apply trace_ok_app. split; [exact Hok|]. rewrite <- HT.
      destruct (tev_builder (st_T s)) as [-> | ->]; simpl; auto.
    + unfold solver_calls in *.
      destruct (tev_builder (st_T s)) as [-> | ->]; simpl; lia.
Qed.

(** Whatever the fuel, a loop started in a state of the invariant ends in
    one, with the loop condition false, or by an exception raised inside
    an iteration. *)
Lemma loop_result (fuel : nat) (s : state) :
  inv s -> J s ->
  match loop fuel s with
  | Done s' => inv s' /\ cond s' = false
  | Fault e s' => finv s'
  | NoFuel => True
  end.
Proof.
  revert s; induction fuel as [|fuel IH]; intros s Hinv HJ; simpl.
  - destruct (cond s) eqn:Hc; auto.
  - destruct (cond s) eqn:Hc; [|auto].
    destruct (body s) as [s1|e s1|] eqn:Hb; simpl.
    + destruct (inv_step _ _ Hinv HJ Hc Hb) as [Hinv1 HJ1]. now apply IH.
    + eapply fault_step; eauto.
    + exact I.
Qed.

(** Fuel [max_iter - cpt] is enough: the loop never runs out of it, and
    more fuel changes nothing. *)
Lemma loop_fuel (n fuel : nat) (s : state) :
  (Z.to_nat (max_iter - st_cpt s) <= n)%nat -> (n <= fuel)%nat -> J s ->
  loop fuel s = loop n s /\ loop n s <> NoFuel.
Proof.
  revert fuel s; induction n as [|n IH]; intros fuel s Hn Hfuel HJ.
  - assert (Hc : cond s = false).
    { unfold loop_cond. apply andb_false_iff. right. apply Z.ltb_ge. lia. }
    destruct fuel; simpl; rewrite Hc; split; try reflexivity; discriminate.
  - destruct fuel as [|fuel]; [lia|]. simpl.
    destruct (cond s) eqn:Hc; [|split; [reflexivity | discriminate]].
    destruct (body s) as [s1|e s1|] eqn:Hb; simpl.
    + destruct (body_done _ _ HJ Hb) as (HJ1 & M & _ & _ & Hc1 & _).
      apply IH; [lia | lia | exact HJ1].
    + split; [reflexivity | discriminate].
    + exfalso. now apply (body_fuel s).
Qed.

End Loop.

(** ** The entry normalization *)

Section Normalization.

Variable seterr : errmode.

Lemma np_div_ok (x y z : R) : np_div seterr x y = Ok z -> z = x / y.
Proof.
  unfold np_div. destruct (Req_dec_T y 0); [destruct seterr|]; congruence.
Qed.

Lemma np_div_exc (x y : R) (e : exn) :
  np_div seterr x y = Exc e ->
  seterr = ErrRaise /\ y = 0 /\ e = FloatingPointError.
Proof.
  unfold np_div. destruct (Req_dec_T y 0); [destruct seterr|]; try discriminate.
  intros [= <-]. auto.
Qed.

Lemma mapM_np_div_ok (x : R) (l l' : list R) :
  mapM (fun y => np_div seterr y x) l = Ok l' -> l' = map (fun y => y / x) l.
Proof.
  revert l'; induction l as [|y l IH]; intros l'; simpl.
  - congruence.
  - destruct (np_div seterr y x) as [z|e] eqn:Hz; simpl; [|discriminate].
    destruct (mapM _ l) as [zs|e]; simpl; [|discriminate].
    intros [= <-]. apply np_div_ok in Hz. subst z. f_equal. now apply IH.
Qed.

Lemma mapM_np_div_exc (x : R) (l : list R) (e : exn) :
  mapM (fun y => np_div seterr y x) l = Exc e ->
  seterr = ErrRaise /\ x = 0 /\ e = FloatingPointError.
Proof.
  induction l as [|y l IH]; simpl; [discriminate|].
  destruct (np_div seterr y x) as [z|e0] eqn:Hz; simpl.
  - destruct (mapM _ l) as [zs|e1]; simpl; [discriminate|].
    intros [= <-]. now apply IH.
  - intros [= <-]. now apply np_div_exc in Hz.
Qed.

Lemma mdiv_scalar_ok (M M' : matrix) (x : R) :
  mdiv_scalar seterr M x = Ok M' -> M' = mmap (fun y => y / x) M.
Proof.
  unfold mdiv_scalar, mmap. revert M'; induction M as [|row M IH]; intros M'; simpl.
  - congruence.
  - destruct (mapM _ row) as [r|e] eqn:Hr; simpl; [|discriminate].
    destruct (mapM _ M) as [rs|e]; simpl; [|discriminate].
    intros [= <-]. apply mapM_np_div_ok in Hr. subst r. f_equal. now apply IH.
Qed.

Lemma mdiv_scalar_exc (M : matrix) (x : R) (e : exn) :
  mdiv_scalar seterr M x = Exc e ->
  seterr = ErrRaise /\ x = 0 /\ e = FloatingPointError.
Proof.
  unfold mdiv_scalar. induction M as [|row M IH]; simpl; [discriminate|].
  destruct (mapM _ row) as [r|e0] eqn:Hr; simpl.
  - destruct (mapM _ M) as [rs|e1]; simpl; [discriminate|].
    intros [= <-]. now apply IH.
  - intros [= <-]. now apply mapM_np_div_exc in Hr.
Qed.

(** When it returns, the normalization is the division of every entry by
    the maximum. *)
Lemma normalize_ok (cost_mat M : matrix) :
  normalize seterr cost_mat = Ok M ->
  exists cm, amax cost_mat = Ok cm /\ M = mmap (fun x => x / cm) cost_mat.
Proof.
  unfold normalize. destruct (amax cost_mat) as [cm|e]; simpl; [|discriminate].
  intros H. exists cm. split; [reflexivity|]. now apply mdiv_scalar_ok.
Qed.

(** It raises on an array with no entry and, when NumPy is set to raise,
    on a zero maximum; on nothing else. *)
Lemma normalize_exc (cost_mat : matrix) (e : exn) :
  normalize seterr cost_mat = Exc e ->
  (entries cost_mat = [] /\ e = ValueError) \/
  (seterr = ErrRaise /\ amax cost_mat = Ok 0 /\ e = FloatingPointError).
Proof.
  unfold normalize, amax. destruct (entries cost_mat) as [|x l]; simpl.
  - intros [= <-]. now left.
  - intros H. apply mdiv_scalar_exc in H. destruct H as (H1 & H2 & H3).
    right. rewrite H2. auto.
Qed.

End Normalization.

(** ** The drivers *)

Section DriverProperties.

Variable seterr : errmode.
Variable sinkhorn : vec -> vec -> matrix -> R -> matrix.
Variables cost_mat C1 C2 : matrix.
Variable alpha_linear : R.
Variables p q : vec.
Variable loss_fun : string.
Variable epsilon : R.
Variable max_iter : Z.
Variable tol : R.
Variable verbose : bool.
Variable log : pylog.

Local Abbreviation init := (init_state p q log).
Local Abbreviation GWA :=
  (gromov_wasserstein_adjusted seterr sinkhorn cost_mat C1 C2 alpha_linear
     p q loss_fun epsilon max_iter tol verbose log).
Local Abbreviation GWN :=
  (gromov_wasserstein_adjusted_norm seterr sinkhorn cost_mat C1 C2 alpha_linear
     p q loss_fun epsilon max_iter tol verbose log).
Local Abbreviation GWC :=
  (gromov_wasserstein_adjusted_combined seterr sinkhorn cost_mat C1 C2 alpha_linear
     p q loss_fun epsilon max_iter tol verbose log).
Local Abbreviation GWC' :=
  (gromov_wasserstein_adjusted_combined_without_normalization sinkhorn cost_mat
     C1 C2 alpha_linear p q loss_fun epsilon max_iter tol verbose log).
Local Abbreviation runA :=
  (adjusted_run seterr sinkhorn cost_mat C1 C2 alpha_linear
     p q loss_fun epsilon max_iter tol verbose log).
Local Abbreviation runN :=
  (norm_run seterr sinkhorn cost_mat C1 C2 alpha_linear
     p q loss_fun epsilon max_iter tol verbose log).
Local Abbreviation runC :=
  (combined_run seterr sinkhorn cost_mat C1 C2 alpha_linear
     p q loss_fun epsilon max_iter tol verbose log).
Local Abbreviation bodyA :=
  (adjusted_body sinkhorn C1 C2 alpha_linear p q loss_fun epsilon verbose).
Local Abbreviation bodyN :=
  (norm_body sinkhorn C1 C2 alpha_linear p q loss_fun epsilon verbose).
Local Abbreviation bodyC :=
  (combined_body sinkhorn cost_mat C1 C2 alpha_linear p q loss_fun epsilon verbose).
Local Abbreviation loop := (while_loop max_iter tol).
Local Abbreviation cmn := (cost_mat_norm seterr cost_mat).
Local Abbreviation rp := (replay sinkhorn p q epsilon (outer p q)).
Local Abbreviation inv := (loop_inv sinkhorn p q epsilon).
Local Abbreviation finv := (fault_inv sinkhorn p q epsilon).
Local Abbreviation costA := (adjusted_cost C1 C2).
Local Abbreviation costN := (norm_cost C1 C2).
Local Abbreviation costC := (combined_cost C1 C2 cost_mat alpha_linear).

Lemma init_tens_unbound : tens_unbound_unless_square loss_fun init.
Proof. intros _. reflexivity. Qed.

Lemma square_or_combined_l (T : matrix) :
  EvSquareLoss T = EvSquareLoss T \/ EvSquareLoss T = EvCombinedLoss T.
Proof. now left. Qed.

Lemma square_or_combined_r (T : matrix) :
  EvCombinedLoss T = EvSquareLoss T \/ EvCombinedLoss T = EvCombinedLoss T.
Proof. now right. Qed.

(** The three loops, from the initial locals. *)
Lemma adjusted_loop (cm : matrix) (fuel : nat) :
  match loop (bodyA cm) fuel init with
  | Done s => inv (costA cm alpha_linear) max_iter log s /\
              loop_cond max_iter tol s = false
  | Fault e s => finv (costA cm alpha_linear) max_iter s
  | NoFuel => True
  end.
Proof.
  apply (loop_result sinkhorn p q epsilon max_iter tol log
           (costA cm alpha_linear) EvSquareLoss
           (tens_unbound_unless_square loss_fun) (bodyA cm)).
  - apply square_or_combined_l.
  - intros s s'. apply adjusted_body_done.
  - intros s e s'. apply (adjusted_body_fault sinkhorn cost_mat).
  - apply inv_init.
  - apply init_tens_unbound.
Qed.

Lemma norm_loop (cm : matrix) (fuel : nat) :
  match loop (bodyN cm) fuel init with
  | Done s => inv (costN cm alpha_linear) max_iter log s /\
              loop_cond max_iter tol s = false
  | Fault e s => finv (costN cm alpha_linear) max_iter s
  | NoFuel => True
  end.
Proof.
  apply (loop_result sinkhorn p q epsilon max_iter tol log
           (costN cm alpha_linear) EvSquareLoss
           (tens_unbound_unless_square loss_fun) (bodyN cm)).
  - apply square_or_combined_l.
  - intros s s'. apply (norm_body_done sinkhorn cost_mat).
  - intros s e s'. apply (norm_body_fault sinkhorn cost_mat).
  - apply inv_init.
  - apply init_tens_unbound.
Qed.

Lemma combined_loop (fuel : nat) :
  match loop bodyC fuel init with
  | Done s => inv costC max_iter log s /\ loop_cond max_iter tol s = false
  | Fault e s => finv costC max_iter s
  | NoFuel => True
  end.
Proof.
  apply (loop_result sinkhorn p q epsilon max_iter tol log
           costC EvCombinedLoss
           (tens_unbound_unless_square loss_fun) bodyC).
  - apply square_or_combined_r.
  - intros s s'. apply combined_body_done.
  - intros s e s'. apply combined_body_fault.
  - apply inv_init.
  - apply init_tens_unbound.
Qed.

Lemma adjusted_loop_fuel (cm : matrix) (fuel : nat) :
  (Z.to_nat max_iter <= fuel)%nat ->
  loop (bodyA cm) fuel init = loop (bodyA cm) (Z.to_nat max_iter) init /\
  loop (bodyA cm) (Z.to_nat max_iter) init <> NoFuel.
Proof.
  intros Hfuel.
  apply (loop_fuel sinkhorn p q epsilon max_iter tol
           (costA cm alpha_linear) EvSquareLoss
           (tens_unbound_unless_square loss_fun) (bodyA cm)).
  - intros s s'. apply adjusted_body_done.
  - intros s. apply (bodies_fuel sinkhorn cost_mat).
  - simpl. rewrite Z.sub_0_r. lia.
  - exact Hfuel.
  - apply init_tens_unbound.
Qed.

Lemma norm_loop_fuel (cm : matrix) (fuel : nat) :
  (Z.to_nat max_iter <= fuel)%nat ->
  loop (bodyN cm) fuel init = loop (bodyN cm) (Z.to_nat max_iter) init /\
  loop (bodyN cm) (Z.to_nat max_iter) init <> NoFuel.
Proof.
  intros Hfuel.
  apply (loop_fuel sinkhorn p q epsilon max_iter tol
           (costN cm alpha_linear) EvSquareLoss
           (tens_unbound_unless_square loss_fun) (bodyN cm)).
  - intros s s'. apply (norm_body_done sinkhorn cost_mat).
  - intros s. apply (bodies_fuel sinkhorn cost_mat).
  - simpl. rewrite Z.sub_0_r. lia.
  - exact Hfuel.
  - apply init_tens_unbound.
Qed.

Lemma combined_loop_fuel (fuel : nat) :
  (Z.to_nat max_iter <= fuel)%nat ->
  loop bodyC fuel init = loop bodyC (Z.to_nat max_iter) init /\
  loop bodyC (Z.to_nat max_iter) init <> NoFuel.
Proof.
  intros Hfuel.
  apply (loop_fuel sinkhorn p q epsilon max_iter tol
           costC EvCombinedLoss
           (tens_unbound_unless_square loss_fun) bodyC).
  - intros s s'. apply combined_body_done.
  - intros s. apply (bodies_fuel sinkhorn cost_mat C1 C2 alpha_linear p q
                       loss_fun epsilon verbose []).
  - simpl. rewrite Z.sub_0_r. lia.
  - exact Hfuel.
  - apply init_tens_unbound.
Qed.

Lemma bounded_run_ext (shortcut : Prop) (run run' : nat -> outcome) :
  (forall fuel, run fuel = run' fuel) ->
  bounded_run sinkhorn p q epsilon max_iter tol log shortcut run' ->
  bounded_run sinkhorn p q epsilon max_iter tol log shortcut run.
Proof.
  intros Hext (H1 & H2 & H3 & H4). unfold bounded_run.
  split; [intros fuel Hf; rewrite !Hext; now apply H1|].
  split; [rewrite Hext; exact H2|].
  split.
  - intros s Hs. rewrite Hext in Hs. now apply H3.
  - intros e s Hs. rewrite Hext in Hs. eapply H4; eauto.
Qed.

Lemma bounded_fault_at_entry (e : exn) (shortcut : Prop) :
  (1 <= max_iter)%Z ->
  bounded_run sinkhorn p q epsilon max_iter tol log shortcut (fun _ => Fault e init).
Proof.
  intros Hmax. unfold bounded_run.
  split; [reflexivity|]. split; [discriminate|]. split; [discriminate|].
  intros e' s [= _ <-]. simpl. lia.
Qed.

Lemma bounded_loop (cost_rel : matrix -> matrix -> Prop)
  (body : state -> outcome) (shortcut : Prop) :
  (1 <= max_iter)%Z ->
  (forall fuel,
     match loop body fuel init with
     | Done s => inv cost_rel max_iter log s /\ loop_cond max_iter tol s = false
     | Fault e s => finv cost_rel max_iter s
     | NoFuel => True
     end) ->
  (forall fuel, (Z.to_nat max_iter <= fuel)%nat ->
     loop body fuel init = loop body (Z.to_nat max_iter) init /\
     loop body (Z.to_nat max_iter) init <> NoFuel) ->
  bounded_run sinkhorn p q epsilon max_iter tol log shortcut
    (fun fuel => loop body fuel init).
Proof.
  intros Hmax Hres Hfuel. unfold bounded_run.
  split; [intros fuel Hf; now apply Hfuel|].
  split; [apply (Hfuel (Z.to_nat max_iter)); lia|].
  split.
  - intros s Hs. specialize (Hres (Z.to_nat max_iter)). rewrite Hs in Hres.
    destruct Hres as ((Hc & HT & _ & _ & Hl & _ & Hsol) & Hcond).
    apply loop_cond_false in Hcond.
    split; [lia|]. split; [lia|]. split; [|split].
    + destruct Hcond as [H | H]; [now left | right; left; lia].
    + exact HT.
    + simpl. unfold finish. rewrite Hl at 1. now rewrite truthy_log_after.
  - intros e s Hs. specialize (Hres (Z.to_nat max_iter)). rewrite Hs in Hres.
    apply Hres.
Qed.

Lemma checked_loop (cost_rel : matrix -> matrix -> Prop) (body : state -> outcome) :
  (0 <= max_iter)%Z ->
  (forall fuel,
     match loop body fuel init with
     | Done s => inv cost_rel max_iter log s /\ loop_cond max_iter tol s = false
     | Fault e s => finv cost_rel max_iter s
     | NoFuel => True
     end) ->
  checked_every_tenth max_iter log (loop body (Z.to_nat max_iter) init).
Proof.
  intros Hmax Hres s Hs. specialize (Hres (Z.to_nat max_iter)). rewrite Hs in Hres.
  destruct Hres as ((Hc & _ & Hok & Hn & Hl & He & _) & _).
  assert (Hbound : (Z.of_nat (length (errors (st_trace s))) <= max_iter / 10 + 1)%Z).
  { rewrite Hn. Z.to_euclidean_division_equations. lia. }
  split; [|split; [exact He | split; [exact Hl | split; [exact Hbound|]]]].
  - intros c e Hin. eapply trace_ok_error; eauto.
  - intros errs Hlog Herrs. rewrite Hl, Hlog in Herrs. simpl in Herrs.
    injection Herrs as <-. exact Hbound.
Qed.

Lemma no_kl_loop (cost_rel : matrix -> matrix -> Prop) (body : state -> outcome)
  (fuel : nat) (s : state) (T : matrix) :
  match loop body fuel init with
  | Done s => inv cost_rel max_iter log s /\ loop_cond max_iter tol s = false
  | Fault e s => finv cost_rel max_iter s
  | NoFuel => True
  end ->
  final (loop body fuel init) = Some s ->
  ~ In (EvKLLoss T) (st_trace s).
Proof.
  destruct (loop body fuel init) as [s1|e s1|]; simpl; intros H [= <-].
  - destruct H as ((_ & _ & Hok & _) & _). eapply trace_ok_no_kl; eauto.
  - destruct H as (_ & Hok & _). eapply trace_ok_no_kl; eauto.
Qed.

Lemma loop_enters_unbound (body : state -> outcome) :
  (0 < max_iter)%Z -> tol < 1 ->
  body init = Fault UnboundLocalError init ->
  loop body (Z.to_nat max_iter) init = Fault UnboundLocalError init.
Proof.
  intros Hmax Htol Hbody.
  destruct (Z.to_nat max_iter) as [|n] eqn:Hn; [lia|].
  simpl. unfold loop_cond, Rltb. simpl.
  destruct (Rlt_dec tol 1); [|contradiction].
  replace (0 <? max_iter)%Z with true by (symmetry; now apply Z.ltb_lt).
  simpl. now rewrite Hbody.
Qed.

(** C2. With [alpha_linear == 1], [gromov_wasserstein_adjusted_norm]
    returns the output of [sinkhorn(p, q, cost_mat_norm, epsilon)], alone
    or paired with the untouched log: the trace holds that one solver call
    and nothing else (no tensor builder, no error computation), and the
    counter is still 0.  [cost_mat_norm] is the normalized cost whenever
    the normalization returns. *)
Theorem norm_alpha_one_is_direct_solve :
  alpha_linear = 1 ->
  GWN = Done (call_sinkhorn sinkhorn p q epsilon cmn init) /\
  returned GWN =
    Some (if truthy log then RetTLog (sinkhorn p q cmn epsilon) log
          else RetT (sinkhorn p q cmn epsilon)) /\
  (forall s, final GWN = Some s ->
     st_T s = sinkhorn p q cmn epsilon /\
     st_trace s = [EvSinkhorn cmn] /\
     st_cpt s = 0%Z /\
     st_tens s = None /\
     st_log s = log) /\
  (forall M, normalize seterr cost_mat = Ok M ->
     cmn = M /\
     exists cm, amax cost_mat = Ok cm /\ M = mmap (fun x => x / cm) cost_mat).
Proof.
  intros Halpha.
  assert (HN : GWN = Done (call_sinkhorn sinkhorn p q epsilon cmn init)).
  { unfold gromov_wasserstein_adjusted_norm, norm_run.
    destruct (Req_dec_T alpha_linear 1); [reflexivity | contradiction]. }
  split; [exact HN|]. rewrite HN. split; [|split].
  - simpl. unfold finish. simpl. reflexivity.
  - intros s [= <-]. simpl. auto.
  - intros M HM. split.
    + unfold cost_mat_norm. now rewrite HM.
    + now apply normalize_ok in HM.
Qed.

(** C3. With [max_iter >= 1] every driver terminates, in at most
    [max_iter] iterations; a run that leaves the loop because the counter
    reached [max_iter] while [err > tol] returns like a converged one: the
    coupling of the last solver call, in the shape [log] alone decides. *)
Theorem drivers_terminate :
  (1 <= max_iter)%Z ->
  bounded_run sinkhorn p q epsilon max_iter tol log False runA /\
  bounded_run sinkhorn p q epsilon max_iter tol log (alpha_linear = 1) runN /\
  bounded_run sinkhorn p q epsilon max_iter tol log False runC.
Proof.
  intros Hmax. split; [|split].
  - unfold adjusted_run.
    destruct (normalize seterr cost_mat) as [cm|e]; simpl.
    + apply (bounded_loop (costA cm alpha_linear)); auto.
      * apply adjusted_loop.
      * apply adjusted_loop_fuel.
    + now apply bounded_fault_at_entry.
  - unfold norm_run. destruct (Req_dec_T alpha_linear 1) as [Ha|Ha].
    + unfold bounded_run. split; [reflexivity|]. split; [discriminate|].
      split; [|discriminate].
      intros s [= <-]. simpl. unfold finish, solver_calls. simpl.
      repeat split; try lia; auto.
    + apply (bounded_loop (costN cmn alpha_linear)); auto.
      * apply norm_loop.
      * apply norm_loop_fuel.
  - unfold combined_run.
    destruct (normalize seterr cost_mat) as [cm|e]; simpl.
    + apply (bounded_loop costC); auto.
      * apply combined_loop.
      * apply combined_loop_fuel.
    + now apply bounded_fault_at_entry.
Qed.

(** C4. No driver ever calls the KL builder.  With a [loss_fun] other
    than ['square_loss'] (['kl_loss'] included), a call that enters the
    loop raises UnboundLocalError at the first read of [tens], in the
    first iteration, with no builder and no solver called: the locals are
    still the initial ones, [tens] unbound and the trace empty. *)
Theorem unwired_loss_fun_faults :
  ((forall s T, final GWA = Some s -> ~ In (EvKLLoss T) (st_trace s)) /\
   (forall s T, final GWN = Some s -> ~ In (EvKLLoss T) (st_trace s)) /\
   (forall s T, final GWC = Some s -> ~ In (EvKLLoss T) (st_trace s))) /\
  (loss_fun <> "square_loss"%string -> tol < 1 -> (0 < max_iter)%Z ->
   (forall cm, normalize seterr cost_mat = Ok cm ->
      GWA = Fault UnboundLocalError init) /\
   (alpha_linear <> 1 -> GWN = Fault UnboundLocalError init) /\
   (forall cm, normalize seterr cost_mat = Ok cm ->
      GWC = Fault UnboundLocalError init) /\
   st_tens init = None /\ st_trace init = []).
Proof.
  split.
  - split; [|split]; intros s T.
    + unfold gromov_wasserstein_adjusted, adjusted_run.
      destruct (normalize seterr cost_mat) as [cm|e]; simpl.
      * apply (no_kl_loop (costA cm alpha_linear)). apply adjusted_loop.
      * intros [= <-]. simpl. tauto.
    + unfold gromov_wasserstein_adjusted_norm, norm_run.
      destruct (Req_dec_T alpha_linear 1).
      * intros [= <-]. simpl. intros [H | H]; [discriminate | exact H].
      * apply (no_kl_loop (costN cmn alpha_linear)). apply norm_loop.
    + unfold gromov_wasserstein_adjusted_combined, combined_run.
      destruct (normalize seterr cost_mat) as [cm|e]; simpl.
      * apply (no_kl_loop costC). apply combined_loop.
      * intros [= <-]. simpl. tauto.
  - intros Hloss Htol Hmax. apply String.eqb_neq in Hloss.
    split; [|split; [|split; [|split; reflexivity]]].
    + intros cm Hcm. unfold gromov_wasserstein_adjusted, adjusted_run.
      rewrite Hcm. simpl. apply loop_enters_unbound; auto.
      apply (bodies_unbound sinkhorn cost_mat); auto.
    + intros Ha. unfold gromov_wasserstein_adjusted_norm, norm_run.
      destruct (Req_dec_T alpha_linear 1); [contradiction|].
      apply loop_enters_unbound; auto.
      apply (bodies_unbound sinkhorn cost_mat); auto.
    + intros cm Hcm. unfold gromov_wasserstein_adjusted_combined, combined_run.
      rewrite Hcm. simpl. apply loop_enters_unbound; auto.
      apply (bodies_unbound sinkhorn cost_mat C1 C2 alpha_linear p q loss_fun
               epsilon verbose []); auto.
Qed.

(** C5. In [gromov_wasserstein_adjusted] every cost handed to the solver
    is [tens + alpha_linear * ((cost_mat / cost_mat.max()) * tens.max())],
    where [tens] is the square-loss tensor of the coupling held at the
    start of that iteration, and its maximum is taken before the linear
    term is added. *)
Theorem adjusted_solver_cost (s : state) (pre post : list event) (M : matrix) :
  final GWA = Some s ->
  st_trace s = pre ++ EvSinkhorn M :: post ->
  exists cm tens mx,
    amax cost_mat = Ok cm /\
    normalize seterr cost_mat = Ok (mmap (fun x => x / cm) cost_mat) /\
    tensor_square_loss_mine C1 C2 (rp pre) = Ok tens /\
    amax tens = Ok mx /\
    M = madd tens
          (mscale_l alpha_linear
             (mscale_r (mmap (fun x => x / cm) cost_mat) mx)).
Proof.
  unfold gromov_wasserstein_adjusted, adjusted_run.
  destruct (normalize seterr cost_mat) as [cm1|e] eqn:Hnorm; simpl.
  - intros Hfin Htr.
    destruct (normalize_ok _ _ _ Hnorm) as (cm & Hcm & ->).
    assert (Hok : trace_ok sinkhorn p q epsilon
                    (costA (mmap (fun x => x / cm) cost_mat) alpha_linear)
                    (outer p q) (st_trace s)).
    { pose proof (adjusted_loop (mmap (fun x => x / cm) cost_mat)
                    (Z.to_nat max_iter)) as H.
      destruct (loop _ _ init) as [s1|e s1|]; simpl in Hfin;
        injection Hfin as <- || discriminate.
      - apply H.
      - apply H. }
    rewrite Htr in Hok. apply trace_ok_solver in Hok.
    destruct Hok as (tens & mx & Htens & Hmx & HM).
    exists cm, tens, mx. auto.
  - intros [= <-]. simpl. intros Htr. destruct pre; discriminate.
Qed.

(** C6, as the code has it.  When [cost_mat / cost_mat.max()] raises (on a
    [cost_mat] with no entry, or on a zero maximum when NumPy is set to
    raise), [gromov_wasserstein_adjusted_norm] takes the raw [cost_mat]
    as [cost_mat_norm] and goes on, while the other two drivers end with
    that exception before their loop. *)
Theorem normalization_fault_handling (e : exn) :
  normalize seterr cost_mat = Exc e ->
  ((entries cost_mat = [] /\ e = ValueError) \/
   (seterr = ErrRaise /\ amax cost_mat = Ok 0 /\ e = FloatingPointError)) /\
  cmn = cost_mat /\
  GWN = (if Req_dec_T alpha_linear 1
         then Done (call_sinkhorn sinkhorn p q epsilon cost_mat init)
         else loop (bodyN cost_mat) (Z.to_nat max_iter) init) /\
  GWA = Fault e init /\
  GWC = Fault e init.
Proof.
  intros Hnorm.
  assert (Hcmn : cmn = cost_mat) by (unfold cost_mat_norm; now rewrite Hnorm).
  split; [now apply (normalize_exc seterr)|]. split; [exact Hcmn|].
  assert (HN : GWN = (if Req_dec_T alpha_linear 1
         then Done (call_sinkhorn sinkhorn p q epsilon cost_mat init)
         else loop (bodyN cost_mat) (Z.to_nat max_iter) init)).
  { unfold gromov_wasserstein_adjusted_norm, norm_run. now rewrite Hcmn. }
  split; [exact HN|]. split.
  - unfold gromov_wasserstein_adjusted, adjusted_run. now rewrite Hnorm.
  - unfold gromov_wasserstein_adjusted_combined, combined_run. now rewrite Hnorm.
Qed.

(** C9, as the code has it.  In every driver the error is computed, and
    then logged and read by the loop condition, only in iterations whose
    counter is divisible by 10, so a call with [max_iter >= 0] appends at
    most [max_iter / 10 + 1] errors to the log: a log supplied with an
    empty ['err'] list comes back with at most that many entries. *)
Theorem error_checked_every_tenth :
  (0 <= max_iter)%Z ->
  checked_every_tenth max_iter log GWA /\
  checked_every_tenth max_iter log GWN /\
  checked_every_tenth max_iter log GWC.
Proof.
  intros Hmax. split; [|split].
  - unfold gromov_wasserstein_adjusted, adjusted_run.
    destruct (normalize seterr cost_mat) as [cm|e]; simpl.
    + apply (checked_loop (costA cm alpha_linear)); auto. apply adjusted_loop.
    + intros s Hs. discriminate.
  - unfold gromov_wasserstein_adjusted_norm, norm_run.
    destruct (Req_dec_T alpha_linear 1) as [Ha|Ha].
    + intros s [= <-]. simpl.
      assert (Hb : (0 <= max_iter / 10 + 1)%Z)
        by (Z.to_euclidean_division_equations; lia).
      repeat split; auto.
      * intros c0 e0 [H | H]; [discriminate | contradiction].
      * destruct log; simpl; try reflexivity. now rewrite app_nil_r.
      * intros errs Hlog Herrs. rewrite Hlog in Herrs. injection Herrs as <-.
        exact Hb.
    + apply (checked_loop (costN cmn alpha_linear)); auto. apply norm_loop.
  - unfold gromov_wasserstein_adjusted_combined, combined_run.
    destruct (normalize seterr cost_mat) as [cm|e]; simpl.
    + apply (checked_loop costC); auto. apply combined_loop.
    + intros s Hs. discriminate.
Qed.

(** C10, as the code has it.  [gromov_wasserstein_adjusted_combined]
    never reads [cost_mat1]: on every input on which
    [cost_mat / cost_mat.max()] does not raise, the driver ends exactly as
    the same driver without that assignment does (same coupling and log,
    or same exception); when it raises, the driver ends with that
    exception before its loop; so whenever the driver returns, the driver
    without the assignment returns the same. *)
Theorem combined_normalization_is_dead :
  (forall cm, normalize seterr cost_mat = Ok cm ->
     (forall fuel,
        runC fuel =
        combined_run_without_normalization sinkhorn cost_mat C1 C2 alpha_linear
          p q loss_fun epsilon max_iter tol verbose log fuel) /\
     GWC = GWC') /\
  (forall e, normalize seterr cost_mat = Exc e -> GWC = Fault e init) /\
  (forall r, returned GWC = Some r -> returned GWC' = Some r).
Proof.
  assert (Hok : forall cm, normalize seterr cost_mat = Ok cm ->
     forall fuel,
        runC fuel =
        combined_run_without_normalization sinkhorn cost_mat C1 C2 alpha_linear
          p q loss_fun epsilon max_iter tol verbose log fuel).
  { intros cm Hnorm fuel. unfold combined_run, combined_run_without_normalization.
    now rewrite Hnorm. }
  assert (Hexc : forall e, normalize seterr cost_mat = Exc e -> GWC = Fault e init).
  { intros e Hnorm. unfold gromov_wasserstein_adjusted_combined, combined_run.
    now rewrite Hnorm. }
  split; [|split].
  - intros cm Hnorm. split; [now apply (Hok cm)|].
    unfold gromov_wasserstein_adjusted_combined,
      gromov_wasserstein_adjusted_combined_without_normalization.
    now apply (Hok cm).
  - exact Hexc.
  - intros r Hr. destruct (normalize seterr cost_mat) as [cm|e] eqn:Hnorm.
    + unfold gromov_wasserstein_adjusted_combined,
        gromov_wasserstein_adjusted_combined_without_normalization in *.
      now rewrite <- (Hok cm eq_refl).
    + rewrite (Hexc e eq_refl) in Hr. discriminate.
Qed.

End DriverProperties.

(** ** Concrete calls *)

Lemma np_div_warn (x y : R) : np_div ErrWarn x y = Ok (x / y).
Proof. unfold np_div. now destruct (Req_dec_T y 0). Qed.

Lemma Rltb_true (x y : R) : x < y -> Rltb x y = true.
Proof. intros H. unfold Rltb. now destruct (Rlt_dec x y). Qed.

Lemma Rltb_false (x y : R) : ~ x < y -> Rltb x y = false.
Proof. intros H. unfold Rltb. now destruct (Rlt_dec x y). Qed.

Lemma while_loop_once (tol : R) (body : state -> outcome) (s s' : state) :
  tol < st_err s -> st_cpt s = 0%Z -> body s = Done s' -> st_cpt s' = 1%Z ->
  while_loop 1 tol body 1 s = Done s'.
Proof.
  intros Herr Hc Hb Hc'.
  assert (H1 : loop_cond 1 tol s = true).
  { unfold loop_cond. now rewrite (Rltb_true _ _ Herr), Hc. }
  assert (H2 : loop_cond 1 tol s' = false).
  { unfold loop_cond. rewrite Hc'. apply andb_false_r. }
  cbn [while_loop]. rewrite H1, Hb. cbn [andThen]. now rewrite H2.
Qed.

Lemma normalize_example : normalize ErrWarn [[2]] = Ok [[2 / 2]].
Proof. unfold normalize. cbn. now rewrite np_div_warn. Qed.

Lemma normalize_empty (seterr : errmode) : normalize seterr [] = Exc ValueError.
Proof. reflexivity. Qed.

Lemma tensor_kl_loss_mine_floor_witness :
  (forall row x, In row [[0; 1]; [1; 0]] -> In x row -> - log_floor < x) /\
  tensor_kl_loss_mine ErrRaise [[0; 1]; [1; 0]] [[0; 1]; [1; 0]] [[1; 0]; [0; 1]]
    <> Exc FloatingPointError.
Proof.
  assert (H : forall row x, In row [[0; 1]; [1; 0]] -> In x row -> - log_floor < x).
  { unfold log_floor. simpl. intros row x Hrow Hx.
    repeat (destruct Hrow as [<- | Hrow]; simpl in Hx;
            [repeat (destruct Hx as [<- | Hx]; [lra|]); contradiction|]).
    contradiction. }
  split; [exact H|].
  apply (tensor_kl_loss_mine_floor ErrRaise [[0; 1]; [1; 0]] [[0; 1]; [1; 0]] [[1; 0]; [0; 1]] H).
Defined.

Lemma norm_alpha_one_is_direct_solve_witness :
  1 = 1 /\
  gromov_wasserstein_adjusted_norm ErrWarn independent_solver [[2]] [[1]] [[1]] 1
    [1] [1] "square_loss" 0.1 1000 1e-9 false LogOff =
  Done (call_sinkhorn independent_solver [1] [1] 0.1 (cost_mat_norm ErrWarn [[2]])
          (init_state [1] [1] LogOff)).
Proof.
  split; [reflexivity|].
  apply (norm_alpha_one_is_direct_solve ErrWarn independent_solver [[2]] [[1]] [[1]] 1
           [1] [1] "square_loss" 0.1 1000 1e-9 false LogOff eq_refl).
Defined.

Lemma unwired_loss_fun_faults_witness :
  "kl_loss"%string <> "square_loss"%string /\ 1e-9 < 1 /\ (0 < 1000)%Z /\
  normalize ErrWarn [[2]] = Ok [[2 / 2]] /\ 0.5 <> 1 /\
  gromov_wasserstein_adjusted ErrWarn independent_solver [[2]] [[1]] [[1]] 0.5
    [1] [1] "kl_loss" 0.1 1000 1e-9 false LogOff =
    Fault UnboundLocalError (init_state [1] [1] LogOff) /\
  gromov_wasserstein_adjusted_norm ErrWarn independent_solver [[2]] [[1]] [[1]] 0.5
    [1] [1] "kl_loss" 0.1 1000 1e-9 false LogOff =
    Fault UnboundLocalError (init_state [1] [1] LogOff) /\
  gromov_wasserstein_adjusted_combined ErrWarn independent_solver [[2]] [[1]] [[1]] 0.5
    [1] [1] "kl_loss" 0.1 1000 1e-9 false LogOff =
    Fault UnboundLocalError (init_state [1] [1] LogOff).
Proof.
  assert (H1 : "kl_loss"%string <> "square_loss"%string) by discriminate.
  assert (H2 : 1e-9 < 1) by lra.
  assert (H3 : (0 < 1000)%Z) by lia.
  assert (H4 : 0.5 <> 1) by lra.
  destruct (unwired_loss_fun_faults ErrWarn independent_solver [[2]] [[1]] [[1]] 0.5
              [1] [1] "kl_loss" 0.1 1000 1e-9 false LogOff)
    as (_ & H).
  destruct (H H1 H2 H3) as (HA & HN & HC & _).
  repeat split; auto.
  - apply normalize_example.
  - apply (HA _ normalize_example).
  - apply (HC _ normalize_example).
Defined.

Lemma while_loop_skip (max_iter : Z) (tol : R) (body : state -> outcome)
  (fuel : nat) (s : state) :
  loop_cond max_iter tol s = false -> while_loop max_iter tol body fuel s = Done s.
Proof. intros H. destruct fuel; simpl; now rewrite H. Qed.

(** One iteration of the additive driver on 1 x 1 arrays, under NumPy's
    default error state, whatever the entry [c] of [cost_mat]. *)
Lemma adjusted_one_iteration (c : R) :
  exists s M err,
    gromov_wasserstein_adjusted ErrWarn independent_solver [[c]] [[1]] [[1]] 0.5
      [1] [1] "square_loss" 0.1 1 1e-9 false LogOff = Done s /\
    st_trace s = [EvSquareLoss [[1 * 1]]; EvSinkhorn M; EvError 0 err].
Proof.
  unfold gromov_wasserstein_adjusted, adjusted_run, normalize.
  cbn [amax entries concat app fold_left bind mdiv_scalar mapM].
  rewrite np_div_warn. cbn [bind attempt Z.to_nat Pos.to_nat Pos.iter_op Nat.add].
  eexists. eexists. eexists. split.
  - apply while_loop_once.
    + simpl. lra.
    + reflexivity.
    + unfold adjusted_body, dispatch_square. cbn. reflexivity.
    + reflexivity.
  - reflexivity.
Qed.

Lemma combined_one_iteration (c : R) :
  exists s,
    gromov_wasserstein_adjusted_combined ErrWarn independent_solver [[c]] [[1]] [[1]]
      0.5 [1] [1] "square_loss" 0.1 1 1e-9 false LogOff = Done s.
Proof.
  unfold gromov_wasserstein_adjusted_combined, combined_run, normalize.
  cbn [amax entries concat app fold_left bind mdiv_scalar mapM].
  rewrite np_div_warn. cbn [bind attempt Z.to_nat Pos.to_nat Pos.iter_op Nat.add].
  eexists. apply while_loop_once.
  - simpl. lra.
  - reflexivity.
  - unfold combined_body, dispatch_combined. cbn. reflexivity.
  - reflexivity.
Qed.

(** A call that uses up [max_iter = 1] with [err = 1 > tol]: it returns the
    coupling of its one solver call and the log with its one error. *)
Lemma adjusted_exhausted_example :
  exists s,
    gromov_wasserstein_adjusted ErrWarn (fixed_solver [[2]]) [[2]] [[1]] [[1]] 0.5
      [1] [1] "square_loss" 0.1 1 1e-9 false (LogDict []) = Done s /\
    st_cpt s = 1%Z /\ st_err s = 1 /\ 1e-9 < st_err s /\
    st_log s = LogDict [st_err s] /\
    solver_calls (st_trace s) = 1%nat /\
    returned (Done s) = Some (RetTLog [[2]] (LogDict [st_err s])).
Proof.
  unfold gromov_wasserstein_adjusted, adjusted_run, normalize.
  cbn [amax entries concat app fold_left bind mdiv_scalar mapM].
  rewrite np_div_warn. cbn [bind attempt Z.to_nat Pos.to_nat Pos.iter_op Nat.add].
  assert (Herr : linalg_norm [[2 - 1 * 1]] = 1).
  { unfold linalg_norm. cbn.
    replace ((2 - 1 * 1) * (2 - 1 * 1) + 0) with 1 by lra. apply sqrt_1. }
  eexists. split.
  - apply while_loop_once.
    + simpl. lra.
    + reflexivity.
    + unfold adjusted_body, dispatch_square. cbn. rewrite Herr. reflexivity.
    + reflexivity.
  - cbn. repeat split; try reflexivity. lra.
Qed.

(** C9, as stated, fails: the bound is on what a call appends, not on what
    the returned list holds.  A call with [max_iter = 1] on a log whose
    ['err'] list already has three entries returns it with four, more than
    [1 / 10 + 1 = 1]. *)
Lemma preloaded_log_exceeds_bound :
  exists s,
    gromov_wasserstein_adjusted ErrWarn (fixed_solver [[2]]) [[2]] [[1]] [[1]] 0.5
      [1] [1] "square_loss" 0.1 1 1e-9 false (LogDict [5; 5; 5]) = Done s /\
    st_err s = 1 /\
    returned (Done s) = Some (RetTLog [[2]] (LogDict [5; 5; 5; 1])) /\
    ~ (Z.of_nat (length [5; 5; 5; 1]) <= 1 / 10 + 1)%Z.
Proof.
  unfold gromov_wasserstein_adjusted, adjusted_run, normalize.
  cbn [amax entries concat app fold_left bind mdiv_scalar mapM].
  rewrite np_div_warn. cbn [bind attempt Z.to_nat Pos.to_nat Pos.iter_op Nat.add].
  assert (Herr : linalg_norm [[2 - 1 * 1]] = 1).
  { unfold linalg_norm. cbn.
    replace ((2 - 1 * 1) * (2 - 1 * 1) + 0) with 1 by lra. apply sqrt_1. }
  eexists. split.
  - apply while_loop_once.
    + simpl. lra.
    + reflexivity.
    + unfold adjusted_body, dispatch_square. cbn. rewrite Herr. reflexivity.
    + reflexivity.
  - cbn. repeat split; try reflexivity. intros H. vm_compute in H. now apply H.
Qed.

Lemma adjusted_solver_cost_witness :
  exists s pre post M,
    final (gromov_wasserstein_adjusted ErrWarn independent_solver [[2]] [[1]] [[1]]
             0.5 [1] [1] "square_loss" 0.1 1 1e-9 false LogOff) = Some s /\
    st_trace s = pre ++ EvSinkhorn M :: post /\
    exists cm tens mx,
      amax [[2]] = Ok cm /\
      normalize ErrWarn [[2]] = Ok (mmap (fun x => x / cm) [[2]]) /\
      tensor_square_loss_mine [[1]] [[1]]
        (replay independent_solver [1] [1] 0.1 (outer [1] [1]) pre) = Ok tens /\
      amax tens = Ok mx /\
      M = madd tens (mscale_l 0.5 (mscale_r (mmap (fun x => x / cm) [[2]]) mx)).
Proof.
  destruct (adjusted_one_iteration 2) as (s & M & err & Hrun & Htr).
  exists s, [EvSquareLoss [[1 * 1]]], [EvError 0 err], M.
  assert (Hfin : final (gromov_wasserstein_adjusted ErrWarn independent_solver
                          [[2]] [[1]] [[1]] 0.5 [1] [1] "square_loss" 0.1 1 1e-9
                          false LogOff) = Some s)
    by (rewrite Hrun; reflexivity).
  split; [exact Hfin|]. split; [exact Htr|].
  apply (adjusted_solver_cost ErrWarn independent_solver [[2]] [[1]] [[1]] 0.5
           [1] [1] "square_loss" 0.1 1 1e-9 false LogOff s
           [EvSquareLoss [[1 * 1]]] [EvError 0 err] M Hfin Htr).
Defined.

(** C6, as stated, fails: under NumPy's default error state a
    [cost_mat] whose maximum is zero raises nothing: the normalization
    returns the quotient (so no except branch runs), and the two drivers
    without a guard run their loop and return. *)
Lemma zero_maximum_raises_nothing :
  amax [[0]] = Ok 0 /\
  normalize ErrWarn [[0]] = Ok [[0 / 0]] /\
  (exists s,
     gromov_wasserstein_adjusted ErrWarn independent_solver [[0]] [[1]] [[1]] 0.5
       [1] [1] "square_loss" 0.1 1 1e-9 false LogOff = Done s) /\
  (exists s,
     gromov_wasserstein_adjusted_combined ErrWarn independent_solver [[0]] [[1]] [[1]]
       0.5 [1] [1] "square_loss" 0.1 1 1e-9 false LogOff = Done s).
Proof.
  split; [reflexivity|]. split; [|split].
  - unfold normalize. cbn. now rewrite np_div_warn.
  - destruct (adjusted_one_iteration 0) as (s & _ & _ & Hrun & _). now exists s.
  - apply combined_one_iteration.
Qed.

Lemma normalization_fault_handling_witness :
  normalize ErrWarn [] = Exc ValueError /\
  cost_mat_norm ErrWarn [] = [] /\
  gromov_wasserstein_adjusted ErrWarn independent_solver [] [] [] 0.5 [] []
    "square_loss" 0.1 1000 1e-9 false LogOff =
    Fault ValueError (init_state [] [] LogOff) /\
  gromov_wasserstein_adjusted_combined ErrWarn independent_solver [] [] [] 0.5 [] []
    "square_loss" 0.1 1000 1e-9 false LogOff =
    Fault ValueError (init_state [] [] LogOff).
Proof.
  destruct (normalization_fault_handling ErrWarn independent_solver [] [] [] 0.5
              [] [] "square_loss" 0.1 1000 1e-9 false LogOff ValueError
              (normalize_empty ErrWarn))
    as (_ & Hcmn & _ & HA & HC).
  split; [apply normalize_empty|]. split; [exact Hcmn|]. split; [exact HA | exact HC].
Defined.

Lemma drivers_terminate_witness :
  (1 <= 1)%Z /\
  bounded_run (fixed_solver [[2]]) [1] [1] 0.1 1 1e-9 (LogDict []) False
    (adjusted_run ErrWarn (fixed_solver [[2]]) [[2]] [[1]] [[1]] 0.5 [1] [1]
       "square_loss" 0.1 1 1e-9 false (LogDict [])) /\
  bounded_run (fixed_solver [[2]]) [1] [1] 0.1 1 1e-9 (LogDict []) (0.5 = 1)
    (norm_run ErrWarn (fixed_solver [[2]]) [[2]] [[1]] [[1]] 0.5 [1] [1]
       "square_loss" 0.1 1 1e-9 false (LogDict [])) /\
  bounded_run (fixed_solver [[2]]) [1] [1] 0.1 1 1e-9 (LogDict []) False
    (combined_run ErrWarn (fixed_solver [[2]]) [[2]] [[1]] [[1]] 0.5 [1] [1]
       "square_loss" 0.1 1 1e-9 false (LogDict [])) /\
  exists s,
    gromov_wasserstein_adjusted ErrWarn (fixed_solver [[2]]) [[2]] [[1]] [[1]] 0.5
      [1] [1] "square_loss" 0.1 1 1e-9 false (LogDict []) = Done s /\
    st_cpt s = 1%Z /\ 1e-9 < st_err s /\
    returned (Done s) = Some (RetTLog [[2]] (LogDict [st_err s])).
Proof.
  assert (H : (1 <= 1)%Z) by lia.
  split; [exact H|].
  destruct (drivers_terminate ErrWarn (fixed_solver [[2]]) [[2]] [[1]] [[1]] 0.5
              [1] [1] "square_loss" 0.1 1 1e-9 false (LogDict []) H)
    as (HA & HN & HC).
  split; [exact HA|]. split; [exact HN|]. split; [exact HC|].
  destruct adjusted_exhausted_example as (s & Hrun & Hc & _ & He & _ & _ & Hret).
  exists s. auto.
Defined.

Lemma error_checked_every_tenth_witness :
  (0 <= 1)%Z /\
  checked_every_tenth 1 (LogDict [])
    (gromov_wasserstein_adjusted ErrWarn (fixed_solver [[2]]) [[2]] [[1]] [[1]] 0.5
       [1] [1] "square_loss" 0.1 1 1e-9 false (LogDict [])) /\
  checked_every_tenth 1 (LogDict [])
    (gromov_wasserstein_adjusted_norm ErrWarn (fixed_solver [[2]]) [[2]] [[1]] [[1]]
       0.5 [1] [1] "square_loss" 0.1 1 1e-9 false (LogDict [])) /\
  checked_every_tenth 1 (LogDict [])
    (gromov_wasserstein_adjusted_combined ErrWarn (fixed_solver [[2]]) [[2]] [[1]]
       [[1]] 0.5 [1] [1] "square_loss" 0.1 1 1e-9 false (LogDict [])) /\
  exists s,
    gromov_wasserstein_adjusted ErrWarn (fixed_solver [[2]]) [[2]] [[1]] [[1]] 0.5
      [1] [1] "square_loss" 0.1 1 1e-9 false (LogDict []) = Done s /\
    st_log s = LogDict [st_err s].
Proof.
  assert (H : (0 <= 1)%Z) by lia.
  split; [exact H|].
  destruct (error_checked_every_tenth ErrWarn (fixed_solver [[2]]) [[2]] [[1]] [[1]]
              0.5 [1] [1] "square_loss" 0.1 1 1e-9 false (LogDict []) H)
    as (HA & HN & HC).
  split; [exact HA|]. split; [exact HN|]. split; [exact HC|].
  destruct adjusted_exhausted_example as (s & Hrun & _ & _ & _ & Hlog & _).
  exists s. auto.
Defined.

Lemma combined_normalization_is_dead_witness :
  normalize ErrWarn [[2]] = Ok [[2 / 2]] /\
  gromov_wasserstein_adjusted_combined ErrWarn independent_solver [[2]] [[1]] [[1]]
    0.5 [1] [1] "square_loss" 0.1 1000 1e-9 false LogOff =
  gromov_wasserstein_adjusted_combined_without_normalization independent_solver
    [[2]] [[1]] [[1]] 0.5 [1] [1] "square_loss" 0.1 1000 1e-9 false LogOff.
Proof.
  split; [apply normalize_example|].
  destruct (combined_normalization_is_dead ErrWarn independent_solver [[2]] [[1]] [[1]]
              0.5 [1] [1] "square_loss" 0.1 1000 1e-9 false LogOff)
    as (Hok & _ & _).
  apply (Hok _ normalize_example).
Defined.

(** C10, as stated, fails: on a [cost_mat] with no entry the
    normalization raises ValueError, so the driver returns nothing, while
    the driver without the assignment, called with [tol = 1], skips its
    loop and returns the initial coupling. *)
Lemma combined_normalization_can_raise :
  gromov_wasserstein_adjusted_combined ErrWarn independent_solver [] [] [] 0.5 [] []
    "square_loss" 0.1 1000 1 false LogOff =
    Fault ValueError (init_state [] [] LogOff) /\
  gromov_wasserstein_adjusted_combined_without_normalization independent_solver
    [] [] [] 0.5 [] [] "square_loss" 0.1 1000 1 false LogOff =
    Done (init_state [] [] LogOff) /\
  returned (gromov_wasserstein_adjusted_combined ErrWarn independent_solver [] [] []
              0.5 [] [] "square_loss" 0.1 1000 1 false LogOff) = None /\
  returned (gromov_wasserstein_adjusted_combined_without_normalization
              independent_solver [] [] [] 0.5 [] [] "square_loss" 0.1 1000 1 false
              LogOff) = Some (RetT []).
Proof.
  assert (H1 : gromov_wasserstein_adjusted_combined ErrWarn independent_solver
                 [] [] [] 0.5 [] [] "square_loss" 0.1 1000 1 false LogOff =
               Fault ValueError (init_state [] [] LogOff)) by reflexivity.
  assert (H2 : gromov_wasserstein_adjusted_combined_without_normalization
                 independent_solver [] [] [] 0.5 [] [] "square_loss" 0.1 1000 1
                 false LogOff = Done (init_state [] [] LogOff)).
  { unfold gromov_wasserstein_adjusted_combined_without_normalization,
      combined_run_without_normalization.
    apply while_loop_skip. unfold loop_cond. simpl st_err.
    rewrite Rltb_false by lra. reflexivity. }
  split; [exact H1|]. split; [exact H2|]. rewrite H1, H2. split; reflexivity.
Qed.

(** * Further properties *)

(** ** The tensor builders on the documented shapes *)

Section BuilderShapes.

Lemma length_zip_with (f : R -> R -> R) (a b : list R) (c : nat) :
  length a = c -> length b = c -> length (zip_with f a b) = c.
Proof.
  revert b c; induction a as [|x a IH]; intros [|y b] c Ha Hb; simpl in *; try lia.
  destruct c; [lia|]. f_equal. apply IH; lia.
Qed.

Lemma shape_mzip_with (f : R -> R -> R) (r c : nat) (A B : matrix) :
  shape r c A -> shape r c B -> shape r c (mzip_with f A B).
Proof.
  revert r B; induction A as [|a A IH]; intros r [|b B] [HA1 HA2] [HB1 HB2];
    simpl in *; try (unfold shape; simpl; split; [lia | constructor]).
  destruct r; [lia|].
  inversion HA2 as [|? ? Ha HA]; inversion HB2 as [|? ? Hb HB]; subst.
  destruct (IH r B) as [H1 H2]; [split; [lia | assumption] | split; [lia | assumption] |].
  split; [simpl; lia|]. constructor; [now apply length_zip_with | exact H2].
Qed.

Lemma shape_nonlinear (ns nt : nat) (C1 C2 T : matrix) :
  (1 <= nt)%nat -> shape ns ns C1 -> shape nt nt C2 ->
  shape ns nt (dot (dot C1 T) (transpose C2)).
Proof.
  intros Hnt HC1 HC2. apply shape_dot.
  - unfold dot. rewrite length_map. apply HC1.
  - apply (ncols_shape nt nt); [lia|]. now apply shape_transpose.
Qed.

Lemma entries_empty_rows (M : matrix) : M = [] -> entries M = [].
Proof. now intros ->. Qed.

Lemma nonlinear_empty (ns nt : nat) (C1 C2 T : matrix) :
  shape ns ns C1 -> shape nt nt C2 -> ns = 0%nat \/ nt = 0%nat ->
  entries (dot (dot C1 T) (transpose C2)) = [].
Proof.
  intros [HC1 _] [HC2 _] [H | H]; subst.
  - destruct C1; [reflexivity | discriminate].
  - destruct C2; [|discriminate]. change (transpose []) with (@nil (list R)).
    unfold entries. unfold dot at 1. simpl.
    induction (dot C1 T) as [|a l IH]; simpl; auto.
Qed.

Lemma amax_defined (r c : nat) (M : matrix) :
  (1 <= r)%nat -> (1 <= c)%nat -> shape r c M -> exists m, amax M = Ok m.
Proof.
  intros Hr Hc HM. pose proof (shape_entries_nonempty _ _ _ Hr Hc HM) as Hne.
  unfold amax. destruct (entries M); [congruence | eauto].
Qed.

Lemma square_builder_returns (ns nt : nat) (C1 C2 T : matrix) :
  (1 <= ns)%nat -> (1 <= nt)%nat -> shape ns ns C1 -> shape nt nt C2 ->
  exists m,
    amin (mneg (dot (dot C1 T) (transpose C2))) = Ok m /\
    tensor_square_loss_mine C1 C2 T =
      Ok (msub_scalar (mneg (dot (dot C1 T) (transpose C2))) m).
Proof.
  intros Hns Hnt HC1 HC2.
  pose proof (shape_nonlinear ns nt C1 C2 T Hnt HC1 HC2) as HN.
  destruct (amin_defined ns nt (mneg (dot (dot C1 T) (transpose C2))) Hns Hnt)
    as [m Hm]; [now apply shape_mmap|].
  exists m. split; [exact Hm|].
  unfold tensor_square_loss_mine, SquareLoss.h1, SquareLoss.h2. now rewrite Hm.
Qed.

Lemma combined_builder_returns
  (ns nt : nat) (C1 C2 T cost_mat : matrix) (alpha_linear : R) :
  (1 <= ns)%nat -> (1 <= nt)%nat ->
  shape ns ns C1 -> shape nt nt C2 -> shape ns nt T -> shape ns nt cost_mat ->
  exists mx m,
    amax (dot (dot C1 T) (transpose C2)) = Ok mx /\
    shape ns nt (msub (mneg (dot (dot C1 T) (transpose C2)))
                   (mscale_l alpha_linear (mscale_r (mmul cost_mat T) mx))) /\
    amin (msub (mneg (dot (dot C1 T) (transpose C2)))
            (mscale_l alpha_linear (mscale_r (mmul cost_mat T) mx))) = Ok m /\
    tensor_square_loss_mine_combined C1 C2 T cost_mat alpha_linear =
      Ok (msub_scalar
            (msub (mneg (dot (dot C1 T) (transpose C2)))
               (mscale_l alpha_linear (mscale_r (mmul cost_mat T) mx))) m).
Proof.
  intros Hns Hnt HC1 HC2 HT Hcm.
  pose proof (shape_nonlinear ns nt C1 C2 T Hnt HC1 HC2) as HN.
  destruct (amax_defined _ _ _ Hns Hnt HN) as [mx Hmx].
  assert (Hraw : shape ns nt
            (msub (mneg (dot (dot C1 T) (transpose C2)))
               (mscale_l alpha_linear (mscale_r (mmul cost_mat T) mx)))).
  { apply shape_mzip_with.
    - now apply shape_mmap.
    - apply shape_mmap, shape_mmap. now apply shape_mzip_with. }
  destruct (amin_defined _ _ _ Hns Hnt Hraw) as [m Hm].
  exists mx, m. split; [exact Hmx|]. split; [exact Hraw|]. split; [exact Hm|].
  unfold tensor_square_loss_mine_combined, SquareLoss.h1, SquareLoss.h2.
  rewrite Hmx. simpl. rewrite Hm. reflexivity.
Qed.

Lemma square_builders_empty
  (ns nt : nat) (C1 C2 T cost_mat : matrix) (alpha_linear : R) :
  shape ns ns C1 -> shape nt nt C2 -> ns = 0%nat \/ nt = 0%nat ->
  tensor_square_loss_mine C1 C2 T = Exc ValueError /\
  tensor_square_loss_mine_combined C1 C2 T cost_mat alpha_linear = Exc ValueError.
Proof.
  intros HC1 HC2 H0. pose proof (nonlinear_empty ns nt C1 C2 T HC1 HC2 H0) as He.
  unfold tensor_square_loss_mine_combined, tensor_square_loss_mine,
    SquareLoss.h1, SquareLoss.h2, amax, amin, mneg.
  rewrite entries_mmap, He. split; reflexivity.
Qed.

(** X3. On the documented shapes the two square-loss builders raise
    exactly when ns = 0 or nt = 0, and what they raise is ValueError (the
    reduction of an array with no entry). *)
Theorem square_builders_raise_on_empty
  (ns nt : nat) (C1 C2 T cost_mat : matrix) (alpha_linear : R) :
  shape ns ns C1 -> shape nt nt C2 -> shape ns nt T -> shape ns nt cost_mat ->
  ((exists e, tensor_square_loss_mine C1 C2 T = Exc e) <->
     ns = 0%nat \/ nt = 0%nat) /\
  ((exists e, tensor_square_loss_mine_combined C1 C2 T cost_mat alpha_linear = Exc e)
     <-> ns = 0%nat \/ nt = 0%nat) /\
  (forall e, tensor_square_loss_mine C1 C2 T = Exc e -> e = ValueError) /\
  (forall e, tensor_square_loss_mine_combined C1 C2 T cost_mat alpha_linear = Exc e ->
     e = ValueError).
Proof.
  intros HC1 HC2 HT Hcm.
  assert (Hempty : ns = 0%nat \/ nt = 0%nat ->
            tensor_square_loss_mine C1 C2 T = Exc ValueError /\
            tensor_square_loss_mine_combined C1 C2 T cost_mat alpha_linear
              = Exc ValueError).
  { intros H0. now apply (square_builders_empty ns nt). }
  assert (Hfull : (1 <= ns)%nat -> (1 <= nt)%nat ->
            (exists t, tensor_square_loss_mine C1 C2 T = Ok t) /\
            (exists t, tensor_square_loss_mine_combined C1 C2 T cost_mat alpha_linear
                       = Ok t)).
  { intros Hns Hnt. split.
    - destruct (square_builder_returns ns nt C1 C2 T Hns Hnt HC1 HC2)
        as (m & _ & H). eauto.
    - destruct (combined_builder_returns ns nt C1 C2 T cost_mat alpha_linear
                  Hns Hnt HC1 HC2 HT Hcm) as (mx & m & _ & _ & _ & H). eauto. }
  assert (Hcases : (ns = 0%nat \/ nt = 0%nat) \/ ((1 <= ns)%nat /\ (1 <= nt)%nat))
    by lia.
  repeat split.
  - intros [e He]. destruct Hcases as [H | [H1 H2]]; [exact H|].
    destruct (Hfull H1 H2) as [[t Ht] _]. congruence.
  - intros H. exists ValueError. now apply Hempty.
  - intros [e He]. destruct Hcases as [H | [H1 H2]]; [exact H|].
    destruct (Hfull H1 H2) as [_ [t Ht]]. congruence.
  - intros H. exists ValueError. now apply Hempty.
  - intros e He. destruct Hcases as [H | [H1 H2]].
    + destruct (Hempty H) as [H' _]. congruence.
    + destruct (Hfull H1 H2) as [[t Ht] _]. congruence.
  - intros e He. destruct Hcases as [H | [H1 H2]].
    + destruct (Hempty H) as [_ H']. congruence.
    + destruct (Hfull H1 H2) as [_ [t Ht]]. congruence.
Qed.

End BuilderShapes.

(** ** Faults inside a traversal *)

Section Traversals.

Lemma mapM_exc_in {A B : Type} (f : A -> res B) (l : list A) (e : exn) :
  mapM f l = Exc e -> exists x, In x l /\ f x = Exc e.
Proof.
  induction l as [|x l IH]; simpl; [discriminate|].
  destruct (f x) as [y|e0] eqn:Hx; simpl.
  - destruct (mapM f l) as [ys|e1]; simpl; [discriminate|].
    intros [= <-]. destruct (IH eq_refl) as (z & Hz & Hfz). exists z. auto.
  - intros [= <-]. exists x. auto.
Qed.

Lemma mapM_in_exc {A B : Type} (f : A -> res B) (l : list A) (x : A) (e : exn) :
  In x l -> f x = Exc e -> exists e', mapM f l = Exc e'.
Proof.
  induction l as [|y l IH]; simpl; [contradiction|].
  intros [-> | Hin] Hx.
  - rewrite Hx. simpl. eauto.
  - destruct (f y); simpl; [|eauto].
    destruct (IH Hin Hx) as [e' ->]. simpl. eauto.
Qed.

Lemma mdiv_scalar_nonzero (seterr : errmode) (M : matrix) (c : R) :
  c <> 0 -> mdiv_scalar seterr M c = Ok (mmap (fun y => y / c) M).
Proof.
  intros Hc. unfold mdiv_scalar, mmap.
  induction M as [|row M IH]; simpl; [reflexivity|].
  assert (Hrow : mapM (fun y => np_div seterr y c) row = Ok (map (fun y => y / c) row)).
  { induction row as [|y row IHr]; simpl; [reflexivity|].
    unfold np_div at 1. destruct (Req_dec_T c 0); [contradiction|]. simpl.
    now rewrite IHr. }
  rewrite Hrow. simpl. now rewrite IH.
Qed.

End Traversals.

(** ** The barycenter updates *)

Section BarycenterUpdates.

Variable seterr : errmode.

(** *** Entries of the arrays the updates build *)

Lemma nth_nil {A : Type} (j : nat) (d : A) : nth j [] d = d.
Proof. now destruct j. Qed.















(** *** Python's [sum] and [np.divide] *)









(** *** [np.exp] *)


Lemma np_exp_exc (x : R) (e : exn) : np_exp seterr x = Exc e -> e = FloatingPointError.
Proof.
  unfold np_exp. destruct seterr; [discriminate|].
  destruct (Rle_dec _ _); [congruence|].
  destruct (Rlt_dec _ _); [congruence | discriminate].
Qed.


Lemma mexp_exc (M : matrix) (e : exn) : mexp seterr M = Exc e -> e = FloatingPointError.
Proof.
  unfold mexp. intros He. apply mapM_exc_in in He. destruct He as (row & _ & He).
  apply mapM_exc_in in He. destruct He as (x & _ & He). now apply np_exp_exc in He.
Qed.


(** *** The terms of the sum *)

Lemma index_ok {A : Type} (l : list A) (s : nat) :
  (s < length l)%nat -> exists a, index l s = Ok a.
Proof.
  intros H. unfold index. destruct (nth_error l s) eqn:E; [eauto|].
  apply nth_error_None in E. lia.
Qed.


Lemma index_exc {A : Type} (l : list A) (s : nat) (e : exn) :
  index l s = Exc e <-> (length l <= s)%nat /\ e = IndexError.
Proof.
  unfold index. destruct (nth_error l s) eqn:E; split.
  - discriminate.
  - intros [H _]. apply nth_error_None in H. congruence.
  - intros [= <-]. apply nth_error_None in E. auto.
  - intros [_ ->]. reflexivity.
Qed.

Lemma index_firstn {A : Type} (l : list A) (n s : nat) :
  (s < n)%nat -> index (firstn n l) s = index l s.
Proof. intros H. unfold index. now rewrite nth_error_firstn, (proj2 (Nat.ltb_lt s n) H). Qed.


Lemma mapM_ext_in {A B : Type} (f g : A -> res B) (l : list A) :
  (forall x, In x l -> f x = g x) -> mapM f l = mapM g l.
Proof.
  induction l as [|x l IH]; intros H; simpl; [reflexivity|].
  rewrite (H x) by now left.
  rewrite IH by (intros y Hy; apply H; now right). reflexivity.
Qed.

Lemma np_divide_only_floating_point (a : pysum) (B : matrix) (e : exn) :
  np_divide seterr a B = Exc e -> e = FloatingPointError.
Proof.
  destruct a as [|A]; simpl.
  - intros He. apply mapM_exc_in in He. destruct He as (row & _ & He).
    apply mapM_exc_in in He. destruct He as (d & _ & He).
    now apply np_div_exc in He.
  - revert B; induction A as [|a A IH]; intros [|b B]; simpl; try discriminate.
    destruct (zip_withM (np_div seterr) a b) as [r|e0] eqn:Hr; simpl.
    + destruct (mzip_withM (np_div seterr) A B) as [rs|e1] eqn:Hrs; simpl;
        [discriminate|].
      intros [= <-]. now apply (IH B).
    + intros [= <-]. clear IH. revert b Hr.
      induction a as [|x a IHa]; intros [|y b]; simpl; try discriminate.
      destruct (np_div seterr x y) as [z|e2] eqn:Hz; simpl.
      * destruct (zip_withM (np_div seterr) a b) as [zs|e3] eqn:Hzs; simpl;
          [discriminate|].
        intros [= <-]. now apply (IHa b).
      * intros [= <-]. now apply np_div_exc in Hz.
Qed.




End BarycenterUpdates.

(** ** The barycenter updates at their bounds *)

Section UpdateBounds.

Variable seterr : errmode.

(** X9. The two updates index [lambdas] and [Cs] by the positions of [T].
    On couplings and cost matrices of the documented shapes (each [T[s]]
    is n x N and [Cs[s]] is n x n, with N the length of [p]): under
    NumPy's default error state they raise IndexError exactly when
    [lambdas] or [Cs] is shorter than [T]; under any error state an
    IndexError means that one of them is shorter; and what [lambdas] and
    [Cs] hold past the length of [T] is never read: the call ends as the
    call on their first [len(T)] entries does. *)
Theorem updates_index_bounds (p : vec) (lambdas : list R) (T Cs : list matrix) :
  (forall s Ts C,
     nth_error T s = Some Ts -> nth_error Cs s = Some C ->
     exists n, shape n (length p) Ts /\ shape n n C) ->
  (update_square_loss_mine ErrWarn p lambdas T Cs = Exc IndexError <->
     (length lambdas < length T)%nat \/ (length Cs < length T)%nat) /\
  (update_kl_loss_mine ErrWarn p lambdas T Cs = Exc IndexError <->
     (length lambdas < length T)%nat \/ (length Cs < length T)%nat) /\
  (update_square_loss_mine seterr p lambdas T Cs = Exc IndexError ->
     (length lambdas < length T)%nat \/ (length Cs < length T)%nat) /\
  (update_kl_loss_mine seterr p lambdas T Cs = Exc IndexError ->
     (length lambdas < length T)%nat \/ (length Cs < length T)%nat) /\
  update_square_loss_mine seterr p lambdas T Cs =
    update_square_loss_mine seterr p
      (firstn (length T) lambdas) T (firstn (length T) Cs) /\
  update_kl_loss_mine seterr p lambdas T Cs =
    update_kl_loss_mine seterr p
      (firstn (length T) lambdas) T (firstn (length T) Cs).
Proof.
  intros _.
  set (term := fun s : nat =>
                 lam <- index lambdas s ;;
                 Ts <- index T s ;;
                 C <- index Cs s ;;
                 Ts' <- index T s ;;
                 Ok (mscale_l lam (dot (dot (transpose Ts) C) Ts'))).
  assert (Hterm_exc : forall s e, term s = Exc e ->
            e = IndexError /\
            ((length lambdas <= s)%nat \/ (length T <= s)%nat \/ (length Cs <= s)%nat)).
  { intros s e. unfold term.
    destruct (index lambdas s) as [lam|e0] eqn:H1; simpl.
    - destruct (index T s) as [Ts|e1] eqn:H2; simpl.
      + destruct (index Cs s) as [C|e2] eqn:H3; simpl.
        * discriminate.
        * intros [= <-]. apply index_exc in H3. intuition.
      + intros [= <-]. apply index_exc in H2. intuition.
    - intros [= <-]. apply index_exc in H1. intuition. }
  assert (Hshort : (length lambdas < length T)%nat \/ (length Cs < length T)%nat ->
            mapM term (seq 0 (length T)) = Exc IndexError).
  { intros Hlen.
    assert (Hex : exists s e, In s (seq 0 (length T)) /\ term s = Exc e).
    { destruct Hlen as [H | H].
      - exists (length lambdas), IndexError. split; [apply in_seq; lia|].
        unfold term. replace (index lambdas (length lambdas)) with (@Exc R IndexError);
          [reflexivity|]. symmetry. apply index_exc. auto.
      - destruct (term (length Cs)) as [M|e] eqn:Ht.
        + exfalso. unfold term in Ht.
          destruct (index lambdas (length Cs)); simpl in Ht; [|discriminate].
          destruct (index T (length Cs)); simpl in Ht; [|discriminate].
          replace (index Cs (length Cs)) with (@Exc matrix IndexError) in Ht;
            [discriminate|]. symmetry. apply index_exc. auto.
        + exists (length Cs), e. split; [apply in_seq; lia | exact Ht]. }
    destruct Hex as (s & e & Hs & He).
    destruct (mapM_in_exc term _ s e Hs He) as [e' He'].
    rewrite He'. f_equal.
    apply mapM_exc_in in He'. destruct He' as (s' & _ & Hs').
    now apply Hterm_exc in Hs'. }
  assert (Hlong : mapM term (seq 0 (length T)) = Exc IndexError ->
            (length lambdas < length T)%nat \/ (length Cs < length T)%nat).
  { intros He. apply mapM_exc_in in He. destruct He as (s & Hs & He).
    apply in_seq in Hs. apply Hterm_exc in He. lia. }
  assert (Hsq : forall mode,
            update_square_loss_mine mode p lambdas T Cs = Exc IndexError ->
            (length lambdas < length T)%nat \/ (length Cs < length T)%nat).
  { intros mode. unfold update_square_loss_mine. fold term.
    destruct (mapM term (seq 0 (length T))) as [terms|e] eqn:Hm; cbn [bind].
    - intros H. apply np_divide_only_floating_point in H. discriminate.
    - intros [= ->]. now apply Hlong. }
  assert (Hkl : forall mode,
            update_kl_loss_mine mode p lambdas T Cs = Exc IndexError ->
            (length lambdas < length T)%nat \/ (length Cs < length T)%nat).
  { intros mode. unfold update_kl_loss_mine. fold term.
    destruct (mapM term (seq 0 (length T))) as [terms|e] eqn:Hm; cbn [bind].
    - destruct (np_divide mode (py_sum terms) (outer p p)) as [M|e] eqn:Hd;
        cbn [bind].
      + intros H. apply mexp_exc in H. discriminate.
      + intros [= ->]. apply np_divide_only_floating_point in Hd. discriminate.
    - intros [= ->]. now apply Hlong. }
  assert (Hfirst : mapM term (seq 0 (length T)) =
            mapM (fun s =>
                    lam <- index (firstn (length T) lambdas) s ;;
                    Ts <- index T s ;;
                    C <- index (firstn (length T) Cs) s ;;
                    Ts' <- index T s ;;
                    Ok (mscale_l lam (dot (dot (transpose Ts) C) Ts')))
              (seq 0 (length T))).
  { apply mapM_ext_in. intros s Hs. apply in_seq in Hs. unfold term.
    now rewrite !index_firstn by lia. }
  split; [|split; [|split; [|split; [|split]]]].
  - split; [apply Hsq|]. intros H. unfold update_square_loss_mine. fold term.
    now rewrite (Hshort H).
  - split; [apply Hkl|]. intros H. unfold update_kl_loss_mine. fold term.
    now rewrite (Hshort H).
  - apply Hsq.
  - apply Hkl.
  - unfold update_square_loss_mine. fold term. now rewrite Hfirst.
  - unfold update_kl_loss_mine. fold term. now rewrite Hfirst.
Qed.

End UpdateBounds.

(** ** The drivers at their edges *)

Section DriverEdges.

Variable seterr : errmode.
Variable sinkhorn : vec -> vec -> matrix -> R -> matrix.
Variables cost_mat C1 C2 : matrix.
Variable alpha_linear : R.
Variables p q : vec.
Variable loss_fun : string.
Variable epsilon : R.
Variable max_iter : Z.
Variable tol : R.
Variable verbose : bool.
Variable log : pylog.

Local Abbreviation init := (init_state p q log).
Local Abbreviation GWA :=
  (gromov_wasserstein_adjusted seterr sinkhorn cost_mat C1 C2 alpha_linear
     p q loss_fun epsilon max_iter tol verbose log).
Local Abbreviation GWN :=
  (gromov_wasserstein_adjusted_norm seterr sinkhorn cost_mat C1 C2 alpha_linear
     p q loss_fun epsilon max_iter tol verbose log).
Local Abbreviation GWC :=
  (gromov_wasserstein_adjusted_combined seterr sinkhorn cost_mat C1 C2 alpha_linear
     p q loss_fun epsilon max_iter tol verbose log).
Local Abbreviation bodyA :=
  (adjusted_body sinkhorn C1 C2 alpha_linear p q loss_fun epsilon verbose).
Local Abbreviation bodyN :=
  (norm_body sinkhorn C1 C2 alpha_linear p q loss_fun epsilon verbose).
Local Abbreviation bodyC :=
  (combined_body sinkhorn cost_mat C1 C2 alpha_linear p q loss_fun epsilon verbose).
Local Abbreviation loop := (while_loop max_iter tol).
Local Abbreviation cmn := (cost_mat_norm seterr cost_mat).

Lemma loop_cond_init_false :
  1 <= tol \/ (max_iter <= 0)%Z -> loop_cond max_iter tol init = false.
Proof.
  intros H. unfold loop_cond. simpl. apply andb_false_iff.
  destruct H as [H | H].
  - left. apply Rltb_false. lra.
  - right. apply Z.ltb_ge. exact H.
Qed.

(** X11. The initial [err = 1] is compared with [tol] before the first
    iteration: with [tol >= 1] (or [max_iter <= 0]) no driver enters its
    loop, and the call returns the initial coupling [outer p q] without
    any builder or solver call and with the log untouched (the
    normalized-blend driver when [alpha_linear] is not 1; the other two
    when their entry normalization does not raise). *)
Theorem loop_skipped_returns_initial_coupling :
  1 <= tol \/ (max_iter <= 0)%Z ->
  (forall cm, normalize seterr cost_mat = Ok cm ->
     GWA = Done init /\ GWC = Done init) /\
  (alpha_linear <> 1 -> GWN = Done init) /\
  returned (Done init) =
    Some (if truthy log then RetTLog (outer p q) log else RetT (outer p q)) /\
  st_trace init = [].
Proof.
  intros H. pose proof (loop_cond_init_false H) as Hc.
  split; [|split; [|split; reflexivity]].
  - intros cm Hcm.
    unfold gromov_wasserstein_adjusted, adjusted_run,
      gromov_wasserstein_adjusted_combined, combined_run.
    rewrite Hcm. simpl. split; now apply while_loop_skip.
  - intros Ha. unfold gromov_wasserstein_adjusted_norm, norm_run.
    destruct (Req_dec_T alpha_linear 1); [contradiction|].
    now apply while_loop_skip.
Qed.

(** X13. Every returned run of a loop called the solver exactly once per
    iteration, so a run that left the loop with [err > tol] made exactly
    [max_iter] solver calls. *)
Theorem one_solver_call_per_iteration :
  (forall s, GWA = Done s ->
     Z.of_nat (solver_calls (st_trace s)) = st_cpt s /\
     (tol < st_err s -> (0 <= max_iter)%Z ->
        Z.of_nat (solver_calls (st_trace s)) = max_iter)) /\
  (alpha_linear <> 1 ->
   forall s, GWN = Done s ->
     Z.of_nat (solver_calls (st_trace s)) = st_cpt s /\
     (tol < st_err s -> (0 <= max_iter)%Z ->
        Z.of_nat (solver_calls (st_trace s)) = max_iter)) /\
  (forall s, GWC = Done s ->
     Z.of_nat (solver_calls (st_trace s)) = st_cpt s /\
     (tol < st_err s -> (0 <= max_iter)%Z ->
        Z.of_nat (solver_calls (st_trace s)) = max_iter)).
Proof.
  assert (Hgen : forall (cost_rel : matrix -> matrix -> Prop) (s : state),
            loop_inv sinkhorn p q epsilon cost_rel max_iter log s /\
            loop_cond max_iter tol s = false ->
            Z.of_nat (solver_calls (st_trace s)) = st_cpt s /\
            (tol < st_err s -> (0 <= max_iter)%Z ->
               Z.of_nat (solver_calls (st_trace s)) = max_iter)).
  { intros cost_rel s ((Hc & _ & _ & _ & _ & _ & Hsol) & Hcond).
    split; [exact Hsol|]. intros Herr Hmax.
    apply loop_cond_false in Hcond. destruct Hcond as [H | H]; [lra | lia]. }
  split; [|split].
  - intros s. unfold gromov_wasserstein_adjusted, adjusted_run.
    destruct (normalize seterr cost_mat) as [cm|e]; simpl; [|discriminate].
    intros Hs.
    pose proof (adjusted_loop sinkhorn cost_mat C1 C2 alpha_linear p q loss_fun epsilon
                  max_iter tol verbose log cm (Z.to_nat max_iter)) as H.
    rewrite Hs in H. exact (Hgen _ s H).
  - intros Ha s. unfold gromov_wasserstein_adjusted_norm, norm_run.
    destruct (Req_dec_T alpha_linear 1); [contradiction|].
    intros Hs.
    pose proof (norm_loop sinkhorn cost_mat C1 C2 alpha_linear p q loss_fun epsilon
                  max_iter tol verbose log cmn (Z.to_nat max_iter)) as H.
    rewrite Hs in H. exact (Hgen _ s H).
  - intros s. unfold gromov_wasserstein_adjusted_combined, combined_run.
    destruct (normalize seterr cost_mat) as [cm|e]; simpl; [|discriminate].
    intros Hs.
    pose proof (combined_loop sinkhorn cost_mat C1 C2 alpha_linear p q loss_fun
                  epsilon max_iter tol verbose log (Z.to_nat max_iter)) as H.
    rewrite Hs in H. exact (Hgen _ s H).
Qed.

Lemma builder_output_nonempty (T tens : matrix) :
  tensor_square_loss_mine C1 C2 T = Ok tens -> exists mx, amax tens = Ok mx.
Proof.
  unfold tensor_square_loss_mine, SquareLoss.h1, SquareLoss.h2.
  destruct (amin _) as [m|e] eqn:Hm; simpl; [|discriminate].
  intros [= <-]. unfold amin in Hm. unfold amax, msub_scalar.
  rewrite entries_mmap.
  destruct (entries (mneg (dot (dot C1 T) (transpose C2)))); [discriminate|].
  simpl. eauto.
Qed.

Lemma loop_enters (lg : pylog) (body : state -> outcome) :
  tol < 1 -> (0 < max_iter)%Z ->
  loop body (Z.to_nat max_iter) (init_state p q lg) =
  andThen (body (init_state p q lg)) (loop body (Z.to_nat max_iter - 1)).
Proof.
  intros Htol Hmax.
  destruct (Z.to_nat max_iter) as [|n] eqn:Hn; [lia|].
  cbn [while_loop]. unfold loop_cond at 1. cbn [st_err st_cpt init_state].
  rewrite (Rltb_true _ _ Htol).
  replace (0 <? max_iter)%Z with true by (symmetry; now apply Z.ltb_lt).
  cbn [andb]. now rewrite Nat.sub_succ, Nat.sub_0_r.
Qed.

(** X12. The docstrings name [log] a bool ("record log if True"), but the
    loop body subscripts it: called with [log=True] and ['square_loss'],
    a driver that enters its loop raises TypeError at the first
    convergence check, in the first iteration, after its first solver
    call, whose result is lost. *)
Theorem log_true_raises_type_error :
  tol < 1 -> (0 < max_iter)%Z ->
  (forall cm tens,
     normalize seterr cost_mat = Ok cm ->
     tensor_square_loss_mine C1 C2 (outer p q) = Ok tens ->
     exists s,
       gromov_wasserstein_adjusted seterr sinkhorn cost_mat C1 C2 alpha_linear
         p q "square_loss" epsilon max_iter tol verbose LogTrue
       = Fault TypeError s /\
       st_cpt s = 0%Z /\ solver_calls (st_trace s) = 1%nat) /\
  (forall tens,
     alpha_linear <> 1 ->
     tensor_square_loss_mine C1 C2 (outer p q) = Ok tens ->
     exists s,
       gromov_wasserstein_adjusted_norm seterr sinkhorn cost_mat C1 C2 alpha_linear
         p q "square_loss" epsilon max_iter tol verbose LogTrue
       = Fault TypeError s /\
       st_cpt s = 0%Z /\ solver_calls (st_trace s) = 1%nat) /\
  (forall cm tens,
     normalize seterr cost_mat = Ok cm ->
     tensor_square_loss_mine_combined C1 C2 (outer p q) cost_mat alpha_linear
       = Ok tens ->
     exists s,
       gromov_wasserstein_adjusted_combined seterr sinkhorn cost_mat C1 C2
         alpha_linear p q "square_loss" epsilon max_iter tol verbose LogTrue
       = Fault TypeError s /\
       st_cpt s = 0%Z /\ solver_calls (st_trace s) = 1%nat).
Proof.
  intros Htol Hmax. split; [|split].
  - intros cm tens Hnorm Hb.
    destruct (builder_output_nonempty _ _ Hb) as [mx Hmx].
    unfold gromov_wasserstein_adjusted, adjusted_run. rewrite Hnorm.
    cbn [attempt]. rewrite (loop_enters LogTrue _ Htol Hmax).
    unfold adjusted_body, dispatch_square.
    change (String.eqb "square_loss" "square_loss") with true.
    cbn [init_state emit st_T st_cpt st_err st_tens st_log st_trace].
    rewrite Hb. cbn [attempt andThen read_tens set_tens st_tens]. rewrite Hmx.
    cbn. eexists. split; [reflexivity|]. split; reflexivity.
  - intros tens Ha Hb.
    unfold gromov_wasserstein_adjusted_norm, norm_run.
    destruct (Req_dec_T alpha_linear 1); [contradiction|].
    rewrite (loop_enters LogTrue _ Htol Hmax).
    unfold norm_body, dispatch_square.
    change (String.eqb "square_loss" "square_loss") with true.
    cbn [init_state emit st_T st_cpt st_err st_tens st_log st_trace].
    rewrite Hb. cbn. eexists. split; [reflexivity|]. split; reflexivity.
  - intros cm tens Hnorm Hb.
    unfold gromov_wasserstein_adjusted_combined, combined_run. rewrite Hnorm.
    cbn [attempt]. rewrite (loop_enters LogTrue _ Htol Hmax).
    unfold combined_body, dispatch_combined.
    change (String.eqb "square_loss" "square_loss") with true.
    cbn [init_state emit st_T st_cpt st_err st_tens st_log st_trace].
    rewrite Hb. cbn. eexists. split; [reflexivity|]. split; reflexivity.
Qed.

Lemma while_loop_preserves (P : state -> Prop) (body : state -> outcome) :
  (forall s s', P s -> body s = Done s' -> P s') ->
  forall fuel s s', P s -> loop body fuel s = Done s' -> P s'.
Proof.
  intros Hstep fuel. induction fuel as [|fuel IH]; intros s s' HP; simpl.
  - destruct (loop_cond max_iter tol s); [discriminate|]. now intros [= <-].
  - destruct (loop_cond max_iter tol s); [|now intros [= <-]].
    destruct (body s) as [s1|e s1|] eqn:Hb; simpl; try discriminate.
    apply IH. eapply Hstep; eauto.
Qed.

End DriverEdges.

(** ** What [verbose] changes *)

Section Printing.

Variable seterr : errmode.
Variable sinkhorn : vec -> vec -> matrix -> R -> matrix.
Variables cost_mat C1 C2 : matrix.
Variable alpha_linear : R.
Variables p q : vec.
Variable loss_fun : string.
Variable epsilon : R.
Variable max_iter : Z.
Variable tol : R.
Variable verbose : bool.
Variable log : pylog.

Local Abbreviation driverA :=
  (gromov_wasserstein_adjusted seterr sinkhorn cost_mat C1 C2 alpha_linear
     p q loss_fun epsilon max_iter tol).
Local Abbreviation driverN :=
  (gromov_wasserstein_adjusted_norm seterr sinkhorn cost_mat C1 C2 alpha_linear
     p q loss_fun epsilon max_iter tol).
Local Abbreviation driverC :=
  (gromov_wasserstein_adjusted_combined seterr sinkhorn cost_mat C1 C2 alpha_linear
     p q loss_fun epsilon max_iter tol).
Local Abbreviation stepA :=
  (adjusted_body sinkhorn C1 C2 alpha_linear p q loss_fun epsilon).
Local Abbreviation stepN :=
  (norm_body sinkhorn C1 C2 alpha_linear p q loss_fun epsilon).
Local Abbreviation stepC :=
  (combined_body sinkhorn cost_mat C1 C2 alpha_linear p q loss_fun epsilon).

Lemma silent_app (a b : list event) : silent (a ++ b) = silent a ++ silent b.
Proof. apply filter_app. Qed.

Lemma quiet_emit (ev : event) (s : state) :
  quiet (emit ev s) = if is_print ev then quiet s else emit ev (quiet s).
Proof.
  unfold quiet, emit. simpl. rewrite silent_app. simpl.
  destruct (is_print ev); simpl; [now rewrite app_nil_r | reflexivity].
Qed.

Lemma quiet_progress (b : bool) (s : state) : quiet (progress verbose b s) = quiet s.
Proof.
  unfold progress. destruct verbose; [|reflexivity].
  destruct (st_cpt s mod 200 =? 0)%Z; destruct b; simpl;
    rewrite ?quiet_emit; reflexivity.
Qed.

Lemma quiet_andThen (o : outcome) (k k' : state -> outcome) :
  (forall s, quiet_outcome (k s) = k' (quiet s)) ->
  quiet_outcome (andThen o k) = andThen (quiet_outcome o) k'.
Proof. intros H. destruct o; simpl; auto. Qed.

Lemma quiet_attempt {A : Type} (s : state) (r : res A) (k k' : A -> outcome) :
  (forall a, quiet_outcome (k a) = k' a) ->
  quiet_outcome (attempt s r k) = attempt (quiet s) r k'.
Proof. intros H. destruct r; simpl; auto. Qed.

Lemma quiet_convergence_check (b b' : bool) (Tprev : matrix) (s : state) :
  quiet_outcome (convergence_check verbose b Tprev s) =
  convergence_check false b' Tprev (quiet s).
Proof.
  unfold convergence_check. change (st_cpt (quiet s)) with (st_cpt s).
  destruct (st_cpt s mod 10 =? 0)%Z; [|reflexivity].
  unfold log_append. cbn [st_log emit set_err quiet st_T st_cpt st_err st_tens st_trace].
  destruct (st_log s); cbn [andThen quiet_outcome];
    rewrite ?quiet_progress; unfold quiet, set_log, emit, set_err;
    cbn [st_T st_cpt st_err st_tens st_log st_trace progress];
    rewrite ?silent_app; reflexivity.
Qed.

Lemma quiet_dispatch_square (s : state) :
  quiet_outcome (dispatch_square C1 C2 loss_fun s) =
  dispatch_square C1 C2 loss_fun (quiet s).
Proof.
  unfold dispatch_square. destruct (String.eqb loss_fun "square_loss"); [|reflexivity].
  change (st_T (quiet s)) with (st_T s).
  unfold set_tens, emit. cbn [st_T st_cpt st_err st_tens st_log st_trace quiet].
  destruct (tensor_square_loss_mine C1 C2 (st_T s)); cbn [attempt quiet_outcome];
    unfold quiet; cbn [st_T st_cpt st_err st_tens st_log st_trace];
    rewrite silent_app; reflexivity.
Qed.

Lemma quiet_dispatch_combined (s : state) :
  quiet_outcome (dispatch_combined cost_mat C1 C2 alpha_linear loss_fun s) =
  dispatch_combined cost_mat C1 C2 alpha_linear loss_fun (quiet s).
Proof.
  unfold dispatch_combined.
  destruct (String.eqb loss_fun "square_loss"); [|reflexivity].
  change (st_T (quiet s)) with (st_T s).
  unfold set_tens, emit. cbn [st_T st_cpt st_err st_tens st_log st_trace quiet].
  destruct (tensor_square_loss_mine_combined C1 C2 (st_T s) cost_mat alpha_linear);
    cbn [attempt quiet_outcome]; unfold quiet;
    cbn [st_T st_cpt st_err st_tens st_log st_trace]; rewrite silent_app;
    reflexivity.
Qed.

Lemma quiet_call_sinkhorn (M : matrix) (s : state) :
  quiet (call_sinkhorn sinkhorn p q epsilon M s) =
  call_sinkhorn sinkhorn p q epsilon M (quiet s).
Proof.
  unfold call_sinkhorn, quiet, set_T, emit.
  cbn [st_T st_cpt st_err st_tens st_log st_trace]. now rewrite silent_app.
Qed.

Lemma quiet_tail (b b' : bool) (Tprev : matrix) (s : state) :
  quiet_outcome
    (andThen (convergence_check verbose b Tprev s) (fun s => Done (incr_cpt s))) =
  andThen (convergence_check false b' Tprev (quiet s)) (fun s => Done (incr_cpt s)).
Proof.
  rewrite (quiet_andThen _ _ (fun s => Done (incr_cpt s))); [|reflexivity].
  now rewrite (quiet_convergence_check b b').
Qed.

Lemma quiet_adjusted_body (cm : matrix) (s : state) :
  quiet_outcome (stepA verbose cm s) = stepA false cm (quiet s).
Proof.
  unfold adjusted_body. change (st_T (quiet s)) with (st_T s).
  rewrite <- quiet_dispatch_square.
  apply quiet_andThen. intros s1. unfold read_tens.
  change (st_tens (quiet s1)) with (st_tens s1).
  destruct (st_tens s1) as [tens|]; [|reflexivity]. cbn [attempt].
  destruct (amax tens) as [mx|ex]; [|reflexivity]. cbn [attempt].
  rewrite (quiet_tail false false).
  now rewrite quiet_call_sinkhorn.
Qed.

Lemma quiet_norm_body (cm : matrix) (s : state) :
  quiet_outcome (stepN verbose cm s) = stepN false cm (quiet s).
Proof.
  unfold norm_body. change (st_T (quiet s)) with (st_T s).
  rewrite <- quiet_dispatch_square.
  apply quiet_andThen. intros s1. unfold read_tens.
  change (st_tens (quiet s1)) with (st_tens s1).
  destruct (st_tens s1) as [tens|]; [|reflexivity]. cbn [attempt].
  rewrite (quiet_tail true true).
  now rewrite quiet_call_sinkhorn.
Qed.

Lemma quiet_combined_body (s : state) :
  quiet_outcome (stepC verbose s) = stepC false (quiet s).
Proof.
  unfold combined_body. change (st_T (quiet s)) with (st_T s).
  rewrite <- quiet_dispatch_combined.
  apply quiet_andThen. intros s1. unfold read_tens.
  change (st_tens (quiet s1)) with (st_tens s1).
  destruct (st_tens s1) as [tens|]; [|reflexivity]. cbn [attempt].
  rewrite (quiet_tail false false).
  now rewrite quiet_call_sinkhorn.
Qed.

Lemma quiet_while_loop (body body' : state -> outcome) :
  (forall s, quiet_outcome (body s) = body' (quiet s)) ->
  forall fuel s,
    quiet_outcome (while_loop max_iter tol body fuel s) =
    while_loop max_iter tol body' fuel (quiet s).
Proof.
  intros Hb fuel. induction fuel as [|fuel IH]; intros s; simpl;
    change (loop_cond max_iter tol (quiet s)) with (loop_cond max_iter tol s);
    destruct (loop_cond max_iter tol s); try reflexivity.
  rewrite <- Hb. now apply quiet_andThen.
Qed.

Lemma returned_quiet (o : outcome) : returned (quiet_outcome o) = returned o.
Proof. now destruct o. Qed.

(** X16. Printing is all that [verbose] does.  A call with [verbose] set
    differs from the same call with [verbose=False] only by the header
    and row lines it prints: it makes the same builder and solver calls
    with the same arguments, computes the same errors, and ends the same
    way, with the same coupling and log returned or the same exception
    raised at the same point. *)
Theorem verbose_only_prints :
  (quiet_outcome (driverA verbose log) = driverA false log /\
   returned (driverA verbose log) = returned (driverA false log)) /\
  (quiet_outcome (driverN verbose log) = driverN false log /\
   returned (driverN verbose log) = returned (driverN false log)) /\
  (quiet_outcome (driverC verbose log) = driverC false log /\
   returned (driverC verbose log) = returned (driverC false log)).
Proof.
  assert (HA : quiet_outcome (driverA verbose log) = driverA false log).
  { unfold gromov_wasserstein_adjusted, adjusted_run.
    destruct (normalize seterr cost_mat) as [cm|ex]; [|reflexivity]. cbn [attempt].
    apply quiet_while_loop. apply quiet_adjusted_body. }
  assert (HN : quiet_outcome (driverN verbose log) = driverN false log).
  { unfold gromov_wasserstein_adjusted_norm, norm_run.
    destruct (Req_dec_T alpha_linear 1); [reflexivity|].
    apply quiet_while_loop. apply quiet_norm_body. }
  assert (HC : quiet_outcome (driverC verbose log) = driverC false log).
  { unfold gromov_wasserstein_adjusted_combined, combined_run.
    destruct (normalize seterr cost_mat) as [cm|ex]; [|reflexivity]. cbn [attempt].
    apply quiet_while_loop. apply quiet_combined_body. }
  repeat split; try assumption.
  - now rewrite <- HA, returned_quiet.
  - now rewrite <- HN, returned_quiet.
  - now rewrite <- HC, returned_quiet.
Qed.

End Printing.

(** ** What a verbose call prints *)

Section PrintedRows.

Variable seterr : errmode.
Variable sinkhorn : vec -> vec -> matrix -> R -> matrix.
Variables cost_mat C1 C2 : matrix.
Variable alpha_linear : R.
Variables p q : vec.
Variable loss_fun : string.
Variable epsilon : R.
Variable max_iter : Z.
Variable tol : R.
Variable verbose : bool.
Variable log : pylog.

Local Abbreviation runA :=
  (gromov_wasserstein_adjusted seterr sinkhorn cost_mat C1 C2 alpha_linear
     p q loss_fun epsilon max_iter tol verbose log).
Local Abbreviation runN :=
  (gromov_wasserstein_adjusted_norm seterr sinkhorn cost_mat C1 C2 alpha_linear
     p q loss_fun epsilon max_iter tol verbose log).
Local Abbreviation runC :=
  (gromov_wasserstein_adjusted_combined seterr sinkhorn cost_mat C1 C2 alpha_linear
     p q loss_fun epsilon max_iter tol verbose log).
Local Abbreviation passA :=
  (adjusted_body sinkhorn C1 C2 alpha_linear p q loss_fun epsilon verbose).
Local Abbreviation passN :=
  (norm_body sinkhorn C1 C2 alpha_linear p q loss_fun epsilon verbose).
Local Abbreviation passC :=
  (combined_body sinkhorn cost_mat C1 C2 alpha_linear p q loss_fun epsilon verbose).
Local Abbreviation shown := (rows_shown verbose).

Lemma rows_app (a b : list event) : rows (a ++ b) = rows a ++ rows b.
Proof. induction a as [|[] a IH]; simpl; congruence. Qed.

Lemma checks_app (a b : list event) : checks (a ++ b) = checks a ++ checks b.
Proof. induction a as [|[] a IH]; simpl; congruence. Qed.

Lemma shown_app (b : bool) (l1 l2 : list (Z * R)) :
  shown b (l1 ++ l2) = shown b l1 ++ shown b l2.
Proof. unfold rows_shown. destruct verbose, b; auto. apply filter_app. Qed.

Lemma convergence_check_rows (b : bool) (Tprev : matrix) (s s' : state) :
  convergence_check verbose b Tprev s = Done s' ->
  exists new,
    checks (st_trace s') = checks (st_trace s) ++ new /\
    rows (st_trace s') = rows (st_trace s) ++ shown b new.
Proof.
  unfold convergence_check.
  destruct (st_cpt s mod 10 =? 0)%Z.
  - set (err := linalg_norm (msub (st_T s) Tprev)).
    intros H. exists [(st_cpt s, err)].
    assert (Hp : forall s0,
              st_cpt s0 = st_cpt s -> st_err s0 = err ->
              checks (st_trace (progress verbose b s0)) = checks (st_trace s0) /\
              rows (st_trace (progress verbose b s0)) =
                rows (st_trace s0) ++ shown b [(st_cpt s, err)]).
    { intros s0 Hc He. unfold progress. rewrite Hc, He.
      unfold rows_shown, on_header_line. cbn [filter fst].
      destruct verbose; [|now rewrite app_nil_r].
      destruct (st_cpt s mod 200 =? 0)%Z; destruct b;
        cbn [andb negb emit st_trace];
        rewrite ?rows_app, ?checks_app; cbn [rows checks];
        rewrite ?app_nil_r; auto. }
    unfold log_append in H. cbn [st_log emit set_err] in H.
    destruct (st_log s); cbn [andThen] in H; try discriminate;
      injection H as <-;
      match goal with
      | |- context [progress verbose b ?s0] =>
          destruct (Hp s0 eq_refl eq_refl) as [H1 H2]; rewrite H1, H2
      end;
      cbn [st_trace set_log emit set_err]; rewrite rows_app, checks_app;
      cbn [rows checks]; rewrite app_nil_r; auto.
  - intros [= <-]. exists []. split; [now rewrite app_nil_r|].
    unfold rows_shown. destruct verbose, b; simpl; now rewrite app_nil_r.
Qed.

Lemma dispatch_square_rows (s s1 : state) :
  dispatch_square C1 C2 loss_fun s = Done s1 ->
  checks (st_trace s1) = checks (st_trace s) /\ rows (st_trace s1) = rows (st_trace s).
Proof.
  unfold dispatch_square. destruct (String.eqb loss_fun "square_loss").
  - unfold set_tens, emit. cbn [st_T st_cpt st_err st_tens st_log st_trace].
    destruct (tensor_square_loss_mine C1 C2 (st_T s)); cbn [attempt];
      [|discriminate].
    intros [= <-]. cbn [st_trace].
    rewrite rows_app, checks_app. cbn [rows checks]. now rewrite !app_nil_r.
  - now intros [= <-].
Qed.

Lemma dispatch_combined_rows (s s1 : state) :
  dispatch_combined cost_mat C1 C2 alpha_linear loss_fun s = Done s1 ->
  checks (st_trace s1) = checks (st_trace s) /\ rows (st_trace s1) = rows (st_trace s).
Proof.
  unfold dispatch_combined. destruct (String.eqb loss_fun "square_loss").
  - unfold set_tens, emit. cbn [st_T st_cpt st_err st_tens st_log st_trace].
    destruct (tensor_square_loss_mine_combined C1 C2 (st_T s) cost_mat alpha_linear);
      cbn [attempt]; [|discriminate].
    intros [= <-]. cbn [st_trace].
    rewrite rows_app, checks_app. cbn [rows checks]. now rewrite !app_nil_r.
  - now intros [= <-].
Qed.

Lemma tail_rows (b : bool) (Tprev M : matrix) (s1 s' : state) :
  rows (st_trace s1) = shown b (checks (st_trace s1)) ->
  andThen (convergence_check verbose b Tprev
             (call_sinkhorn sinkhorn p q epsilon M s1))
    (fun s => Done (incr_cpt s)) = Done s' ->
  rows (st_trace s') = shown b (checks (st_trace s')).
Proof.
  intros HP H.
  destruct (convergence_check verbose b Tprev
              (call_sinkhorn sinkhorn p q epsilon M s1)) as [s2|ex s2|] eqn:Hcc;
    cbn [andThen] in H; try discriminate.
  injection H as <-.
  destruct (convergence_check_rows _ _ _ _ Hcc) as (new & Hc & Hr).
  cbn [incr_cpt set_cpt st_trace]. rewrite Hr, Hc, shown_app. f_equal.
  unfold call_sinkhorn. cbn [st_trace set_T emit].
  rewrite rows_app, checks_app. cbn [rows checks]. now rewrite !app_nil_r.
Qed.

Lemma adjusted_body_rows (cm : matrix) (s s' : state) :
  rows (st_trace s) = shown false (checks (st_trace s)) ->
  passA cm s = Done s' ->
  rows (st_trace s') = shown false (checks (st_trace s')).
Proof.
  intros HP. unfold adjusted_body.
  destruct (dispatch_square C1 C2 loss_fun s) as [s1|ex s1|] eqn:Hd;
    cbn [andThen]; try discriminate.
  destruct (dispatch_square_rows _ _ Hd) as [Hc Hr].
  destruct (read_tens s1) as [tens|]; cbn [attempt]; [|discriminate].
  destruct (amax tens) as [mx|]; cbn [attempt]; [|discriminate].
  apply tail_rows. cbn [st_trace set_tens]. now rewrite Hr, Hc.
Qed.

Lemma norm_body_rows (cm : matrix) (s s' : state) :
  rows (st_trace s) = shown true (checks (st_trace s)) ->
  passN cm s = Done s' ->
  rows (st_trace s') = shown true (checks (st_trace s')).
Proof.
  intros HP. unfold norm_body.
  destruct (dispatch_square C1 C2 loss_fun s) as [s1|ex s1|] eqn:Hd;
    cbn [andThen]; try discriminate.
  destruct (dispatch_square_rows _ _ Hd) as [Hc Hr].
  destruct (read_tens s1) as [tens|]; cbn [attempt]; [|discriminate].
  apply tail_rows. now rewrite Hr, Hc.
Qed.

Lemma combined_body_rows (s s' : state) :
  rows (st_trace s) = shown false (checks (st_trace s)) ->
  passC s = Done s' ->
  rows (st_trace s') = shown false (checks (st_trace s')).
Proof.
  intros HP. unfold combined_body.
  destruct (dispatch_combined cost_mat C1 C2 alpha_linear loss_fun s)
    as [s1|ex s1|] eqn:Hd; cbn [andThen]; try discriminate.
  destruct (dispatch_combined_rows _ _ Hd) as [Hc Hr].
  destruct (read_tens s1) as [tens|]; cbn [attempt]; [|discriminate].
  apply tail_rows. now rewrite Hr, Hc.
Qed.

(** X17. What a verbose call prints.  In the additive and the combined
    driver every error check prints one row, with the counter and the error
    just computed.  In the normalized-blend driver the row sits under the
    header test, so a row is printed only for the checks whose counter is
    a multiple of 200.  Without [verbose] no row is printed. *)
Theorem verbose_rows :
  (forall s, runA = Done s ->
     rows (st_trace s) = if verbose then checks (st_trace s) else []) /\
  (forall s, runN = Done s ->
     rows (st_trace s) =
       if verbose then filter on_header_line (checks (st_trace s)) else []) /\
  (forall s, runC = Done s ->
     rows (st_trace s) = if verbose then checks (st_trace s) else []).
Proof.
  assert (Hinit : forall b, rows (st_trace (init_state p q log)) =
                    shown b (checks (st_trace (init_state p q log)))).
  { intros b. unfold rows_shown. simpl. now destruct verbose, b. }
  split; [|split]; intros s.
  - unfold gromov_wasserstein_adjusted, adjusted_run.
    destruct (normalize seterr cost_mat) as [cm|ex]; cbn [attempt]; [|discriminate].
    apply (while_loop_preserves max_iter tol
             (fun s => rows (st_trace s) = shown false (checks (st_trace s)))
             (passA cm)); [apply adjusted_body_rows | apply Hinit].
  - unfold gromov_wasserstein_adjusted_norm, norm_run.
    destruct (Req_dec_T alpha_linear 1).
    + intros [= <-]. simpl. now destruct verbose.
    + apply (while_loop_preserves max_iter tol
               (fun s => rows (st_trace s) = shown true (checks (st_trace s)))
               (passN (cost_mat_norm seterr cost_mat)));
        [apply norm_body_rows | apply Hinit].
  - unfold gromov_wasserstein_adjusted_combined, combined_run.
    destruct (normalize seterr cost_mat) as [cm|ex]; cbn [attempt]; [|discriminate].
    apply (while_loop_preserves max_iter tol
             (fun s => rows (st_trace s) = shown false (checks (st_trace s)))
             passC); [apply combined_body_rows | apply Hinit].
Qed.

End PrintedRows.

(** ** A space with no point *)

Section EmptySpace.

Variable seterr : errmode.
Variable sinkhorn : vec -> vec -> matrix -> R -> matrix.
Variables cost_mat C1 C2 : matrix.
Variable alpha_linear : R.
Variables p q : vec.
Variable epsilon : R.
Variable max_iter : Z.
Variable tol : R.
Variable verbose : bool.
Variable log : pylog.
Variables ns nt : nat.

(** X19. The except clause of the normalized-blend driver does not rescue
    a call on a space with no point.  With ns = 0 or nt = 0 (and
    [alpha_linear] not 1, ['square_loss'], a loop that is entered) the
    ValueError of the normalization is swallowed, but the first
    [tensor_square_loss_mine] call raises ValueError again and the driver
    ends with it, before any solver call. *)
Theorem norm_driver_raises_on_empty_space :
  tol < 1 -> (0 < max_iter)%Z -> alpha_linear <> 1 ->
  shape ns ns C1 -> shape nt nt C2 -> length p = ns -> length q = nt ->
  ns = 0%nat \/ nt = 0%nat ->
  gromov_wasserstein_adjusted_norm seterr sinkhorn cost_mat C1 C2 alpha_linear
    p q "square_loss" epsilon max_iter tol verbose log =
  Fault ValueError (emit (EvSquareLoss (outer p q)) (init_state p q log)).
Proof.
  intros Htol Hmax Ha HC1 HC2 _ _ H0.
  destruct (square_builders_empty ns nt C1 C2 (outer p q) cost_mat alpha_linear
              HC1 HC2 H0) as [Hb _].
  unfold gromov_wasserstein_adjusted_norm, norm_run.
  destruct (Req_dec_T alpha_linear 1); [contradiction|].
  rewrite (loop_enters p q max_iter tol log _ Htol Hmax).
  unfold norm_body, dispatch_square.
  change (String.eqb "square_loss" "square_loss") with true.
  cbn [init_state emit st_T st_cpt st_err st_tens st_log st_trace].
  rewrite Hb. reflexivity.
Qed.

End EmptySpace.

(** ** The costs the other two drivers hand to the solver *)

Section SolverCosts.

Variable seterr : errmode.
Variable sinkhorn : vec -> vec -> matrix -> R -> matrix.
Variables cost_mat C1 C2 : matrix.
Variable alpha_linear : R.
Variables p q : vec.
Variable loss_fun : string.
Variable epsilon : R.
Variable max_iter : Z.
Variable tol : R.
Variable verbose : bool.
Variable log : pylog.

Local Abbreviation callN :=
  (gromov_wasserstein_adjusted_norm seterr sinkhorn cost_mat C1 C2 alpha_linear
     p q loss_fun epsilon max_iter tol verbose log).
Local Abbreviation callC :=
  (gromov_wasserstein_adjusted_combined seterr sinkhorn cost_mat C1 C2 alpha_linear
     p q loss_fun epsilon max_iter tol verbose log).
Local Abbreviation held := (replay sinkhorn p q epsilon (outer p q)).
Local Abbreviation blend_with := (cost_mat_norm seterr cost_mat).

(** X21. In [gromov_wasserstein_adjusted_norm] (with [alpha_linear] not
    1) every cost handed to the solver is the convex blend
    [(1 - alpha_linear) * tens + alpha_linear * cost_mat_norm], where
    [tens] is the square-loss tensor of the coupling held at the start of
    that iteration: unlike the additive driver, the linear term is not
    rescaled by [tens.max()].  [cost_mat_norm] is [cost_mat] over its
    maximum when that maximum is not zero, and the raw [cost_mat] when
    [cost_mat] has no entry. *)
Theorem norm_solver_cost (s : state) (pre post : list event) (M : matrix) :
  alpha_linear <> 1 ->
  final callN = Some s ->
  st_trace s = pre ++ EvSinkhorn M :: post ->
  (exists tens,
     tensor_square_loss_mine C1 C2 (held pre) = Ok tens /\
     M = madd (mscale_l (1 - alpha_linear) tens)
              (mscale_l alpha_linear blend_with)) /\
  (forall cm, amax cost_mat = Ok cm -> cm <> 0 ->
     blend_with = mmap (fun x => x / cm) cost_mat) /\
  (entries cost_mat = [] -> blend_with = cost_mat).
Proof.
  intros Ha Hfin Htr. split; [|split].
  - unfold gromov_wasserstein_adjusted_norm, norm_run in Hfin.
    destruct (Req_dec_T alpha_linear 1); [contradiction|].
    assert (Hok : trace_ok sinkhorn p q epsilon
                    (norm_cost C1 C2 blend_with alpha_linear)
                    (outer p q) (st_trace s)).
    { pose proof (norm_loop sinkhorn cost_mat C1 C2 alpha_linear p q loss_fun
                    epsilon max_iter tol verbose log blend_with
                    (Z.to_nat max_iter)) as H.
      destruct (while_loop _ _ _ _ _) as [s1|e s1|]; simpl in Hfin;
        injection Hfin as <- || discriminate.
      - apply H.
      - apply H. }
    rewrite Htr in Hok. apply trace_ok_solver in Hok.
    destruct Hok as (tens & Htens & HM). eauto.
  - intros cm Hcm Hnz. unfold cost_mat_norm, normalize. rewrite Hcm. simpl.
    now rewrite (mdiv_scalar_nonzero seterr cost_mat cm Hnz).
  - intros Hempty. unfold cost_mat_norm, normalize, amax. now rewrite Hempty.
Qed.

(** X22. In [gromov_wasserstein_adjusted_combined] every cost handed to
    the solver is the result of [tensor_square_loss_mine_combined] on the
    coupling held at the start of that iteration and on the raw
    [cost_mat], not the normalized one: the linear term is
    [alpha_linear * (cost_mat * T) * max N], weighted entry by entry by
    the coupling. *)
Theorem combined_solver_cost (s : state) (pre post : list event) (M : matrix) :
  final callC = Some s ->
  st_trace s = pre ++ EvSinkhorn M :: post ->
  tensor_square_loss_mine_combined C1 C2 (held pre) cost_mat alpha_linear = Ok M /\
  exists mx m,
    amax (dot (dot C1 (held pre)) (transpose C2)) = Ok mx /\
    amin (msub (mneg (dot (dot C1 (held pre)) (transpose C2)))
            (mscale_l alpha_linear (mscale_r (mmul cost_mat (held pre)) mx))) = Ok m /\
    M = msub_scalar
          (msub (mneg (dot (dot C1 (held pre)) (transpose C2)))
             (mscale_l alpha_linear (mscale_r (mmul cost_mat (held pre)) mx))) m.
Proof.
  unfold gromov_wasserstein_adjusted_combined, combined_run.
  destruct (normalize seterr cost_mat) as [cm1|e] eqn:Hnorm; simpl.
  - intros Hfin Htr.
    assert (Hok : trace_ok sinkhorn p q epsilon
                    (combined_cost C1 C2 cost_mat alpha_linear)
                    (outer p q) (st_trace s)).
    { pose proof (combined_loop sinkhorn cost_mat C1 C2 alpha_linear p q loss_fun
                    epsilon max_iter tol verbose log (Z.to_nat max_iter)) as H.
      destruct (while_loop _ _ _ _ _) as [s1|e s1|]; simpl in Hfin;
        injection Hfin as <- || discriminate.
      - apply H.
      - apply H. }
    rewrite Htr in Hok. apply trace_ok_solver in Hok.
    unfold combined_cost in Hok. split; [exact Hok|].
    unfold tensor_square_loss_mine_combined, SquareLoss.h1, SquareLoss.h2 in Hok.
    destruct (amax (dot (dot C1 (held pre)) (transpose C2))) as [mx|e];
      simpl in Hok; [|discriminate].
    destruct (amin _) as [m|e] eqn:Hm; simpl in Hok; [|discriminate].
    injection Hok as <-. exists mx, m. auto.
  - intros [= <-]. simpl. intros Htr. destruct pre; discriminate.
Qed.

End SolverCosts.

(** ** When a run stops early *)

Section EarlyStop.

Variable seterr : errmode.
Variable sinkhorn : vec -> vec -> matrix -> R -> matrix.
Variables cost_mat C1 C2 : matrix.
Variable alpha_linear : R.
Variables p q : vec.
Variable loss_fun : string.
Variable epsilon : R.
Variable max_iter : Z.
Variable tol : R.
Variable verbose : bool.
Variable log : pylog.

Local Abbreviation fresh :=
  (fun s => tens_unbound_unless_square loss_fun s /\ err_fresh tol s).

Lemma while_loop_entered (P : state -> Prop) (body : state -> outcome) :
  (forall s s', P s -> loop_cond max_iter tol s = true -> body s = Done s' -> P s') ->
  forall fuel s s',
    P s -> while_loop max_iter tol body fuel s = Done s' ->
    P s' /\ loop_cond max_iter tol s' = false.
Proof.
  intros Hstep fuel. induction fuel as [|fuel IH]; intros s s' HP; simpl.
  - destruct (loop_cond max_iter tol s) eqn:Hc; [discriminate|].
    intros [= <-]. auto.
  - destruct (loop_cond max_iter tol s) eqn:Hc; [|intros [= <-]; auto].
    destruct (body s) as [s1|ex s1|] eqn:Hb; simpl; try discriminate.
    apply IH. eapply Hstep; eauto.
Qed.

Lemma step_done_fresh (tev : event) (M : matrix) (s s' : state) :
  tol < st_err s -> step_done sinkhorn p q epsilon tev M s s' ->
  err_fresh tol s'.
Proof.
  unfold err_fresh. intros Herr (_ & Hc & [(Hm & _) | (_ & He & _)]).
  - left. rewrite Hc. Z.to_euclidean_division_equations. lia.
  - right. now rewrite He.
Qed.

Lemma fresh_at_exit (s : state) :
  fresh s /\ loop_cond max_iter tol s = false ->
  (st_cpt s < max_iter)%Z ->
  ~ tol < st_err s /\ (st_cpt s mod 10 = 1)%Z.
Proof.
  unfold err_fresh. intros ((_ & Hf) & Hc) Hlt. apply loop_cond_false in Hc.
  destruct Hc as [Hc | Hc]; [|lia].
  split; [lra|]. destruct Hf as [Hf | Hf]; [exact Hf | lra].
Qed.

(** X23. [err] changes only in the iterations whose counter is a multiple
    of 10, so the loop test [err > tol] can fail only right after one of
    them: with [tol < 1], a driver that returns before [max_iter]
    iterations left its loop on a test [err > tol] that was false, and
    ran 10k + 1 iterations, for some k. *)
Theorem early_stop_follows_a_check :
  tol < 1 ->
  (forall s,
     gromov_wasserstein_adjusted seterr sinkhorn cost_mat C1 C2 alpha_linear
       p q loss_fun epsilon max_iter tol verbose log = Done s ->
     (st_cpt s < max_iter)%Z ->
     ~ tol < st_err s /\ (st_cpt s mod 10 = 1)%Z) /\
  (alpha_linear <> 1 ->
   forall s,
     gromov_wasserstein_adjusted_norm seterr sinkhorn cost_mat C1 C2 alpha_linear
       p q loss_fun epsilon max_iter tol verbose log = Done s ->
     (st_cpt s < max_iter)%Z ->
     ~ tol < st_err s /\ (st_cpt s mod 10 = 1)%Z) /\
  (forall s,
     gromov_wasserstein_adjusted_combined seterr sinkhorn cost_mat C1 C2 alpha_linear
       p q loss_fun epsilon max_iter tol verbose log = Done s ->
     (st_cpt s < max_iter)%Z ->
     ~ tol < st_err s /\ (st_cpt s mod 10 = 1)%Z).
Proof.
  intros Htol.
  assert (Hinit : fresh (init_state p q log)).
  { split; [intros _; reflexivity | right; exact Htol]. }
  assert (Hkeep : forall tev M s0 s1,
            tol < st_err s0 /\ (st_cpt s0 < max_iter)%Z ->
            step_done sinkhorn p q epsilon tev M s0 s1 -> err_fresh tol s1).
  { intros tev M s0 s1 [Herr _] Hstep. exact (step_done_fresh tev M s0 s1 Herr Hstep). }
  split; [|split].
  - intros s. unfold gromov_wasserstein_adjusted, adjusted_run.
    destruct (normalize seterr cost_mat) as [cm|ex]; cbn [attempt]; [|discriminate].
    intros Hs. apply fresh_at_exit.
    apply (while_loop_entered fresh _) in Hs; [exact Hs | | exact Hinit].
    intros s0 s1 [HJ _] Hc Hb. apply loop_cond_true in Hc.
    destruct (adjusted_body_done sinkhorn C1 C2 alpha_linear p q loss_fun epsilon
                verbose cm s0 s1 HJ Hb) as (HJ' & M & _ & Hstep).
    split; [exact HJ'|]. exact (Hkeep _ M s0 s1 Hc Hstep).
  - intros Ha s. unfold gromov_wasserstein_adjusted_norm, norm_run.
    destruct (Req_dec_T alpha_linear 1); [contradiction|].
    intros Hs. apply fresh_at_exit.
    apply (while_loop_entered fresh _) in Hs; [exact Hs | | exact Hinit].
    intros s0 s1 [HJ _] Hc Hb. apply loop_cond_true in Hc.
    destruct (norm_body_done sinkhorn cost_mat C1 C2 alpha_linear p q loss_fun epsilon
                verbose _ s0 s1 HJ Hb) as (HJ' & M & _ & Hstep).
    split; [exact HJ'|]. exact (Hkeep _ M s0 s1 Hc Hstep).
  - intros s. unfold gromov_wasserstein_adjusted_combined, combined_run.
    destruct (normalize seterr cost_mat) as [cm|ex]; cbn [attempt]; [|discriminate].
    intros Hs. apply fresh_at_exit.
    apply (while_loop_entered fresh _) in Hs; [exact Hs | | exact Hinit].
    intros s0 s1 [HJ _] Hc Hb. apply loop_cond_true in Hc.
    destruct (combined_body_done sinkhorn cost_mat C1 C2 alpha_linear p q loss_fun
                epsilon verbose s0 s1 HJ Hb) as (HJ' & M & _ & Hstep).
    split; [exact HJ'|]. exact (Hkeep _ M s0 s1 Hc Hstep).
Qed.

End EarlyStop.

(** * The float64 builders *)

(** ** Binary64 numbers in order *)

Section Binary64.

Local Open Scope Z_scope.

Lemma digits2_pos_bounds (m : positive) :
  2 ^ (Zpos (digits2_pos m) - 1) <= Zpos m < 2 ^ Zpos (digits2_pos m).
Proof.
  induction m as [m IH | m IH |]; simpl digits2_pos.
  - rewrite Pos2Z.inj_succ.
    replace (Z.succ (Zpos (digits2_pos m)) - 1) with (Z.succ (Zpos (digits2_pos m) - 1)) by lia.
    rewrite !Z.pow_succ_r by lia. lia.
  - rewrite Pos2Z.inj_succ.
    replace (Z.succ (Zpos (digits2_pos m)) - 1) with (Z.succ (Zpos (digits2_pos m) - 1)) by lia.
    rewrite !Z.pow_succ_r by lia. lia.
  - simpl. lia.
Qed.

(** What [valid_binary] says of a finite number: the exponent is at least
    -1074 and at most 971, the mantissa has at most 53 bits, and exactly
    53 above the least exponent. *)
Lemma bounded_facts (m : positive) (e : Z) :
  SpecFloat.bounded prec emax m e = true ->
  -1074 <= e <= 971 /\ Zpos m < 2 ^ 53 /\ (-1074 < e -> 2 ^ 52 <= Zpos m).
Proof.
  unfold SpecFloat.bounded, canonical_mantissa, fexp, SpecFloat.emin, prec, emax.
  intros H. apply andb_prop in H. destruct H as [Hc He].
  apply Z.eqb_eq in Hc. apply Z.leb_le in He.
  pose proof (digits2_pos_bounds m) as [Hlo Hhi].
  assert (Hd : Zpos (digits2_pos m) <= 53) by lia.
  split; [lia|]. split.
  - apply Z.lt_le_trans with (1 := Hhi). apply Z.pow_le_mono_r; lia.
  - intros Hlt. assert (Hd' : Zpos (digits2_pos m) = 53) by lia.
    rewrite Hd' in Hlo. exact Hlo.
Qed.

Lemma pow2_pos (k : Z) : 0 <= k -> 0 < 2 ^ k.
Proof. intros H. apply Z.pow_pos_nonneg; lia. Qed.

Lemma pow2_step (a b : Z) : 0 <= a -> a < b -> 2 * 2 ^ a <= 2 ^ b.
Proof.
  intros Ha Hab. rewrite <- Z.pow_succ_r by exact Ha.
  apply Z.pow_le_mono_r; lia.
Qed.

(** Two positive numbers of different exponents are ordered by them. *)
Lemma ord_exponents (m1 m2 : positive) (e1 e2 : Z) :
  SpecFloat.bounded prec emax m1 e1 = true -> SpecFloat.bounded prec emax m2 e2 = true ->
  e1 < e2 -> Zpos m1 * 2 ^ (e1 + 1074) < Zpos m2 * 2 ^ (e2 + 1074).
Proof.
  intros H1 H2 Hlt.
  destruct (bounded_facts _ _ H1) as (He1 & Hm1 & _).
  destruct (bounded_facts _ _ H2) as (He2 & _ & Hm2).
  specialize (Hm2 ltac:(lia)).
  pose proof (pow2_pos (e1 + 1074) ltac:(lia)) as Hp.
  pose proof (pow2_step (e1 + 1074) (e2 + 1074) ltac:(lia) ltac:(lia)) as Hs.
  change (2 ^ 53) with (2 * 2 ^ 52) in Hm1.
  nia.
Qed.

Lemma compare_scaled (a b k : Z) : 0 < k -> (a * k ?= b * k) = (a ?= b).
Proof.
  intros Hk. destruct (Z.compare_spec a b) as [-> | H | H].
  - apply Z.compare_refl.
  - apply Z.compare_lt_iff. nia.
  - apply Z.compare_gt_iff. nia.
Qed.

(** [SFcompare] on two numbers is the order of their places on the line. *)
Lemma SFcompare_ord (x y : spec_float) :
  valid_binary x = true -> valid_binary y = true ->
  Float64.sf_finite x = true -> Float64.sf_finite y = true ->
  SFcompare x y = Some (Float64.ord x ?= Float64.ord y).
Proof.
  destruct x as [sx | sx | | sx mx ex]; try discriminate;
    destruct y as [sy | sy | | sy my ey]; try discriminate;
    simpl valid_binary; intros Hx Hy _ _.
  - reflexivity.
  - destruct (bounded_facts _ _ Hy) as (He & _ & _).
    pose proof (pow2_pos (ey + 1074) ltac:(lia)) as Hp.
    destruct sy; cbv [SFcompare Float64.ord cond_Zopp]; f_equal; symmetry.
    + apply Z.compare_gt_iff. nia.
    + apply Z.compare_lt_iff. nia.
  - destruct (bounded_facts _ _ Hx) as (He & _ & _).
    pose proof (pow2_pos (ex + 1074) ltac:(lia)) as Hp.
    destruct sx; cbv [SFcompare Float64.ord cond_Zopp]; f_equal; symmetry.
    + apply Z.compare_lt_iff. nia.
    + apply Z.compare_gt_iff. nia.
  - destruct (bounded_facts _ _ Hx) as (Hex & _ & _).
    destruct (bounded_facts _ _ Hy) as (Hey & _ & _).
    pose proof (pow2_pos (ex + 1074) ltac:(lia)) as Hpx.
    pose proof (pow2_pos (ey + 1074) ltac:(lia)) as Hpy.
    destruct sx, sy; cbv [SFcompare Float64.ord cond_Zopp]; f_equal.
    + (* both negative *)
      destruct (Z.compare_spec ex ey) as [-> | Hlt | Hgt].
      * change (Pos.compare_cont Eq mx my) with (Zpos mx ?= Zpos my).
        rewrite <- (compare_scaled (Zpos mx) (Zpos my) _ Hpy).
        rewrite <- Z.compare_antisym. symmetry. apply Z.compare_opp.
      * symmetry. apply Z.compare_gt_iff.
        pose proof (ord_exponents _ _ _ _ Hx Hy Hlt). lia.
      * symmetry. apply Z.compare_lt_iff.
        pose proof (ord_exponents _ _ _ _ Hy Hx Hgt). lia.
    + symmetry. apply Z.compare_lt_iff. nia.
    + symmetry. apply Z.compare_gt_iff. nia.
    + destruct (Z.compare_spec ex ey) as [-> | Hlt | Hgt].
      * change (Pos.compare_cont Eq mx my) with (Zpos mx ?= Zpos my).
        now rewrite compare_scaled by exact Hpy.
      * symmetry. apply Z.compare_lt_iff. now apply ord_exponents.
      * symmetry. apply Z.compare_gt_iff. now apply ord_exponents.
Qed.

Lemma pos_iter_xO (m d : positive) : Zpos (Pos.iter xO m d) = Zpos m * 2 ^ Zpos d.
Proof.
  induction d as [|d IH] using Pos.peano_ind.
  - simpl. lia.
  - rewrite Pos.iter_succ, Pos2Z.inj_succ, Z.pow_succ_r by lia.
    rewrite Pos2Z.inj_xO, IH. lia.
Qed.

Lemma shl_align_fst (m : positive) (e ez : Z) :
  ez <= e -> Zpos (fst (shl_align m e ez)) = Zpos m * 2 ^ (e - ez).
Proof.
  intros Hle. unfold shl_align. destruct (ez - e) as [|d|d] eqn:Hd.
  - replace (e - ez) with 0 by lia. simpl. lia.
  - lia.
  - replace (e - ez) with (Zpos d) by lia. simpl fst. apply pos_iter_xO.
Qed.

Lemma iter_pos_keeps {A : Type} (P : A -> Prop) (f : A -> A) :
  (forall x, P x -> P (f x)) -> forall n x, P x -> P (SpecFloat.iter_pos f n x).
Proof.
  intros Hf n. induction n as [n IH | n IH |]; intros x Hx; simpl; auto.
Qed.

Lemma shr_1_nonneg (mrs : shr_record) : 0 <= shr_m mrs -> 0 <= shr_m (shr_1 mrs).
Proof.
  destruct mrs as [m r s]. simpl. intros Hm.
  destruct m as [|[m|m|]|[m|m|]]; simpl; lia.
Qed.

Lemma shr_fexp_nonneg (m e : Z) (l : location) :
  0 <= m -> 0 <= shr_m (fst (shr_fexp prec emax m e l)).
Proof.
  intros Hm. unfold shr_fexp, shr.
  assert (H0 : 0 <= shr_m (shr_record_of_loc m l))
    by (destruct l as [|[]]; exact Hm).
  destruct (fexp prec emax (Zdigits2 m + e) - e); simpl fst; try exact H0.
  apply (iter_pos_keeps (fun r => 0 <= shr_m r)); [apply shr_1_nonneg | exact H0].
Qed.

Lemma round_nearest_even_nonneg (m : Z) (l : location) :
  0 <= m -> 0 <= round_nearest_even m l.
Proof.
  intros Hm. unfold round_nearest_even.
  destruct l as [|[]]; try destruct (Z.even m); lia.
Qed.

(** Rounding a magnitude gives a zero, a number or an infinity of the sign
    asked for: never nan. *)
Lemma binary_round_aux_sign (sx : bool) (mx ex : Z) (lx : location) :
  0 <= mx ->
  match binary_round_aux prec emax sx mx ex lx with
  | S754_zero s | S754_infinity s | S754_finite s _ _ => s = sx
  | S754_nan => False
  end.
Proof.
  intros Hm. unfold binary_round_aux.
  pose proof (shr_fexp_nonneg mx ex lx Hm) as H1.
  destruct (shr_fexp prec emax mx ex lx) as [mrs' e'].
  simpl fst in H1.
  pose proof (shr_fexp_nonneg _ e' loc_Exact
                (round_nearest_even_nonneg _ (loc_of_shr_record mrs') H1)) as H2.
  destruct (shr_fexp prec emax _ e' loc_Exact) as [mrs'' e''].
  simpl fst in H2.
  destruct (shr_m mrs'') as [|m|m]; [reflexivity | | lia].
  destruct (e'' <=? emax - prec); reflexivity.
Qed.

Lemma binary_normalize_nonneg (d e : Z) :
  0 <= d -> Float64.sf_nonneg (binary_normalize prec emax d e false) = true.
Proof.
  intros Hd. destruct d as [|m|m]; [reflexivity | | lia].
  unfold binary_normalize, binary_round.
  destruct (shl_align m e _) as [mz ez].
  pose proof (binary_round_aux_sign false (Zpos mz) ez loc_Exact ltac:(lia)) as H.
  destruct (binary_round_aux prec emax false (Zpos mz) ez loc_Exact) as [s|s| |s m' e'];
    try contradiction; subst; reflexivity.
Qed.

(** The integer [SFsub] rounds, scaled back, is the distance on the line. *)
Lemma sub_mantissa (sx sy : bool) (mx my : positive) (ex ey : Z) :
  -1074 <= ex -> -1074 <= ey ->
  (cond_Zopp sx (Zpos (fst (shl_align mx ex (Z.min ex ey)))) -
   cond_Zopp sy (Zpos (fst (shl_align my ey (Z.min ex ey))))) *
  2 ^ (Z.min ex ey + 1074) =
  Float64.ord (S754_finite sx mx ex) - Float64.ord (S754_finite sy my ey).
Proof.
  intros Hx Hy.
  rewrite !shl_align_fst by lia.
  assert (Ex : 2 ^ (ex + 1074) = 2 ^ (ex - Z.min ex ey) * 2 ^ (Z.min ex ey + 1074)).
  { rewrite <- Z.pow_add_r by lia. f_equal. lia. }
  assert (Ey : 2 ^ (ey + 1074) = 2 ^ (ey - Z.min ex ey) * 2 ^ (Z.min ex ey + 1074)).
  { rewrite <- Z.pow_add_r by lia. f_equal. lia. }
  unfold Float64.ord. rewrite Ex, Ey.
  destruct sx, sy; unfold cond_Zopp; ring.
Qed.

(** Subtracting a number from one not below it gives a value that is at
    least 0: a zero, a positive number or +inf. *)
Lemma SFsub_nonneg (x y : spec_float) :
  valid_binary x = true -> valid_binary y = true ->
  Float64.sf_finite x = true -> Float64.sf_finite y = true ->
  Float64.ord y <= Float64.ord x ->
  Float64.sf_nonneg (SF64sub x y) = true.
Proof.
  destruct x as [sx | sx | | sx mx ex]; try discriminate;
    destruct y as [sy | sy | | sy my ey]; try discriminate;
    simpl valid_binary; intros Hx Hy _ _ Hle.
  - destruct sx, sy; reflexivity.
  - destruct (bounded_facts _ _ Hy) as (He & _ & _).
    pose proof (pow2_pos (ey + 1074) ltac:(lia)) as Hp.
    destruct sy; [reflexivity|]. cbv [Float64.ord cond_Zopp] in Hle. nia.
  - destruct (bounded_facts _ _ Hx) as (He & _ & _).
    pose proof (pow2_pos (ex + 1074) ltac:(lia)) as Hp.
    destruct sx; [|reflexivity]. cbv [Float64.ord cond_Zopp] in Hle. nia.
  - destruct (bounded_facts _ _ Hx) as (Hex & _ & _).
    destruct (bounded_facts _ _ Hy) as (Hey & _ & _).
    change (SF64sub (S754_finite sx mx ex) (S754_finite sy my ey))
      with (binary_normalize prec emax
              (cond_Zopp sx (Zpos (fst (shl_align mx ex (Z.min ex ey)))) -
               cond_Zopp sy (Zpos (fst (shl_align my ey (Z.min ex ey)))))
              (Z.min ex ey) false).
    apply binary_normalize_nonneg.
    pose proof (sub_mantissa sx sy mx my ex ey ltac:(lia) ltac:(lia)) as Hd.
    pose proof (pow2_pos (Z.min ex ey + 1074) ltac:(lia)) as Hp.
    nia.
Qed.

(** A number minus itself is a zero. *)
Lemma SFsub_diag (x : spec_float) :
  Float64.sf_finite x = true -> Float64.sf_zero (SF64sub x x) = true.
Proof.
  destruct x as [sx | sx | | sx mx ex]; try discriminate; intros _.
  - destruct sx; reflexivity.
  - change (SF64sub (S754_finite sx mx ex) (S754_finite sx mx ex))
      with (binary_normalize prec emax
              (cond_Zopp sx (Zpos (fst (shl_align mx ex (Z.min ex ex)))) -
               cond_Zopp sx (Zpos (fst (shl_align mx ex (Z.min ex ex)))))
              (Z.min ex ex) false).
    rewrite Z.sub_diag. reflexivity.
Qed.

End Binary64.

(** ** Float64 arrays *)

Section Float64Arrays.

Local Abbreviation F := Prim2SF.
Local Abbreviation number x := (Float64.sf_finite (Prim2SF x) = true).
Local Abbreviation nonneg x := (Float64.sf_nonneg (Prim2SF x) = true).
Local Abbreviation is_a_zero x := (Float64.sf_zero (Prim2SF x) = true).

Lemma SFeqb_refl (x : spec_float) : x <> S754_nan -> SFeqb x x = true.
Proof.
  destruct x as [s | s | | s m e]; intros H; try reflexivity; try congruence.
  - now destruct s.
  - unfold SFeqb, SFcompare.
    destruct s; rewrite Z.compare_refl, Pos.compare_cont_refl; reflexivity.
Qed.

Lemma is_nan_spec (x : float) : is_nan x = true <-> F x = S754_nan.
Proof.
  unfold is_nan. rewrite FloatAxioms.eqb_spec. split.
  - intros H. destruct (F x) as [s | s | | s m e] eqn:E; try reflexivity;
      rewrite SFeqb_refl in H by discriminate; discriminate.
  - intros ->. reflexivity.
Qed.

Lemma is_finite_spec (x : float) : is_finite x = Float64.sf_finite (F x).
Proof.
  unfold is_finite, is_nan, is_infinity. rewrite !FloatAxioms.eqb_spec, FloatAxioms.abs_spec.
  change (F infinity) with (S754_infinity false).
  destruct (F x) as [s | s | | s m e] eqn:E; try reflexivity.
  - now destruct s.
  - rewrite SFeqb_refl by discriminate. reflexivity.
Qed.

Lemma leb_ord (x y : float) :
  number x -> number y ->
  (x <=? y)%float = (Float64.ord (F x) <=? Float64.ord (F y))%Z.
Proof.
  intros Hx Hy. rewrite FloatAxioms.leb_spec. unfold SFleb.
  rewrite (SFcompare_ord _ _ (Prim2SF_valid x) (Prim2SF_valid y) Hx Hy).
  unfold Z.leb. now destruct (Float64.ord (F x) ?= Float64.ord (F y))%Z.
Qed.

Lemma number_not_nan (x : float) : number x -> is_nan x = false.
Proof.
  intros Hx. destruct (is_nan x) eqn:E; [|reflexivity].
  apply is_nan_spec in E. rewrite E in Hx. discriminate.
Qed.

Lemma nonneg_not_nan (x : float) : nonneg x -> is_nan x = false.
Proof.
  intros Hx. destruct (is_nan x) eqn:E; [|reflexivity].
  apply is_nan_spec in E. rewrite E in Hx. discriminate.
Qed.

(** The minimum of numbers is one of them, and below every one. *)
Lemma fold_scalar_min (l : list float) (x : float) :
  number x -> Forall (fun y => number y) l ->
  number (fold_left Float64.scalar_min l x) /\
  In (fold_left Float64.scalar_min l x) (x :: l) /\
  forall y, In y (x :: l) ->
    (Float64.ord (F (fold_left Float64.scalar_min l x)) <= Float64.ord (F y))%Z.
Proof.
  revert x; induction l as [|a l IH]; intros x Hx Hl.
  - simpl. split; [exact Hx|]. split; [now left|].
    intros y [<- | []]. lia.
  - inversion Hl as [|? ? Ha Hl']; subst.
    assert (Hstep : Float64.scalar_min x a = x /\
                    (Float64.ord (F x) <= Float64.ord (F a))%Z \/
                    Float64.scalar_min x a = a /\
                    (Float64.ord (F a) <= Float64.ord (F x))%Z).
    { unfold Float64.scalar_min. rewrite (number_not_nan x Hx), orb_false_r.
      rewrite (leb_ord x a Hx Ha).
      destruct (Float64.ord (F x) <=? Float64.ord (F a))%Z eqn:E.
      - left. split; [reflexivity|]. now apply Z.leb_le.
      - right. split; [reflexivity|]. apply Z.leb_gt in E. lia. }
    simpl fold_left.
    destruct Hstep as [[-> Hle] | [-> Hle]].
    + destruct (IH x Hx Hl') as (H1 & H2 & H3).
      split; [exact H1|]. split.
      * destruct H2 as [H2 | H2]; [now left | now right; right].
      * intros y [<- | [<- | Hy]].
        -- apply H3. now left.
        -- specialize (H3 x (or_introl eq_refl)). lia.
        -- apply H3. now right.
    + destruct (IH a Ha Hl') as (H1 & H2 & H3).
      split; [exact H1|]. split.
      * destruct H2 as [H2 | H2]; [now right; left | now right; right].
      * intros y [<- | [<- | Hy]].
        -- specialize (H3 a (or_introl eq_refl)). lia.
        -- apply H3. now left.
        -- apply H3. now right.
Qed.

Lemma sub_nonneg (x m : float) :
  number x -> number m -> (Float64.ord (F m) <= Float64.ord (F x))%Z ->
  nonneg (x - m)%float.
Proof.
  intros Hx Hm Hle. rewrite FloatAxioms.sub_spec.
  now apply SFsub_nonneg; try apply Prim2SF_valid.
Qed.

Lemma sub_diag (m : float) : number m -> is_a_zero (m - m)%float.
Proof. intros Hm. rewrite FloatAxioms.sub_spec. now apply SFsub_diag. Qed.

Lemma nonneg_leb (y : float) : nonneg y -> (0 <=? y)%float = true.
Proof.
  intros Hy. rewrite FloatAxioms.leb_spec. change (F 0%float) with (S754_zero false).
  destruct (F y) as [s | s | | s m e]; try discriminate; try reflexivity.
  - now destruct s.
  - now destruct s.
Qed.

Lemma zero_eqb (y : float) : is_a_zero y -> (y =? 0)%float = true.
Proof.
  intros Hy. rewrite FloatAxioms.eqb_spec. change (F 0%float) with (S754_zero false).
  destruct (F y) as [s | s | | s m e]; try discriminate. reflexivity.
Qed.

Lemma zero_nonneg (y : float) : is_a_zero y -> nonneg y.
Proof. destruct (F y); try discriminate; reflexivity. Qed.

(** Among values that are at least 0, a zero wins the minimum from either
    side. *)
Lemma scalar_min_nonneg (a b : float) :
  nonneg a -> nonneg b ->
  nonneg (Float64.scalar_min a b) /\
  (is_a_zero a \/ is_a_zero b -> is_a_zero (Float64.scalar_min a b)).
Proof.
  intros Ha Hb. unfold Float64.scalar_min.
  rewrite (nonneg_not_nan a Ha), orb_false_r, FloatAxioms.leb_spec.
  destruct (F a) as [sa | sa | | sa ma ea] eqn:Ea; try discriminate;
    destruct (F b) as [sb | sb | | sb mb eb] eqn:Eb; try discriminate;
    try (destruct sa; try discriminate); try (destruct sb; try discriminate);
    unfold SFleb, SFcompare;
    repeat match goal with
           | |- context [(?x ?= ?y)%Z] => destruct (x ?= y)%Z
           | |- context [Pos.compare_cont ?c ?x ?y] => destruct (Pos.compare_cont c x y)
           end;
    rewrite ?Ea, ?Eb; (split; [reflexivity | intros [H | H]; (exact H || discriminate H || reflexivity)]).
Qed.

Lemma fold_scalar_min_zero (l : list float) (x : float) :
  nonneg x -> Forall (fun y => nonneg y) l ->
  is_a_zero x \/ Exists (fun y => is_a_zero y) l ->
  is_a_zero (fold_left Float64.scalar_min l x).
Proof.
  revert x; induction l as [|a l IH]; intros x Hx Hl Hz.
  - destruct Hz as [Hz | Hz]; [exact Hz | inversion Hz].
  - inversion Hl as [|? ? Ha Hl']; subst. simpl fold_left.
    destruct (scalar_min_nonneg x a Hx Ha) as [Hn Hzero].
    apply IH; [exact Hn | exact Hl' |].
    destruct Hz as [Hz | Hz]; [left; apply Hzero; now left|].
    inversion Hz as [? ? Hz0 | ? ? Hz1]; subst.
    + left. apply Hzero. now right.
    + now right.
Qed.

Lemma entries_msub_scalar (N : fmatrix) (m : float) :
  Float64.entries (Float64.msub_scalar N m) =
  map (fun y => (y - m)%float) (Float64.entries N).
Proof.
  unfold Float64.entries, Float64.msub_scalar, Float64.mmap.
  now rewrite concat_map.
Qed.

(** The shift [tens -= tens.min()] on an array of numbers: the minimum
    is an entry below every entry, every entry becomes at least 0, the
    minimum itself becomes a zero, and the minimum of the result is a
    zero. *)
Lemma min_shift (N : fmatrix) :
  Float64.entries N <> [] -> Float64.all_finite N = true ->
  exists m,
    Float64.amin N = Ok m /\
    In m (Float64.entries N) /\
    (forall y, In y (Float64.entries N) -> (m <=? y)%float = true) /\
    (forall y, In y (Float64.entries (Float64.msub_scalar N m)) ->
       (0 <=? y)%float = true) /\
    (exists z, In z (Float64.entries (Float64.msub_scalar N m)) /\
               (z =? 0)%float = true) /\
    exists m',
      Float64.amin (Float64.msub_scalar N m) = Ok m' /\
      (m' =? 0)%float = true.
Proof.
  intros Hne Hfin. unfold Float64.all_finite in Hfin.
  rewrite forallb_forall in Hfin.
  assert (Hnum : forall y, In y (Float64.entries N) -> number y).
  { intros y Hy. rewrite <- is_finite_spec. now apply Hfin. }
  unfold Float64.amin at 1.
  destruct (Float64.entries N) as [|x l] eqn:E; [congruence|].
  destruct (fold_scalar_min l x) as (Hm & Hin & Hle).
  { apply Hnum. now left. }
  { apply Forall_forall. intros y Hy. apply Hnum. now right. }
  set (m := fold_left Float64.scalar_min l x) in *.
  exists m. split; [reflexivity|]. split; [exact Hin|].
  assert (Hshift : forall y, In y (x :: l) -> nonneg (y - m)%float).
  { intros y Hy. apply sub_nonneg; [now apply Hnum | exact Hm | now apply Hle]. }
  split; [|split; [|split]].
  - intros y Hy. rewrite (leb_ord m y Hm (Hnum y Hy)).
    apply Z.leb_le. now apply Hle.
  - intros y Hy. rewrite entries_msub_scalar, E in Hy.
    apply in_map_iff in Hy. destruct Hy as (y0 & <- & Hy0).
    apply nonneg_leb. now apply Hshift.
  - exists (m - m)%float. split.
    + rewrite entries_msub_scalar, E. apply in_map_iff. now exists m.
    + apply zero_eqb. now apply sub_diag.
  - unfold Float64.amin. rewrite entries_msub_scalar, E. simpl map.
    eexists. split; [reflexivity|]. apply zero_eqb.
    apply fold_scalar_min_zero.
    + apply Hshift. now left.
    + apply Forall_forall. intros y Hy. apply in_map_iff in Hy.
      destruct Hy as (y0 & <- & Hy0). apply Hshift. now right.
    + destruct Hin as [Hin | Hin].
      * left. rewrite Hin. now apply sub_diag.
      * right. apply Exists_exists. exists (m - m)%float. split.
        -- apply in_map_iff. now exists m.
        -- now apply sub_diag.
Qed.

End Float64Arrays.

(** ** The square-loss builders in float64 *)

Section FloatBuilders.

Variable np_dot : fmatrix -> fmatrix -> fmatrix.

Lemma is_finite_opp (x : float) : is_finite (- x)%float = is_finite x.
Proof.
  rewrite !is_finite_spec, opp_spec. now destruct (Prim2SF x).
Qed.

Lemma mneg_numbers (P : fmatrix) :
  Float64.entries P <> [] -> Float64.all_finite P = true ->
  Float64.entries (Float64.mneg P) <> [] /\
  Float64.all_finite (Float64.mneg P) = true.
Proof.
  unfold Float64.all_finite, Float64.mneg, Float64.mmap, Float64.entries.
  rewrite <- concat_map. intros Hne Hfin. split.
  - destruct (concat P); [congruence | discriminate].
  - rewrite forallb_forall in *. intros y Hy. apply in_map_iff in Hy.
    destruct Hy as (x & <- & Hx). rewrite is_finite_opp. now apply Hfin.
Qed.

Lemma fshape_mmap (f : float -> float) (r c : nat) (M : fmatrix) :
  Float64.shape r c M -> Float64.shape r c (Float64.mmap f M).
Proof.
  intros [Hr Hc]. unfold Float64.mmap. split.
  - now rewrite length_map.
  - apply Forall_map. eapply Forall_impl; [|exact Hc].
    intros row Hrow. simpl. now rewrite length_map.
Qed.

Lemma flength_zip_with (f : float -> float -> float) (a b : fvec) (c : nat) :
  length a = c -> length b = c -> length (Float64.zip_with f a b) = c.
Proof.
  revert b c; induction a as [|x a IH]; intros [|y b] c Ha Hb; simpl in *; try lia.
  destruct c; [lia|]. f_equal. apply IH; lia.
Qed.

Lemma fshape_mzip_with (f : float -> float -> float) (r c : nat) (A B : fmatrix) :
  Float64.shape r c A -> Float64.shape r c B ->
  Float64.shape r c (Float64.mzip_with f A B).
Proof.
  revert r B; induction A as [|a A IH]; intros r [|b B] [HA1 HA2] [HB1 HB2];
    simpl in *; try (unfold Float64.shape; simpl; split; [lia | constructor]).
  destruct r; [lia|].
  inversion HA2 as [|? ? Ha HA]; inversion HB2 as [|? ? Hb HB]; subst.
  destruct (IH r B) as [H1 H2]; [split; [lia | assumption] | split; [lia | assumption] |].
  split; [simpl; lia|]. constructor; [now apply flength_zip_with | exact H2].
Qed.

Lemma fshape_transpose (r c : nat) (M : fmatrix) :
  (1 <= r)%nat -> Float64.shape r c M -> Float64.shape c r (Float64.transpose M).
Proof.
  intros Hr [Hlen Hall].
  assert (Hc : Float64.ncols M = c).
  { destruct M as [|row M]; simpl in *; [lia|]. now inversion Hall. }
  unfold Float64.transpose. split.
  - now rewrite length_map, length_seq.
  - apply Forall_map, Forall_forall. intros j _.
    unfold Float64.col. now rewrite length_map.
Qed.

Lemma fshape_entries (r c : nat) (M : fmatrix) :
  (1 <= r)%nat -> (1 <= c)%nat -> Float64.shape r c M -> Float64.entries M <> [].
Proof.
  intros Hr Hc [Hlen Hall]. destruct M as [|row M]; simpl in *; [lia|].
  inversion Hall as [|? ? Hrow _]; subst.
  destruct row; simpl in *; [lia | discriminate].
Qed.

Lemma fshape_dot (r k c : nat) (A B : fmatrix) :
  (1 <= k)%nat -> Float64.shape r k A -> Float64.shape k c B ->
  Float64.shape r c (Float64.dot A B).
Proof.
  intros Hk [HA _] [HB HBc].
  assert (Hc : Float64.ncols B = c).
  { destruct B as [|row B]; simpl in *; [lia|]. now inversion HBc. }
  unfold Float64.dot. split.
  - now rewrite length_map.
  - apply Forall_map, Forall_forall. intros a _.
    now rewrite length_map, length_seq.
Qed.

(** What the development asks of [np.dot]: the product of an r x k and a
    k x c array is an r x c array. *)
Hypothesis np_dot_shape :
  forall r k c A B, (1 <= k)%nat ->
    Float64.shape r k A -> Float64.shape k c B -> Float64.shape r c (np_dot A B).

Lemma fshape_nonlinear (ns nt : nat) (C1 C2 T : fmatrix) :
  (1 <= ns)%nat -> (1 <= nt)%nat ->
  Float64.shape ns ns C1 -> Float64.shape nt nt C2 -> Float64.shape ns nt T ->
  Float64.shape ns nt (np_dot (np_dot C1 T) (Float64.transpose C2)).
Proof.
  intros Hns Hnt HC1 HC2 HT.
  apply (np_dot_shape ns nt nt); [exact Hnt | |now apply fshape_transpose].
  now apply (np_dot_shape ns ns nt).
Qed.

(** C1, as the code has it.  For C1 (ns x ns), C2 (nt x nt) and a coupling
    T (ns x nt) with ns, nt >= 1, when every entry of the float64 product
    [P = (C1 . T) . C2^T] is a number (no product or sum overflowed, no
    nan came in), [tensor_square_loss_mine] returns the array of the
    [- x - m], for [x] the entries of [P] and [m] the least of the [- x]:
    an ns x nt array whose entries are all at least 0, one of which is a
    zero, so that its minimum is a zero. *)
Theorem tensor_square_loss_mine_min_shift (ns nt : nat) (C1 C2 T : fmatrix) :
  (1 <= ns)%nat -> (1 <= nt)%nat ->
  Float64.shape ns ns C1 -> Float64.shape nt nt C2 -> Float64.shape ns nt T ->
  Float64.all_finite (np_dot (np_dot C1 T) (Float64.transpose C2)) = true ->
  exists m tens,
    Float64.amin (Float64.mneg (np_dot (np_dot C1 T) (Float64.transpose C2))) = Ok m /\
    (exists x, In x (Float64.entries (np_dot (np_dot C1 T) (Float64.transpose C2))) /\
               m = (- x)%float) /\
    (forall x, In x (Float64.entries (np_dot (np_dot C1 T) (Float64.transpose C2))) ->
       (m <=? - x)%float = true) /\
    Float64.tensor_square_loss_mine np_dot C1 C2 T = Ok tens /\
    tens = map (map (fun x => (- x - m)%float))
             (np_dot (np_dot C1 T) (Float64.transpose C2)) /\
    Float64.shape ns nt tens /\
    (forall y, In y (Float64.entries tens) -> (0 <=? y)%float = true) /\
    (exists z, In z (Float64.entries tens) /\ (z =? 0)%float = true) /\
    exists m', Float64.amin tens = Ok m' /\ (m' =? 0)%float = true.
Proof.
  intros Hns Hnt HC1 HC2 HT Hfin.
  pose proof (fshape_nonlinear ns nt C1 C2 T Hns Hnt HC1 HC2 HT) as Hsh.
  pose proof (fshape_entries ns nt _ Hns Hnt Hsh) as Hne.
  destruct (mneg_numbers _ Hne Hfin) as [Hne' Hfin'].
  destruct (min_shift _ Hne' Hfin')
    as (m & Hm & Hin & Hle & Hpos & Hz & m' & Hm' & Hzero).
  assert (Hent : Float64.entries
                   (Float64.mneg (np_dot (np_dot C1 T) (Float64.transpose C2))) =
                 map PrimFloat.opp
                   (Float64.entries (np_dot (np_dot C1 T) (Float64.transpose C2)))).
  { unfold Float64.entries, Float64.mneg, Float64.mmap. now rewrite concat_map. }
  assert (Hform : Float64.msub_scalar
                    (Float64.mneg (np_dot (np_dot C1 T) (Float64.transpose C2))) m =
                  map (map (fun x => (- x - m)%float))
                    (np_dot (np_dot C1 T) (Float64.transpose C2))).
  { unfold Float64.msub_scalar, Float64.mneg, Float64.mmap.
    rewrite map_map. apply map_ext. intros row. now rewrite map_map. }
  exists m. eexists. split; [exact Hm|]. split; [|split; [|split]].
  - rewrite Hent in Hin. apply in_map_iff in Hin.
    destruct Hin as (x & Hx & Hin). exists x. auto.
  - intros x Hx. apply Hle. rewrite Hent. apply in_map_iff. now exists x.
  - unfold Float64.tensor_square_loss_mine, Float64.h1, Float64.h2.
    rewrite Hm. reflexivity.
  - split; [exact Hform|]. split; [|split; [exact Hpos | split; [exact Hz|]]].
    + apply fshape_mmap, fshape_mmap, Hsh.
    + exists m'. auto.
Qed.

(** X1. The combined builder shifts alike.  On arrays of the documented
    shapes with ns, nt >= 1, when the float64 array
    [-N - alpha_linear * ((cost_mat * T) * max N)], with
    [N = (C1 . T) . C2^T], has only numbers for entries, what
    [tensor_square_loss_mine_combined] returns is that array minus its
    least entry: an ns x nt array with every entry at least 0, one of
    which is a zero, so that its minimum is a zero. *)
Theorem tensor_square_loss_mine_combined_min_shift
  (ns nt : nat) (C1 C2 T cost_mat : fmatrix) (alpha_linear mx : float) :
  (1 <= ns)%nat -> (1 <= nt)%nat ->
  Float64.shape ns ns C1 -> Float64.shape nt nt C2 ->
  Float64.shape ns nt T -> Float64.shape ns nt cost_mat ->
  Float64.amax (np_dot (np_dot C1 T) (Float64.transpose C2)) = Ok mx ->
  Float64.all_finite
    (Float64.msub (Float64.mneg (np_dot (np_dot C1 T) (Float64.transpose C2)))
       (Float64.mscale_l alpha_linear
          (Float64.mscale_r (Float64.mmul cost_mat T) mx))) = true ->
  exists m tens,
    In m (Float64.entries
            (Float64.msub (Float64.mneg (np_dot (np_dot C1 T) (Float64.transpose C2)))
               (Float64.mscale_l alpha_linear
                  (Float64.mscale_r (Float64.mmul cost_mat T) mx)))) /\
    (forall y,
       In y (Float64.entries
               (Float64.msub
                  (Float64.mneg (np_dot (np_dot C1 T) (Float64.transpose C2)))
                  (Float64.mscale_l alpha_linear
                     (Float64.mscale_r (Float64.mmul cost_mat T) mx)))) ->
       (m <=? y)%float = true) /\
    Float64.tensor_square_loss_mine_combined np_dot C1 C2 T cost_mat alpha_linear
      = Ok tens /\
    tens = map (map (fun y => (y - m)%float))
             (Float64.msub
                (Float64.mneg (np_dot (np_dot C1 T) (Float64.transpose C2)))
                (Float64.mscale_l alpha_linear
                   (Float64.mscale_r (Float64.mmul cost_mat T) mx))) /\
    Float64.shape ns nt tens /\
    (forall y, In y (Float64.entries tens) -> (0 <=? y)%float = true) /\
    (exists z, In z (Float64.entries tens) /\ (z =? 0)%float = true) /\
    exists m', Float64.amin tens = Ok m' /\ (m' =? 0)%float = true.
Proof.
  intros Hns Hnt HC1 HC2 HT Hcm Hmx Hfin.
  pose proof (fshape_nonlinear ns nt C1 C2 T Hns Hnt HC1 HC2 HT) as Hsh.
  assert (Hraw : Float64.shape ns nt
            (Float64.msub (Float64.mneg (np_dot (np_dot C1 T) (Float64.transpose C2)))
               (Float64.mscale_l alpha_linear
                  (Float64.mscale_r (Float64.mmul cost_mat T) mx)))).
  { apply fshape_mzip_with.
    - now apply fshape_mmap.
    - apply fshape_mmap, fshape_mmap. now apply fshape_mzip_with. }
  pose proof (fshape_entries ns nt _ Hns Hnt Hraw) as Hne.
  destruct (min_shift _ Hne Hfin)
    as (m & Hm & Hin & Hle & Hpos & Hz & m' & Hm' & Hzero).
  exists m. eexists. split; [exact Hin|]. split; [exact Hle|]. split.
  - unfold Float64.tensor_square_loss_mine_combined, Float64.h1, Float64.h2.
    rewrite Hmx. cbn [bind]. rewrite Hm. reflexivity.
  - split; [reflexivity|]. split; [|split; [exact Hpos | split; [exact Hz|]]].
    + now apply fshape_mmap.
    + exists m'. auto.
Qed.

End FloatBuilders.

(** C1, as stated, fails on finite inputs whose product overflows:
    [1e200 * 1e200] is [inf], its negation [-inf] is the minimum, and
    [-inf - (-inf)] is nan, which is neither at least 0 nor a zero. *)
Lemma overflow_gives_nan :
  Float64.tensor_square_loss_mine Float64.dot [[1e200%float]] [[1e200%float]]
    [[1%float]] = Ok [[nan]] /\
  (0 <=? nan)%float = false /\
  Float64.amin [[nan]] = Ok nan /\
  (nan =? 0)%float = false.
Proof. repeat split; reflexivity. Qed.

Lemma float_example_shapes :
  Float64.shape 2 2 [[0; 1]; [1; 0]]%float /\ Float64.shape 1 1 [[3]]%float /\
  Float64.shape 2 1 [[1]; [2]]%float /\ Float64.shape 2 1 [[4]; [5]]%float.
Proof. repeat split; repeat constructor. Qed.

Lemma tensor_square_loss_mine_min_shift_witness :
  (1 <= 2)%nat /\ (1 <= 1)%nat /\
  Float64.shape 2 2 [[0; 1]; [1; 0]]%float /\ Float64.shape 1 1 [[3]]%float /\
  Float64.shape 2 1 [[1]; [2]]%float /\
  Float64.all_finite
    (Float64.dot (Float64.dot [[0; 1]; [1; 0]]%float [[1]; [2]]%float)
       (Float64.transpose [[3]]%float)) = true /\
  exists tens,
    Float64.tensor_square_loss_mine Float64.dot
      [[0; 1]; [1; 0]]%float [[3]]%float [[1]; [2]]%float = Ok tens /\
    tens = [[0]; [3]]%float /\
    Float64.shape 2 1 tens /\
    (forall y, In y (Float64.entries tens) -> (0 <=? y)%float = true) /\
    exists m', Float64.amin tens = Ok m' /\ (m' =? 0)%float = true.
Proof.
  destruct float_example_shapes as (H22 & H11 & H21 & _).
  assert (Hns : (1 <= 2)%nat) by lia. assert (Hnt : (1 <= 1)%nat) by lia.
  assert (Hfin : Float64.all_finite
            (Float64.dot (Float64.dot [[0; 1]; [1; 0]]%float [[1]; [2]]%float)
               (Float64.transpose [[3]]%float)) = true) by reflexivity.
  split; [exact Hns|]. split; [exact Hnt|]. split; [exact H22|].
  split; [exact H11|]. split; [exact H21|]. split; [exact Hfin|].
  destruct (tensor_square_loss_mine_min_shift Float64.dot fshape_dot 2 1
              [[0; 1]; [1; 0]]%float [[3]]%float [[1]; [2]]%float
              Hns Hnt H22 H11 H21 Hfin)
    as (m & tens & Hm & _ & _ & Hres & Htens & Hsh & Hpos & _ & Hmin).
  exists tens. split; [exact Hres|].
  split; [|split; [exact Hsh | split; [exact Hpos | exact Hmin]]].
  assert (E : Float64.tensor_square_loss_mine Float64.dot
                [[0; 1]; [1; 0]]%float [[3]]%float [[1]; [2]]%float
              = Ok [[0]; [3]]%float) by reflexivity.
  rewrite E in Hres. now injection Hres as <-.
Defined.

Lemma tensor_square_loss_mine_combined_min_shift_witness :
  (1 <= 2)%nat /\ (1 <= 1)%nat /\
  Float64.shape 2 2 [[0; 1]; [1; 0]]%float /\ Float64.shape 1 1 [[3]]%float /\
  Float64.shape 2 1 [[1]; [2]]%float /\ Float64.shape 2 1 [[4]; [5]]%float /\
  Float64.amax
    (Float64.dot (Float64.dot [[0; 1]; [1; 0]]%float [[1]; [2]]%float)
       (Float64.transpose [[3]]%float)) = Ok 6%float /\
  exists tens,
    Float64.tensor_square_loss_mine_combined Float64.dot
      [[0; 1]; [1; 0]]%float [[3]]%float [[1]; [2]]%float [[4]; [5]]%float 0.5%float
      = Ok tens /\
    tens = [[15]; [0]]%float /\
    Float64.shape 2 1 tens /\
    (forall y, In y (Float64.entries tens) -> (0 <=? y)%float = true) /\
    exists m', Float64.amin tens = Ok m' /\ (m' =? 0)%float = true.
Proof.
  destruct float_example_shapes as (H22 & H11 & H21 & H21').
  assert (Hns : (1 <= 2)%nat) by lia. assert (Hnt : (1 <= 1)%nat) by lia.
  assert (Hmx : Float64.amax
            (Float64.dot (Float64.dot [[0; 1]; [1; 0]]%float [[1]; [2]]%float)
               (Float64.transpose [[3]]%float)) = Ok 6%float) by reflexivity.
  assert (Hfin : Float64.all_finite
            (Float64.msub
               (Float64.mneg
                  (Float64.dot (Float64.dot [[0; 1]; [1; 0]]%float [[1]; [2]]%float)
                     (Float64.transpose [[3]]%float)))
               (Float64.mscale_l 0.5%float
                  (Float64.mscale_r
                     (Float64.mmul [[4]; [5]]%float [[1]; [2]]%float) 6%float)))
            = true) by reflexivity.
  split; [exact Hns|]. split; [exact Hnt|]. split; [exact H22|].
  split; [exact H11|]. split; [exact H21|]. split; [exact H21'|].
  split; [exact Hmx|].
  destruct (tensor_square_loss_mine_combined_min_shift Float64.dot fshape_dot 2 1
              [[0; 1]; [1; 0]]%float [[3]]%float [[1]; [2]]%float [[4]; [5]]%float
              0.5%float 6%float Hns Hnt H22 H11 H21 H21' Hmx Hfin)
    as (m & tens & _ & _ & Hres & Htens & Hsh & Hpos & _ & Hmin).
  exists tens. split; [exact Hres|].
  split; [|split; [exact Hsh | split; [exact Hpos | exact Hmin]]].
  assert (E : Float64.tensor_square_loss_mine_combined Float64.dot
                [[0; 1]; [1; 0]]%float [[3]]%float [[1]; [2]]%float
                [[4]; [5]]%float 0.5%float
              = Ok [[15]; [0]]%float) by reflexivity.
  rewrite E in Hres. now injection Hres as <-.
Defined.

(** ** Concrete inputs for the properties above *)

Lemma example_shapes :
  shape 2 2 [[0; 1]; [1; 0]] /\ shape 1 1 [[3]] /\ shape 2 1 [[1]; [2]] /\
  shape 2 1 [[4]; [5]] /\ shape 2 2 [[0; 0]; [0; 0]] /\
  shape 1 1 [[1]] /\ shape 1 1 [[2]].
Proof. repeat split; repeat constructor. Qed.

Lemma square_builders_raise_on_empty_witness :
  shape 0 0 [] /\ shape 1 1 [[3]] /\ shape 0 1 [] /\
  tensor_square_loss_mine [] [[3]] [] = Exc ValueError /\
  tensor_square_loss_mine_combined [] [[3]] [] [] 0.5 = Exc ValueError.
Proof.
  assert (H00 : shape 0 0 []) by (split; [reflexivity | constructor]).
  assert (H01 : shape 0 1 []) by (split; [reflexivity | constructor]).
  destruct example_shapes as (_ & H11 & _).
  repeat (split; [assumption|]).
  destruct (square_builders_raise_on_empty 0 1 [] [[3]] [] [] 0.5 H00 H11 H01 H01)
    as (Hs & Hc & Hse & Hce).
  destruct (proj2 Hs (or_introl eq_refl)) as [e He].
  destruct (proj2 Hc (or_introl eq_refl)) as [e' He'].
  rewrite He, He'. rewrite (Hse e He), (Hce e' He'). split; reflexivity.
Defined.

Lemma loop_skipped_returns_initial_coupling_witness :
  (1 <= 1 \/ (1000 <= 0)%Z) /\
  normalize ErrWarn [[2]] = Ok [[2 / 2]] /\
  gromov_wasserstein_adjusted ErrWarn independent_solver [[2]] [[1]] [[1]] 0.5
    [1] [1] "square_loss" 0.1 1000 1 false LogOff =
    Done (init_state [1] [1] LogOff) /\
  gromov_wasserstein_adjusted_combined ErrWarn independent_solver [[2]] [[1]] [[1]] 0.5
    [1] [1] "square_loss" 0.1 1000 1 false LogOff =
    Done (init_state [1] [1] LogOff).
Proof.
  assert (H : 1 <= 1 \/ (1000 <= 0)%Z) by (left; lra).
  split; [exact H|]. split; [apply normalize_example|].
  destruct (loop_skipped_returns_initial_coupling ErrWarn independent_solver [[2]]
              [[1]] [[1]] 0.5 [1] [1] "square_loss" 0.1 1000 1 false LogOff H)
    as (HAC & _).
  apply (HAC _ normalize_example).
Defined.

Lemma log_true_raises_type_error_witness :
  1e-9 < 1 /\ (0 < 1000)%Z /\
  normalize ErrWarn [[2]] = Ok [[2 / 2]] /\
  (exists tens, tensor_square_loss_mine [[1]] [[1]] (outer [1] [1]) = Ok tens) /\
  exists s,
    gromov_wasserstein_adjusted ErrWarn independent_solver [[2]] [[1]] [[1]] 0.5
      [1] [1] "square_loss" 0.1 1000 1e-9 false LogTrue = Fault TypeError s /\
    st_cpt s = 0%Z /\ solver_calls (st_trace s) = 1%nat.
Proof.
  assert (H1 : 1e-9 < 1) by lra. assert (H2 : (0 < 1000)%Z) by lia.
  assert (Hb : exists tens, tensor_square_loss_mine [[1]] [[1]] (outer [1] [1]) = Ok tens)
    by (eexists; reflexivity).
  split; [exact H1|]. split; [exact H2|]. split; [apply normalize_example|].
  split; [exact Hb|]. destruct Hb as [tens Hb].
  destruct (log_true_raises_type_error ErrWarn independent_solver [[2]] [[1]] [[1]]
              0.5 [1] [1] 0.1 1000 1e-9 false H1 H2) as (HA & _).
  apply (HA _ _ normalize_example Hb).
Defined.

Lemma adjusted_single_pass (tol : R) :
  tol < 1 ->
  exists s,
    gromov_wasserstein_adjusted ErrWarn independent_solver [[2]] [[1]] [[1]] 0.5
      [1] [1] "square_loss" 0.1 1 tol false LogOff = Done s.
Proof.
  intros Htol.
  unfold gromov_wasserstein_adjusted, adjusted_run, normalize.
  cbn [amax entries concat app fold_left bind mdiv_scalar mapM].
  rewrite np_div_warn. cbn [bind attempt Z.to_nat Pos.to_nat Pos.iter_op Nat.add].
  eexists. apply while_loop_once.
  - simpl. exact Htol.
  - reflexivity.
  - unfold adjusted_body, dispatch_square. cbn. reflexivity.
  - reflexivity.
Qed.

Lemma norm_driver_raises_on_empty_space_witness :
  1e-9 < 1 /\ (0 < 1000)%Z /\ 0.5 <> 1 /\
  shape 0 0 [] /\ shape 1 1 [[3]] /\ (0 = 0 \/ 1 = 0)%nat /\
  gromov_wasserstein_adjusted_norm ErrWarn independent_solver [] [] [[3]] 0.5
    [] [1] "square_loss" 0.1 1000 1e-9 false LogOff =
  Fault ValueError (emit (EvSquareLoss (outer [] [1])) (init_state [] [1] LogOff)).
Proof.
  assert (H1 : 1e-9 < 1) by lra. assert (H2 : (0 < 1000)%Z) by lia.
  assert (H3 : 0.5 <> 1) by lra.
  assert (H00 : shape 0 0 []) by (split; [reflexivity | constructor]).
  destruct example_shapes as (_ & H11 & _).
  assert (H0 : (0 = 0 \/ 1 = 0)%nat) by (left; reflexivity).
  repeat (split; [assumption|]).
  apply (norm_driver_raises_on_empty_space ErrWarn independent_solver [] [] [[3]]
           0.5 [] [1] 0.1 1000 1e-9 false LogOff 0 1 H1 H2 H3 H00 H11
           eq_refl eq_refl H0).
Defined.

Lemma adjusted_single_pass_verbose :
  exists s,
    gromov_wasserstein_adjusted ErrWarn independent_solver [[2]] [[1]] [[1]] 0.5
      [1] [1] "square_loss" 0.1 1 1e-9 true LogOff = Done s.
Proof.
  unfold gromov_wasserstein_adjusted, adjusted_run, normalize.
  cbn [amax entries concat app fold_left bind mdiv_scalar mapM].
  rewrite np_div_warn. cbn [bind attempt Z.to_nat Pos.to_nat Pos.iter_op Nat.add].
  eexists. apply while_loop_once.
  - simpl. lra.
  - reflexivity.
  - unfold adjusted_body, dispatch_square. cbn. reflexivity.
  - reflexivity.
Qed.

Lemma verbose_rows_witness :
  exists s,
    gromov_wasserstein_adjusted ErrWarn independent_solver [[2]] [[1]] [[1]] 0.5
      [1] [1] "square_loss" 0.1 1 1e-9 true LogOff = Done s /\
    rows (st_trace s) = checks (st_trace s).
Proof.
  destruct adjusted_single_pass_verbose as [s Hs].
  exists s. split; [exact Hs|].
  destruct (verbose_rows ErrWarn independent_solver [[2]] [[1]] [[1]] 0.5
              [1] [1] "square_loss" 0.1 1 1e-9 true LogOff) as (HA & _).
  exact (HA s Hs).
Defined.

Lemma one_solver_call_per_iteration_witness :
  exists s,
    gromov_wasserstein_adjusted ErrWarn independent_solver [[2]] [[1]] [[1]] 0.5
      [1] [1] "square_loss" 0.1 1 1e-9 false LogOff = Done s /\
    Z.of_nat (solver_calls (st_trace s)) = st_cpt s.
Proof.
  destruct (adjusted_single_pass 1e-9) as [s Hs]; [lra|].
  exists s. split; [exact Hs|].
  destruct (one_solver_call_per_iteration ErrWarn independent_solver [[2]] [[1]]
              [[1]] 0.5 [1] [1] "square_loss" 0.1 1 1e-9 false LogOff) as (HA & _).
  exact (proj1 (HA s Hs)).
Defined.

Lemma norm_one_iteration :
  exists s M err,
    gromov_wasserstein_adjusted_norm ErrWarn independent_solver [[2]] [[1]] [[1]]
      0.5 [1] [1] "square_loss" 0.1 1 1e-9 false LogOff = Done s /\
    st_trace s = [EvSquareLoss [[1 * 1]]; EvSinkhorn M; EvError 0 err].
Proof.
  unfold gromov_wasserstein_adjusted_norm, norm_run.
  destruct (Req_dec_T 0.5 1) as [H | _]; [lra|].
  cbn [Z.to_nat Pos.to_nat Pos.iter_op Nat.add].
  eexists. eexists. eexists. split.
  - apply while_loop_once.
    + simpl. lra.
    + reflexivity.
    + unfold norm_body, dispatch_square. cbn. reflexivity.
    + reflexivity.
  - reflexivity.
Qed.

Lemma combined_one_iteration_trace :
  exists s M err,
    gromov_wasserstein_adjusted_combined ErrWarn independent_solver [[2]] [[1]] [[1]]
      0.5 [1] [1] "square_loss" 0.1 1 1e-9 false LogOff = Done s /\
    st_trace s = [EvCombinedLoss [[1 * 1]]; EvSinkhorn M; EvError 0 err].
Proof.
  unfold gromov_wasserstein_adjusted_combined, combined_run, normalize.
  cbn [amax entries concat app fold_left bind mdiv_scalar mapM].
  rewrite np_div_warn. cbn [bind attempt Z.to_nat Pos.to_nat Pos.iter_op Nat.add].
  eexists. eexists. eexists. split.
  - apply while_loop_once.
    + simpl. lra.
    + reflexivity.
    + unfold combined_body, dispatch_combined. cbn. reflexivity.
    + reflexivity.
  - reflexivity.
Qed.

Lemma norm_solver_cost_witness :
  0.5 <> 1 /\
  exists s pre post M,
    final (gromov_wasserstein_adjusted_norm ErrWarn independent_solver [[2]] [[1]]
             [[1]] 0.5 [1] [1] "square_loss" 0.1 1 1e-9 false LogOff) = Some s /\
    st_trace s = pre ++ EvSinkhorn M :: post /\
    exists tens,
      tensor_square_loss_mine [[1]] [[1]]
        (replay independent_solver [1] [1] 0.1 (outer [1] [1]) pre) = Ok tens /\
      M = madd (mscale_l (1 - 0.5) tens)
               (mscale_l 0.5 (cost_mat_norm ErrWarn [[2]])).
Proof.
  assert (Ha : 0.5 <> 1) by lra. split; [exact Ha|].
  destruct norm_one_iteration as (s & M & err & Hs & Htr).
  assert (Hfin : final (gromov_wasserstein_adjusted_norm ErrWarn independent_solver
                          [[2]] [[1]] [[1]] 0.5 [1] [1] "square_loss" 0.1 1 1e-9
                          false LogOff) = Some s) by (now rewrite Hs).
  exists s, [EvSquareLoss [[1 * 1]]], [EvError 0 err], M.
  split; [exact Hfin|]. split; [exact Htr|].
  exact (proj1 (norm_solver_cost ErrWarn independent_solver [[2]] [[1]] [[1]] 0.5
                  [1] [1] "square_loss" 0.1 1 1e-9 false LogOff s
                  [EvSquareLoss [[1 * 1]]] [EvError 0 err] M Ha Hfin Htr)).
Defined.

Lemma combined_solver_cost_witness :
  exists s pre post M,
    final (gromov_wasserstein_adjusted_combined ErrWarn independent_solver [[2]]
             [[1]] [[1]] 0.5 [1] [1] "square_loss" 0.1 1 1e-9 false LogOff)
      = Some s /\
    st_trace s = pre ++ EvSinkhorn M :: post /\
    tensor_square_loss_mine_combined [[1]] [[1]]
      (replay independent_solver [1] [1] 0.1 (outer [1] [1]) pre) [[2]] 0.5 = Ok M.
Proof.
  destruct combined_one_iteration_trace as (s & M & err & Hs & Htr).
  assert (Hfin : final (gromov_wasserstein_adjusted_combined ErrWarn
                          independent_solver [[2]] [[1]] [[1]] 0.5 [1] [1]
                          "square_loss" 0.1 1 1e-9 false LogOff) = Some s)
    by (now rewrite Hs).
  exists s, [EvCombinedLoss [[1 * 1]]], [EvError 0 err], M.
  split; [exact Hfin|]. split; [exact Htr|].
  exact (proj1 (combined_solver_cost ErrWarn independent_solver [[2]] [[1]] [[1]] 0.5
                  [1] [1] "square_loss" 0.1 1 1e-9 false LogOff s
                  [EvCombinedLoss [[1 * 1]]] [EvError 0 err] M Hfin Htr)).
Defined.

Lemma while_loop_converges (max_iter : Z) (tol : R) (body : state -> outcome)
  (fuel : nat) (s s' : state) :
  loop_cond max_iter tol s = true -> body s = Done s' ->
  loop_cond max_iter tol s' = false ->
  while_loop max_iter tol body (S fuel) s = Done s'.
Proof.
  intros H1 Hb H2. cbn [while_loop]. rewrite H1, Hb. cbn [andThen].
  destruct fuel; cbn [while_loop]; now rewrite H2.
Qed.

(** A call that converges at its first check: the solver answers the
    initial coupling again, [err] is 0, and the loop stops after one
    iteration out of five. *)
Lemma adjusted_converges_example :
  exists s,
    gromov_wasserstein_adjusted ErrWarn independent_solver [[2]] [[1]] [[1]] 0.5
      [1] [1] "square_loss" 0.1 5 1e-9 false LogOff = Done s /\
    st_cpt s = 1%Z.
Proof.
  unfold gromov_wasserstein_adjusted, adjusted_run, normalize.
  cbn [amax entries concat app fold_left bind mdiv_scalar mapM].
  rewrite np_div_warn. cbn [bind attempt].
  change (Z.to_nat 5) with 5%nat.
  assert (Herr : linalg_norm [[1 * 1 - 1 * 1]] = 0).
  { unfold linalg_norm. cbn.
    replace ((1 * 1 - 1 * 1) * (1 * 1 - 1 * 1) + 0) with 0 by lra. apply sqrt_0. }
  eexists. split.
  - apply while_loop_converges.
    + unfold loop_cond. cbn [init_state st_err st_cpt].
      rewrite Rltb_true by lra. reflexivity.
    + unfold adjusted_body, dispatch_square. cbn. rewrite Herr. reflexivity.
    + unfold loop_cond. cbn [st_err st_cpt incr_cpt set_cpt progress emit set_err
                              set_T set_tens].
      rewrite Rltb_false by lra. reflexivity.
  - reflexivity.
Qed.

Lemma early_stop_follows_a_check_witness :
  1e-9 < 1 /\
  exists s,
    gromov_wasserstein_adjusted ErrWarn independent_solver [[2]] [[1]] [[1]] 0.5
      [1] [1] "square_loss" 0.1 5 1e-9 false LogOff = Done s /\
    (st_cpt s < 5)%Z /\ ~ 1e-9 < st_err s /\ (st_cpt s mod 10 = 1)%Z.
Proof.
  assert (Htol : 1e-9 < 1) by lra. split; [exact Htol|].
  destruct adjusted_converges_example as (s & Hs & Hc).
  assert (Hlt : (st_cpt s < 5)%Z) by (rewrite Hc; lia).
  exists s. split; [exact Hs|]. split; [exact Hlt|].
  destruct (early_stop_follows_a_check ErrWarn independent_solver [[2]] [[1]] [[1]]
              0.5 [1] [1] "square_loss" 0.1 5 1e-9 false LogOff Htol) as (HA & _).
  exact (HA s Hs Hlt).
Defined.

Lemma updates_index_bounds_witness :
  (forall s Ts C,
     nth_error [[[1]]; [[1]]] s = Some Ts -> nth_error [[[1]]] s = Some C ->
     exists n, shape n (length [1]) Ts /\ shape n n C) /\
  (length [[[1]]] < length [[[1]]; [[1]]])%nat /\
  update_square_loss_mine ErrWarn [1] [1; 1] [[[1]]; [[1]]] [[[1]]] = Exc IndexError /\
  update_kl_loss_mine ErrWarn [1] [1; 1] [[[1]]; [[1]]] [[[1]]] = Exc IndexError.
Proof.
  destruct example_shapes as (_ & _ & _ & _ & _ & H1 & _).
  assert (Hs : forall s Ts C,
            nth_error [[[1]]; [[1]]] s = Some Ts -> nth_error [[[1]]] s = Some C ->
            exists n, shape n (length [1]) Ts /\ shape n n C).
  { intros [|[|s]] Ts C HT HC; simpl in HT, HC; try discriminate.
    injection HT as <-. injection HC as <-. exists 1%nat. split; exact H1. }
  assert (Hlen : (length [[[1]]] < length [[[1]]; [[1]]])%nat) by (simpl; lia).
  split; [exact Hs|]. split; [exact Hlen|].
  destruct (updates_index_bounds ErrWarn [1] [1; 1] [[[1]]; [[1]]] [[[1]]] Hs)
    as ([_ Hsq] & [_ Hkl] & _).
  split; [apply Hsq | apply Hkl]; right; exact Hlen.
Defined.

(** Entries past the length of [T] are never read: a second weight and a
    second cost matrix change nothing. *)
Lemma updates_ignore_extra_entries :
  update_square_loss_mine ErrWarn [1] [1; 7] [[[1]]] [[[2]]; [[9]]] =
  update_square_loss_mine ErrWarn [1] [1] [[[1]]] [[[2]]].
Proof. reflexivity. Qed.





(** With one space, weight 1 and the identity coupling the numerator is
    the cost matrix itself. *)
Lemma spec_numerator_example :
  spec_numerator [1] [[[1; 0]; [0; 1]]] [[[0; 3]; [3; 0]]] 0 1 = 3 /\
  spec_numerator [1] [[[1; 0]; [0; 1]]] [[[0; 3]; [3; 0]]] 1 1 = 0.
Proof. unfold spec_numerator, spec_term, sum_of, entry. simpl. split; lra. Qed.

